(** * VoiceHire: the heuristic fallback engine, the grade mapping, the
      answer route, the Gemini client, the authentication middleware and
      the proctoring policy.

    The development embeds the JavaScript of
      - [config/fallback.js]  (question bank, [generateLocalQuestions],
        [evaluateAnswerLocally], [generateReportLocally]),
      - [config/gemini.js] ([callGemini], [parseGeminiJSON]),
      - [routes/interview.js] and [routes/report.js] ([scoreToGrade], the
        [POST /:id/answer] handler),
      - [middleware/auth.js] ([authMiddleware]),
      - [voicehire-frontend/app.js] (the proctoring handlers, the movement
        detector, [api], [submitAnswer], [resumeInterview], the score
        classes)
    as Rocq functions and proves the properties of the specification about
    them.  Numbers that the code rounds, the products and differences on
    the values of [Math.random], are doubles with their rounding. *)

From Stdlib Require Import String Ascii.
From Stdlib Require Import List ZArith NArith QArith Qround Qpower Qfield.
From Stdlib Require Import Lia Lqa Bool.
From Stdlib Require Import Permutation Arith Finite.
From Stdlib Require SpecFloat.
Import ListNotations.

Local Open Scope Z_scope.
Local Open Scope list_scope.

(** ** JavaScript values used by the embedded code *)

Module Js.

(** A JavaScript string is a sequence of UTF-16 code units. *)
Definition code_unit := N.
Definition jsstring := list code_unit.

(** The code units of an ASCII literal of the source. *)
Definition lit (s : string) : jsstring :=
  map N_of_ascii (list_ascii_of_string s).

Definition jsstring_eq_dec : forall a b : jsstring, {a = b} + {a <> b} :=
  list_eq_dec N.eq_dec.

Definition jsstring_eqb (a b : jsstring) : bool :=
  if jsstring_eq_dec a b then true else false.

(** [WhiteSpace] and [LineTerminator] of ECMAScript: the characters that
    [String.prototype.trim] strips and that the class escape [\s] matches. *)
Definition is_white_space (c : code_unit) : bool :=
  (((9 <=? c) && (c <=? 13)) || (c =? 32) || (c =? 160) || (c =? 5760)
   || ((8192 <=? c) && (c <=? 8202)) || (c =? 8232) || (c =? 8233)
   || (c =? 8239) || (c =? 8287) || (c =? 12288) || (c =? 65279))%N.

(** [\d] without the unicode flag: the ten ASCII digits. *)
Definition is_digit (c : code_unit) : bool := ((48 <=? c) && (c <=? 57))%N.

Fixpoint trimStart (s : jsstring) : jsstring :=
  match s with
  | [] => []
  | c :: s' => if is_white_space c then trimStart s' else s
  end.

Fixpoint trimEnd (s : jsstring) : jsstring :=
  match s with
  | [] => []
  | c :: s' =>
      match trimEnd s' with
      | [] => if is_white_space c then [] else [c]
      | t => c :: t
      end
  end.

Definition trim (s : jsstring) : jsstring := trimEnd (trimStart s).

(** [s.split(/[class]+/)]: the string is cut at every maximal run of
    separator characters.  [cur] is the segment being read (reversed),
    [in_run] tells that the previous character was a separator.  As in
    ECMAScript's [Symbol.split], a separator run at the very beginning gives
    a leading empty segment, one at the end a trailing empty segment, and the
    empty string gives one empty segment. *)
Fixpoint split_plus (sep : code_unit -> bool) (cur : jsstring) (in_run : bool)
    (s : jsstring) : list jsstring :=
  match s with
  | [] => [rev cur]
  | c :: s' =>
      if sep c then
        if in_run then split_plus sep [] true s'
        else rev cur :: split_plus sep [] true s'
      else split_plus sep (c :: cur) false s'
  end.

(** Case folding of a regular expression with the [i] flag and without the
    [u] flag, on the ASCII letters: [Canonicalize] upper-cases a character,
    and never maps a character outside ASCII to an ASCII one, so against the
    ASCII patterns of the source this is all that matters. *)
Definition canonicalize (c : code_unit) : code_unit :=
  (if (97 <=? c) && (c <=? 122) then c - 32 else c)%N.

Definition ci_char (p c : code_unit) : bool :=
  (canonicalize p =? canonicalize c)%N.

(** Does the literal [pat] match, ignoring case, at the beginning of [s]? *)
Fixpoint ci_prefix (pat s : jsstring) : bool :=
  match pat with
  | [] => true
  | p :: pat' =>
      match s with
      | [] => false
      | c :: s' => ci_char p c && ci_prefix pat' s'
      end
  end.

(** The first alternative of [/a1|a2|.../i] that matches at the beginning of
    [s]; alternatives are tried from left to right. *)
Fixpoint match_alt (alts : list jsstring) (s : jsstring) : option jsstring :=
  match alts with
  | [] => None
  | a :: alts' => if ci_prefix a s then Some a else match_alt alts' s
  end.

(** [/a1|a2|.../i.test(s)]: a match at some position of [s]. *)
Fixpoint regex_test (alts : list jsstring) (s : jsstring) : bool :=
  match match_alt alts s with
  | Some _ => true
  | None =>
      match s with
      | [] => false
      | _ :: s' => regex_test alts s'
      end
  end.

(** [GetSubstitution] for a pattern without capture groups: in the
    replacement text [$$] stands for a dollar sign, [$&] for the matched
    text, [$`] for the text before the match and [$'] for the text after it;
    every other character, a dollar sign before anything else included, is
    copied. *)
Fixpoint expand (tmpl matched before after : jsstring) : jsstring :=
  match tmpl with
  | [] => []
  | d :: t =>
      if (d =? 36)%N then
        match t with
        | [] => [d]
        | e :: t' =>
            if (e =? 36)%N then 36%N :: expand t' matched before after
            else if (e =? 38)%N then matched ++ expand t' matched before after
            else if (e =? 96)%N then before ++ expand t' matched before after
            else if (e =? 39)%N then after ++ expand t' matched before after
            else d :: expand t matched before after
        end
      else d :: expand t matched before after
  end.

(** [s.replace(/a1|a2|.../gi, tmpl)] for non-empty alternatives: the string
    is scanned from left to right, each match is replaced by the expansion of
    [tmpl] and the scan goes on after the match.  [seen] is the text already
    scanned (reversed), [skip] the number of characters of the current match
    still to be passed over. *)
Fixpoint replace_go (alts : list jsstring) (tmpl seen : jsstring) (skip : nat)
    (s : jsstring) : jsstring :=
  match s with
  | [] => []
  | c :: s' =>
      match skip with
      | S k => replace_go alts tmpl (c :: seen) k s'
      | O =>
          match match_alt alts s with
          | Some a =>
              let m := length a in
              expand tmpl (firstn m s) (rev seen) (skipn m s)
                ++ replace_go alts tmpl (c :: seen) (pred m) s'
          | None => c :: replace_go alts tmpl (c :: seen) O s'
          end
      end
  end.

Definition replace_all (alts : list jsstring) (tmpl s : jsstring) : jsstring :=
  replace_go alts tmpl [] O s.

(** JavaScript numbers met in the embedded code: an integer or [NaN]. *)
Inductive number :=
| Num (z : Z)
| NaN.

Definition Math_min (a b : number) : number :=
  match a, b with
  | Num x, Num y => Num (Z.min x y)
  | _, _ => NaN
  end.

Definition Math_max (a b : number) : number :=
  match a, b with
  | Num x, Num y => Num (Z.max x y)
  | _, _ => NaN
  end.

(** [a >= n] for an integer [n]: false when [a] is [NaN]. *)
Definition number_geb (a : number) (n : Z) : bool :=
  match a with
  | Num x => n <=? x
  | NaN => false
  end.

(** An object literal [{ k1: v1, ... }] whose values have type [V]: its own
    properties in source order.  Its prototype is [Object.prototype], so a
    lookup [obj[key]] that finds no own property goes on there and finds a
    built-in method, or for [__proto__] the prototype object itself. *)
Definition object (V : Type) := list (jsstring * V).

Inductive inherited :=
| BuiltinFunction
| PrototypeObject.

Inductive property (V : Type) :=
| Own (v : V)
| Inherited (i : inherited)
| Absent.
Arguments Own {V} v.
Arguments Inherited {V} i.
Arguments Absent {V}.

Fixpoint own_property {V} (o : object V) (key : jsstring) : option V :=
  match o with
  | [] => None
  | (k, v) :: o' => if jsstring_eqb k key then Some v else own_property o' key
  end.

Definition Object_prototype : object inherited :=
  [ (lit "constructor", BuiltinFunction);
    (lit "__defineGetter__", BuiltinFunction);
    (lit "__defineSetter__", BuiltinFunction);
    (lit "hasOwnProperty", BuiltinFunction);
    (lit "__lookupGetter__", BuiltinFunction);
    (lit "__lookupSetter__", BuiltinFunction);
    (lit "isPrototypeOf", BuiltinFunction);
    (lit "propertyIsEnumerable", BuiltinFunction);
    (lit "toString", BuiltinFunction);
    (lit "valueOf", BuiltinFunction);
    (lit "__proto__", PrototypeObject);
    (lit "toLocaleString", BuiltinFunction) ].

(** [obj[key]] *)
Definition get {V} (o : object V) (key : jsstring) : property V :=
  match own_property o key with
  | Some v => Own v
  | None =>
      match own_property Object_prototype key with
      | Some i => Inherited i
      | None => Absent
      end
  end.

(** Completion of a call: a value, or a thrown [TypeError]. *)
Inductive completion (A : Type) :=
| Normal (a : A)
| ThrowTypeError.
Arguments Normal {A} a.
Arguments ThrowTypeError {A}.

(** [Math.random()]: the stream of values it returns during a run, read
    through a cursor.  A value is given as the rational that the double
    stands for. *)
Definition random_source := nat -> Q.

(** *** Double-precision arithmetic

    A JavaScript number is an IEEE 754 binary64 value, and a product or a
    difference is the exact result rounded to the nearest such value, ties
    to the even significand.  The finite doubles are the rationals
    [m * 2 ^ e] with [|m| < 2 ^ 53] and [e >= -1074]; the numbers met in the
    embedded arithmetic are far below [2 ^ 1024], so the overflow to
    [Infinity] is left out. *)

(** The integer [k] with [2 ^ k <= q < 2 ^ (k + 1)], for a positive [q]. *)
Definition Qlog2 (q : Q) : Z :=
  let k := Z.log2 (Qnum q) - Z.log2 (Z.pos (Qden q)) in
  if Qle_bool (2 ^ k) q then k else k - 1.

(** The nearest integer, a tie going to the even one. *)
Definition round_half_even (q : Q) : Z :=
  let f := Qfloor q in
  match (q - inject_Z f ?= 1 # 2)%Q with
  | Lt => f
  | Gt => f + 1
  | Eq => if Z.even f then f else f + 1
  end.

(** The double nearest to a positive [q]: 53 significant bits, and below
    [2 ^ -1022] the fixed spacing [2 ^ -1074] of the subnormal numbers. *)
Definition binary64_pos (q : Q) : Q :=
  let e := Z.max (Qlog2 q - 52) (-1074) in
  (inject_Z (round_half_even (q / 2 ^ e)) * 2 ^ e)%Q.

Definition binary64 (q : Q) : Q :=
  match (q ?= 0)%Q with
  | Eq => 0%Q
  | Gt => binary64_pos q
  | Lt => (- binary64_pos (- q))%Q
  end.

(** The rational [q] is a double. *)
Definition is_double (q : Q) : bool := Qeq_bool (binary64 q) q.

(** [x * y] and [x - y] *)
Definition double_mul (x y : Q) : Q := binary64 (x * y).
Definition double_sub (x y : Q) : Q := binary64 (x - y).

(** The largest double below 1. *)
Definition below_one : Q := (2 ^ 53 - 1) # (2 ^ 53).

(** The rational that a finite value of the reference model
    [SpecFloat.spec_float] of the Standard Library stands for. *)
Definition spec_float_value (x : SpecFloat.spec_float) : Q :=
  match x with
  | SpecFloat.S754_finite s m e =>
      ((if s then -1 else 1) * inject_Z (Z.pos m) * 2 ^ e)%Q
  | _ => 0%Q
  end.

(** [Math.random] returns doubles from 0 (included) to 1 (excluded). *)
Definition valid_source (src : random_source) : Prop :=
  forall i, is_double (src i) = true /\ (0 <= src i)%Q /\ (src i < 1)%Q.

(** [Math.floor] and [Math.round] of the value of a double. *)
Definition Math_floor (q : Q) : Z := Qfloor q.
Definition Math_round (q : Q) : Z := Qfloor (q + (1 # 2)).

(** [arr.slice(0, n)] for an integer [n]. *)
Definition slice0 {A} (n : Z) (l : list A) : list A :=
  if n <? 0 then firstn (Z.to_nat (Z.max (Z.of_nat (length l) + n) 0)) l
  else firstn (Z.to_nat n) l.

(** *** [Array.prototype.sort] with a comparator that ignores its arguments

    What a sort does with a comparator that is not consistent is left to the
    engine.  With the comparator [() => Math.random() - 0.5] the work of the
    engine on an array of a given length is a procedure that calls the
    comparator, branches on the sign of what it returns and moves elements
    of the array around. *)
Inductive sort_proc :=
| Done
| Swap (i j : nat) (k : sort_proc)
| CallCompare (k : comparison -> sort_proc).

Definition swap {A} (i j : nat) (l : list A) : list A :=
  match nth_error l i, nth_error l j with
  | Some x, Some y =>
      let l1 := firstn i l ++ y :: skipn (S i) l in
      firstn j l1 ++ x :: skipn (S j) l1
  | _, _ => l
  end.

(** The sign of [Math.random() - 0.5]. *)
Definition random_comparator (r : Q) : comparison := (r ?= 1 # 2)%Q.

Fixpoint run_sort {A} (p : sort_proc) (src : random_source) (cur : nat)
    (arr : list A) : list A * nat :=
  match p with
  | Done => (arr, cur)
  | Swap i j k => run_sort k src cur (swap i j arr)
  | CallCompare k => run_sort (k (random_comparator (src cur))) src (S cur) arr
  end.

(** The engine: the procedure it follows for an array of each length. *)
Definition engine := nat -> sort_proc.

(** Insertion sort, as an example of an engine. *)
Fixpoint sink (j : nat) (k : sort_proc) : sort_proc :=
  match j with
  | O => k
  | S j' =>
      CallCompare (fun c =>
        match c with
        | Lt => Swap (S j') j' (sink j' k)
        | _ => k
        end)
  end.

Fixpoint insert_from (i count : nat) : sort_proc :=
  match count with
  | O => Done
  | S count' => sink i (insert_from (S i) count')
  end.

Definition insertion_engine : engine := fun n => insert_from 1 (pred n).

End Js.

(** ** [config/fallback.js] *)

Module Fallback.
Import Js.

(** *** Question bank by category *)

Definition behavioral : list jsstring :=
  [
    lit "Tell me about yourself and what makes you a good fit for this role.";
    lit "Describe a time when you had to deal with a difficult coworker or team member. How did you handle it?";
    lit "Give me an example of a time you showed leadership, even if you weren't in a management role.";
    lit "Tell me about a project you're particularly proud of. What was your contribution?";
    lit "Describe a situation where you had to meet a tight deadline. How did you manage your time?";
    lit "Tell me about a time you received constructive criticism. How did you respond?";
    lit "Give an example of when you had to adapt to a significant change at work.";
    lit "Describe a time when you had to persuade someone to see things your way.";
    lit "Tell me about a mistake you made at work and how you handled it.";
    lit "How do you handle stress and pressure in the workplace?";
    lit "Describe a situation where you went above and beyond your job responsibilities.";
    lit "Tell me about a time you had to work with a team to achieve a common goal.";
    lit "Give an example of how you've handled a conflict at work.";
    lit "Describe a time when you had to make a difficult decision with limited information.";
    lit "Tell me about a time you failed. What did you learn from the experience?" ].

Definition technical : list jsstring :=
  [
    lit "Explain the concept of RESTful APIs and why they are important in modern software development.";
    lit "What is the difference between SQL and NoSQL databases? When would you use each?";
    lit "Describe how you would design a scalable web application architecture.";
    lit "Explain the concept of Object-Oriented Programming and its main principles.";
    lit "What are design patterns? Can you describe a few that you've used?";
    lit "How would you optimize the performance of a slow database query?";
    lit "Explain the concept of microservices architecture and its pros and cons.";
    lit "What is version control and why is it important? Describe your Git workflow.";
    lit "How do you approach debugging a complex issue in production?";
    lit "Explain the difference between authentication and authorization.";
    lit "What is CI/CD and why is it important in software development?";
    lit "Describe how caching works and when you would implement it.";
    lit "What are the SOLID principles in software design?";
    lit "Explain how you would handle security vulnerabilities in a web application.";
    lit "What is the difference between synchronous and asynchronous programming?" ].

Definition situational : list jsstring :=
  [
    lit "If you were assigned to a project with unclear requirements, how would you proceed?";
    lit "How would you handle a situation where your manager disagrees with your approach?";
    lit "If you discovered a critical bug right before a product launch, what would you do?";
    lit "How would you prioritize competing tasks when everything seems urgent?";
    lit "If a client requested a feature that would take significant time to build, how would you handle it?";
    lit "How would you onboard yourself in a new team with minimal documentation?";
    lit "If you noticed a colleague was struggling with their workload, what would you do?";
    lit "How would you handle a situation where the technology stack you're comfortable with isn't the best choice for a project?";
    lit "If stakeholders changed requirements mid-sprint, how would you respond?";
    lit "How would you approach giving negative feedback to a team member?";
    lit "If you were given a project with an impossible deadline, what would you do?";
    lit "How would you handle a situation where two team members have a conflict?";
    lit "If you discovered that a decision you advocated for was wrong, what would you do?";
    lit "How would you handle a situation where you need to learn a new technology quickly?";
    lit "If you were asked to cut corners on quality to meet a deadline, how would you respond?" ].

Definition mixed : list jsstring :=
  [
    lit "Tell me about yourself and your experience in this field.";
    lit "What's a technical challenge you recently solved? Walk me through your approach.";
    lit "How do you stay current with industry trends and new technologies?";
    lit "Describe your ideal work environment and team culture.";
    lit "If you had to explain a complex technical concept to a non-technical stakeholder, how would you do it?";
    lit "Tell me about a time you had to balance quality with speed.";
    lit "What's your approach to code reviews and giving/receiving feedback?";
    lit "How would you handle a production outage at 2 AM?";
    lit "Describe a project where you had to collaborate across different teams.";
    lit "What do you consider your greatest professional strength and weakness?";
    lit "How do you approach problem-solving when you encounter something completely new?";
    lit "Tell me about a time you mentored someone or helped a colleague grow.";
    lit "What's the most impactful project you've worked on and why?";
    lit "How do you handle disagreements about technical decisions?";
    lit "Where do you see yourself professionally in the next 3-5 years?" ].

Definition QUESTIONS : object (list jsstring) :=
  [ (lit "behavioral", behavioral);
    (lit "technical", technical);
    (lit "situational", situational);
    (lit "mixed", mixed) ].

(** *** [generateLocalQuestions] *)

Record SelectionRequest := {
  jobRole : jsstring;
  interviewType : jsstring;
  difficulty : jsstring;
  numQuestions : Z;
  topic : option jsstring
}.

(** [/this role|this field|your experience/gi] *)
Definition role_patterns : list jsstring :=
  [ lit "this role"; lit "this field"; lit "your experience" ].

(** [`the ${jobRole} role`] *)
Definition role_template (role : jsstring) : jsstring :=
  lit "the " ++ role ++ lit " role".

(** [selected[0] = selected[0].replace(...)] when [selected] is not empty *)
Definition add_role_context (role : jsstring) (selected : list jsstring)
  : list jsstring :=
  match selected with
  | [] => []
  | q :: rest => replace_all role_patterns (role_template role) q :: rest
  end.

(** [[...pool].sort(() => Math.random() - 0.5)] *)
Definition shuffle (eng : engine) (src : random_source) (pool : list jsstring)
  : list jsstring :=
  fst (run_sort (eng (length pool)) src O pool).

(** [QUESTIONS[interviewType] || QUESTIONS.mixed]: an array and an inherited
    property are truthy, only a missing property gives the mixed pool. *)
Definition select_pool (type : jsstring) : property (list jsstring) :=
  match get QUESTIONS type with
  | Absent => get QUESTIONS (lit "mixed")
  | found => found
  end.

(** The spread [[...pool]] throws a [TypeError] when [pool] is not iterable,
    which a function and a plain object are not. *)
Definition generateLocalQuestions (eng : engine) (src : random_source)
    (req : SelectionRequest) : completion (list jsstring) :=
  match select_pool (interviewType req) with
  | Own pool =>
      let shuffled := shuffle eng src pool in
      let selected := slice0 (numQuestions req) shuffled in
      Normal (add_role_context (jobRole req) selected)
  | Inherited _ | Absent => ThrowTypeError
  end.

(** *** [evaluateAnswerLocally] *)

Record AnswerEvaluation := {
  score : number;
  positive : jsstring;
  improve : jsstring;
  brief : jsstring
}.

Definition wordCount (answerText : jsstring) : Z :=
  Z.of_nat (length (split_plus is_white_space [] false (trim answerText))).

(** [/[.!?]+/] *)
Definition is_terminator (c : code_unit) : bool :=
  ((c =? 46) || (c =? 33) || (c =? 63))%N.

(** [s => s.trim()] as a condition: the trimmed segment is not empty. *)
Definition nonblank (s : jsstring) : bool :=
  match trim s with
  | [] => false
  | _ => true
  end.

Definition sentenceCount (answerText : jsstring) : Z :=
  Z.of_nat (length (filter nonblank (split_plus is_terminator [] false answerText))).

(** [/\d+/.test(answerText)] *)
Definition hasNumbers (answerText : jsstring) : bool :=
  existsb is_digit answerText.

Definition specifics_patterns : list jsstring :=
  [ lit "for example"; lit "specifically"; lit "such as"; lit "instance";
    lit "result"; lit "outcome"; lit "achieved"; lit "improved";
    lit "increased"; lit "reduced"; lit "led to" ].

Definition structure_patterns : list jsstring :=
  [ lit "first"; lit "second"; lit "additionally"; lit "moreover";
    lit "however"; lit "in conclusion"; lit "finally" ].

Definition hasSpecifics (answerText : jsstring) : bool :=
  regex_test specifics_patterns answerText.

Definition hasStructure (answerText : jsstring) : bool :=
  regex_test structure_patterns answerText.

Definition bonus (b : bool) (n : Z) : Z := if b then n else 0.

(** The score before the cap: the base and the length, structure and keyword
    bonuses. *)
Definition raw_score (answerText : jsstring) : Z :=
  50
  + bonus (20 <=? wordCount answerText) 5
  + bonus (50 <=? wordCount answerText) 10
  + bonus (100 <=? wordCount answerText) 5
  + bonus (150 <=? wordCount answerText) 5
  + bonus (2 <=? sentenceCount answerText) 5
  + bonus (4 <=? sentenceCount answerText) 5
  + bonus (hasNumbers answerText) 5
  + bonus (hasSpecifics answerText) 5
  + bonus (hasStructure answerText) 5.

Definition caps : object Z :=
  [ (lit "Easy", 95); (lit "Medium", 90); (lit "Hard", 85); (lit "Expert", 80) ].

(** [caps[difficulty] || 90], converted to a number by [Math.min]. *)
Definition cap_operand (difficulty : jsstring) : number :=
  match get caps difficulty with
  | Own z => if z =? 0 then Num 90 else Num z
  | Inherited _ => NaN
  | Absent => Num 90
  end.

Definition capped_score (answerText difficulty : jsstring) : number :=
  Math_max (Math_min (Num (raw_score answerText)) (cap_operand difficulty)) (Num 30).

Definition positiveOptions : list jsstring :=
  [ lit "You provided a clear and direct response to the question.";
    lit "Your answer shows good understanding of the topic.";
    lit "You communicated your thoughts effectively.";
    lit "Your response was well-structured and easy to follow.";
    lit "You demonstrated relevant knowledge in your answer." ].

Definition improveOptions : list jsstring :=
  [ lit "Try adding more specific examples with measurable outcomes.";
    lit "Consider using the STAR method (Situation, Task, Action, Result) for behavioral answers.";
    lit "Adding quantifiable metrics would strengthen your response.";
    lit "Try to connect your answer more directly to the role requirements.";
    lit "Consider providing more depth with real-world examples from your experience." ].

Definition briefOptions (s : number) : list jsstring :=
  let good := number_geb s 70 in
  [ (if good then lit "Good" else lit "Decent") ++ lit " answer. "
      ++ (if good then lit "Keep this up!" else lit "A bit more depth would help.");
    (if good then lit "Strong" else lit "Fair") ++ lit " response. "
      ++ (if good then lit "Well articulated." else lit "Try to be more specific.");
    (if good then lit "Impressive" else lit "Reasonable") ++ lit " answer. "
      ++ (if good then lit "Shows solid understanding." else lit "Could use more examples.") ].

(** [Math.floor(Math.random() * options.length)] *)
Definition pick_index (options : list jsstring) (r : Q) : Z :=
  Math_floor (double_mul r (inject_Z (Z.of_nat (length options)))).

(** [options[Math.floor(Math.random() * options.length)]] *)
Definition pick (options : list jsstring) (r : Q) : jsstring :=
  nth (Z.to_nat (pick_index options r)) options [].

Definition evaluateAnswerLocally (src : random_source)
    (questionText answerText difficulty : jsstring) : AnswerEvaluation :=
  let s := capped_score answerText difficulty in
  {| score := s;
     positive := pick positiveOptions (src 0%nat);
     improve := pick improveOptions (src 1%nat);
     brief := pick (briefOptions s) (src 2%nat) |}.

(** *** [generateReportLocally] *)

(** A row of the report route's query: [a.score] is an integer column, [NULL]
    when the answer has no score. *)
Record qa := {
  question_text : jsstring;
  answer_text : option jsstring;
  qa_score : option Z
}.

Record interview := {
  job_role : jsstring;
  interview_type : jsstring;
  interview_difficulty : jsstring
}.

Record InterviewReport := {
  overallScore : Z;
  grade : jsstring;
  communication : Z;
  relevance : Z;
  confidence : Z;
  structure : Z;
  depth : Z;
  strengths : list jsstring;
  improvements : list jsstring;
  recommendation : jsstring
}.

(** [qas.filter(qa => qa.score).map(qa => qa.score)]: [null] and [0] are
    falsy. *)
Fixpoint truthy_scores (qas : list qa) : list Z :=
  match qas with
  | [] => []
  | row :: qas' =>
      match qa_score row with
      | Some z => if z =? 0 then truthy_scores qas' else z :: truthy_scores qas'
      | None => truthy_scores qas'
      end
  end.

(** [scores.reduce((a, b) => a + b, 0)] *)
Definition sum_scores (scores : list Z) : Z := fold_left Z.add scores 0.

(** [scores.length ? Math.round(sum / scores.length) : 60]; the quotient is
    taken exact, which for the integer scores of the column gives the
    integer that [Math.round] gives for the double nearest to it. *)
Definition avgScore (qas : list qa) : Z :=
  let scores := truthy_scores qas in
  match length scores with
  | O => 60
  | n => Math_round (inject_Z (sum_scores scores) / inject_Z (Z.of_nat n))
  end.

Definition grade_of (avg : Z) : jsstring :=
  if 85 <=? avg then lit "Excellent"
  else if 70 <=? avg then lit "Good"
  else if 55 <=? avg then lit "Average"
  else if 40 <=? avg then lit "Needs Improvement"
  else lit "Poor".

(** The offset [Math.floor(Math.random() * range * 2 - range)]: the two
    products and the difference are rounded one after the other. *)
Definition jitter (range : Z) (r : Q) : Z :=
  Math_floor
    (double_sub (double_mul (double_mul r (inject_Z range)) 2) (inject_Z range)).

(** [vary(base, range)]; the default [range] is 10. *)
Definition vary (r : Q) (base range : Z) : Z :=
  Z.min 100 (Z.max 0 (base + jitter range r)).

Definition generateReportLocally (src : random_source) (iv : interview)
    (qas : list qa) : InterviewReport :=
  let avg := avgScore qas in
  {| overallScore := avg;
     grade := grade_of avg;
     communication := vary (src 0%nat) avg 10;
     relevance := vary (src 1%nat) avg 10;
     confidence := vary (src 2%nat) avg 8;
     structure := vary (src 3%nat) avg 10;
     depth := vary (src 4%nat) avg 12;
     strengths :=
       [ lit "You completed the interview and attempted all questions.";
         lit "Your responses showed clarity of thought.";
         lit "You demonstrated relevant domain knowledge." ];
     improvements :=
       [ lit "Practice structuring answers using the STAR method.";
         lit "Include more specific, quantified examples from your experience.";
         lit "Research the " ++ job_role iv ++ lit " role more deeply before interviews." ];
     recommendation :=
       lit "Keep practicing with mock interviews regularly. Focus on building depth in your "
       ++ interview_type iv
       ++ lit " responses. Use structured frameworks like STAR or SOAR to organize your thoughts. With consistent practice, you can improve your score significantly." |}.

End Fallback.

(** ** [routes/interview.js] *)

Module InterviewRoute.
Import Js.

Definition scoreToGrade (score : Z) : jsstring :=
  if 85 <=? score then lit "Excellent"
  else if 70 <=? score then lit "Good"
  else if 55 <=? score then lit "Average"
  else if 40 <=? score then lit "Needs Improvement"
  else lit "Poor".

(** A field of the parsed JSON body; [JUndefined] is a field that is not
    there, [JOther] an array or an object. *)
Inductive json :=
| JUndefined
| JNull
| JBool (b : bool)
| JNumber (z : Z)
| JString (s : jsstring)
| JOther.

(** [!v] *)
Definition falsy (v : json) : bool :=
  match v with
  | JUndefined | JNull => true
  | JBool b => negb b
  | JNumber z => z =? 0
  | JString s => match s with [] => true | _ => false end
  | JOther => false
  end.

Record answer_body := {
  questionId : json;
  answerText : json
}.

(** What the handler does to the outside, in order. *)
Inductive effect :=
| Respond (status : Z) (message : jsstring)
| RespondFeedback (feedback : Fallback.AnswerEvaluation)
| SelectInterview
| SelectQuestion
| CallGemini
| EvaluateLocally
| InsertAnswer (feedback : Fallback.AnswerEvaluation)
| Reject.

(** What the outside answers during one request: the rows the two queries
    find, the feedback Gemini gives ([None] when the call or the parsing of
    its reply throws), whether the insertion succeeds, and the values of
    [Math.random]; then what can go wrong outside of that.  A query can
    throw (the database fails, or the driver refuses the parameters that an
    array or an object as [questionId] stands for).  The reply of Gemini
    can parse to a value that [run] cannot take the four fields of: [null],
    of which reading [feedback.score] throws, or a value with a field that
    the driver does not bind. *)
Record world := {
  interview_row : option Fallback.interview;
  question_row : option jsstring;
  gemini_feedback : option Fallback.AnswerEvaluation;
  insert_succeeds : bool;
  random : random_source;
  interview_query_throws : bool;
  question_query_throws : bool;
  gemini_unusable : bool
}.

(** The driver binds numbers, strings, bigints, buffers and [null]; for a
    boolean it throws a [TypeError]. *)
Definition unbindable (v : json) : bool :=
  match v with
  | JBool _ => true
  | _ => false
  end.

Definition validation_message : jsstring :=
  lit "questionId and answerText (min 5 chars) are required.".

(** The [try] block of the handler.  The errors thrown in it are caught and
    answered with the status 500. *)
Definition evaluate_and_store (w : world) (iv : Fallback.interview)
    (question answer : jsstring) : list effect :=
  if gemini_unusable w then
    [CallGemini; Respond 500 (lit "Failed to evaluate answer.")]
  else
    let evaluation :=
      match gemini_feedback w with
      | Some feedback => (feedback, [CallGemini])
      | None =>
          (Fallback.evaluateAnswerLocally (random w) question answer
             (Fallback.interview_difficulty iv),
           [CallGemini; EvaluateLocally])
      end in
    snd evaluation
      ++ InsertAnswer (fst evaluation)
      :: (if insert_succeeds w then [RespondFeedback (fst evaluation)]
          else [Respond 500 (lit "Failed to evaluate answer.")]).

(** [router.post('/:id/answer', ...)].  The validation and the two queries
    stand before the [try] block: what throws there rejects the promise of
    the handler, which then sends no response ([Reject]).  That is the call
    of [trim] on a truthy [answerText] that is not a string, and a query
    that throws, as the second one does when it is to bind a boolean
    [questionId]. *)
Definition post_answer (w : world) (body : answer_body) : list effect :=
  if falsy (questionId body) || falsy (answerText body) then
    [Respond 400 validation_message]
  else
    match answerText body with
    | JString text =>
        if Z.of_nat (length (trim text)) <? 5 then
          [Respond 400 validation_message]
        else
          SelectInterview ::
          if interview_query_throws w then [Reject]
          else
            match interview_row w with
            | None => [Respond 404 (lit "Interview not found.")]
            | Some iv =>
                SelectQuestion ::
                if unbindable (questionId body) || question_query_throws w
                then [Reject]
                else
                  match question_row w with
                  | None => [Respond 404 (lit "Question not found.")]
                  | Some question => evaluate_and_store w iv question text
                  end
            end
    | _ => [Reject]
    end.

(** The effects that evaluate the answer or write it. *)
Definition evaluates_or_writes (e : effect) : bool :=
  match e with
  | CallGemini | EvaluateLocally | InsertAnswer _ => true
  | _ => false
  end.

End InterviewRoute.

(** ** [routes/report.js] *)

Module ReportRoute.
Import Js.

Definition scoreToGrade (score : Z) : jsstring :=
  if 85 <=? score then lit "Excellent"
  else if 70 <=? score then lit "Good"
  else if 55 <=? score then lit "Average"
  else if 40 <=? score then lit "Needs Improvement"
  else lit "Poor".

End ReportRoute.

(** ** Proctoring, [voicehire-frontend/app.js] *)

Module Proctor.
Import Js.

Definition MAX_PROCTOR_WARNINGS : Z := 3.

Record state := {
  proctorWarnings : Z;
  proctorActive : bool;
  proctorCooldown : bool
}.

(** The state when the script is loaded. *)
Definition initial : state :=
  {| proctorWarnings := 0; proctorActive := false; proctorCooldown := false |}.

(** What the handlers show. *)
Inductive output :=
| ShowProctorWarning (reason : jsstring) (count : Z)
| ShowInterviewTerminated (reason : jsstring).

Definition startProctoring (st : state) : state :=
  if proctorActive st then st
  else {| proctorWarnings := 0; proctorActive := true; proctorCooldown := false |}.

Definition stopProctoring (st : state) : state :=
  if proctorActive st then
    {| proctorWarnings := proctorWarnings st;
       proctorActive := false;
       proctorCooldown := proctorCooldown st |}
  else st.

(** The callback of [setTimeout(() => { proctorCooldown = false; }, 8000)] *)
Definition cooldownElapsed (st : state) : state :=
  {| proctorWarnings := proctorWarnings st;
     proctorActive := proctorActive st;
     proctorCooldown := false |}.

(** [showInterviewTerminated] stops the proctoring before it shows the
    modal. *)
Definition handleProctorViolation (reason : jsstring) (st : state)
  : state * list output :=
  if negb (proctorActive st) || proctorCooldown st then (st, [])
  else
    let counted :=
      {| proctorWarnings := proctorWarnings st + 1;
         proctorActive := proctorActive st;
         proctorCooldown := true |} in
    if MAX_PROCTOR_WARNINGS <=? proctorWarnings counted then
      (stopProctoring counted, [ShowInterviewTerminated reason])
    else
      (counted, [ShowProctorWarning reason (proctorWarnings counted)]).

(** The events of a page: the two entry points of the proctoring, a
    violation reported by one of the detectors, and the cooldown timer. *)
Inductive event :=
| Start
| Stop
| Violation (reason : jsstring)
| CooldownElapsed.

Definition step (st : state) (e : event) : state * list output :=
  match e with
  | Start => (startProctoring st, [])
  | Stop => (stopProctoring st, [])
  | Violation reason => handleProctorViolation reason st
  | CooldownElapsed => (cooldownElapsed st, [])
  end.

(** The state after a sequence of events, and everything shown on the way. *)
Fixpoint run (st : state) (events : list event) : state * list output :=
  match events with
  | [] => (st, [])
  | e :: events' =>
      let (st1, out1) := step st e in
      let (st2, out2) := run st1 events' in
      (st2, out1 ++ out2)
  end.

(** A violation is processed when the handler gets past its first line. *)
Definition processed (st : state) (e : event) : bool :=
  match e with
  | Violation _ => proctorActive st && negb (proctorCooldown st)
  | _ => false
  end.

(** An activation is a call of [startProctoring] that gets past its first
    line. *)
Definition activates (st : state) (e : event) : bool :=
  match e with
  | Start => negb (proctorActive st)
  | _ => false
  end.

(** The number of violations processed since the last activation (since the
    page was loaded when there was none). *)
Fixpoint processed_since_activation (st : state) (events : list event)
    (count : Z) : Z :=
  match events with
  | [] => count
  | e :: events' =>
      processed_since_activation (fst (step st e)) events'
        (if activates st e then 0
         else if processed st e then count + 1 else count)
  end.

(** While the proctoring is active fewer than three warnings were counted,
    and the counter never leaves the range from 0 to 3. *)
Definition proctor_inv (st : state) : Prop :=
  0 <= proctorWarnings st <= 3
  /\ (proctorActive st = true -> proctorWarnings st < 3).

End Proctor.

(** ** The chance of each outcome of the shuffle *)

Module Chance.
Import Js.

(** Two readings of "[Math.random] is uniform".  With a resolution of
    [S k] bits it returns each of the [2 ^ S k] multiples of [1 / 2 ^ S k]
    below 1 equally often, and the sign of [Math.random() - 0.5] is negative
    for [2 ^ k] of them, zero for one and positive for the other
    [2 ^ k - 1].  In the ideal reading it is a real number, and the sign is
    negative or positive with probability one half each and never zero. *)
Inductive resolution :=
| Bits (k : nat)
| Ideal.

(** The number of equally likely cases of one call. *)
Definition cases (r : resolution) : Z :=
  match r with
  | Bits k => 2 ^ Z.of_nat (S k)
  | Ideal => 2
  end.

(** The number of these cases in which the comparator has the sign [c]. *)
Definition sign_weight (r : resolution) (c : comparison) : Z :=
  match r, c with
  | Bits k, Lt => 2 ^ Z.of_nat k
  | Bits k, Eq => 1
  | Bits k, Gt => 2 ^ Z.of_nat k - 1
  | Ideal, Eq => 0
  | Ideal, _ => 1
  end.

(** The number of comparator calls on the longest path of a procedure. *)
Fixpoint depth (p : sort_proc) : nat :=
  match p with
  | Done => O
  | Swap _ _ k => depth k
  | CallCompare k =>
      S (Nat.max (depth (k Lt)) (Nat.max (depth (k Eq)) (depth (k Gt))))
  end.

(** Among the [cases r ^ d] equally likely cases of [d] calls of
    [Math.random], the number of those in which the procedure, started on
    [arr], ends within [d] comparator calls with an array that satisfies
    [event]. *)
Fixpoint outcomes {A} (r : resolution) (d : nat) (p : sort_proc) (arr : list A)
    (event : list A -> bool) : Z :=
  match p with
  | Done => if event arr then cases r ^ Z.of_nat d else 0
  | Swap i j p' => outcomes r d p' (swap i j arr) event
  | CallCompare f =>
      match d with
      | O => 0
      | S d' =>
          sign_weight r Lt * outcomes r d' (f Lt) arr event
          + sign_weight r Eq * outcomes r d' (f Eq) arr event
          + sign_weight r Gt * outcomes r d' (f Gt) arr event
      end
  end.

Definition probability {A} (r : resolution) (p : sort_proc) (arr : list A)
    (event : list A -> bool) : Q :=
  outcomes r (depth p) p arr event # Z.to_pos (cases r ^ Z.of_nat (depth p)).

Definition is_arrangement (a b : list jsstring) : bool :=
  if list_eq_dec jsstring_eq_dec a b then true else false.

(** The shuffle of [pool] is uniform when all the arrangements of [pool]
    have the same probability. *)
Definition uniform_shuffle (r : resolution) (eng : engine)
    (pool : list jsstring) : Prop :=
  forall a b : list jsstring,
    Permutation pool a -> Permutation pool b ->
    (probability r (eng (length pool)) pool (is_arrangement a)
     == probability r (eng (length pool)) pool (is_arrangement b))%Q.

(** All the arrangements of a list. *)
Fixpoint insert_everywhere {A} (x : A) (l : list A) : list (list A) :=
  match l with
  | [] => [[x]]
  | y :: l' => (x :: l) :: map (cons y) (insert_everywhere x l')
  end.

Fixpoint arrangements {A} (l : list A) : list (list A) :=
  match l with
  | [] => [[]]
  | x :: l' => flat_map (insert_everywhere x) (arrangements l')
  end.

(** The sum of [f] over a list. *)
Fixpoint total_over {A} (f : A -> Z) (l : list A) : Z :=
  match l with
  | [] => 0
  | a :: l' => f a + total_over f l'
  end.

(** The event that the array is one of the lists of [candidates]. *)
Definition among (candidates : list (list jsstring)) (arr : list jsstring)
  : bool :=
  existsb (fun a => is_arrangement a arr) candidates.

End Chance.

(** ** The specification's reference definitions *)

Module Spec.
Import Js.

(** The number of maximal runs of characters that satisfy [p]; [inside]
    tells that the previous character was in such a run. *)
Fixpoint count_runs (p : code_unit -> bool) (inside : bool) (s : jsstring)
  : nat :=
  match s with
  | [] => O
  | c :: s' =>
      if p c then (if inside then O else 1%nat) + count_runs p true s'
      else count_runs p false s'
  end.

(** Whether a text read from a state [inside] ends in a run of [p]. *)
Fixpoint ends_inside (p : code_unit -> bool) (inside : bool) (s : jsstring)
  : bool :=
  match s with
  | [] => inside
  | c :: s' => ends_inside p (p c) s'
  end.

Definition not_white_space (c : code_unit) : bool := negb (is_white_space c).

(** Words: the maximal runs of characters other than white space. *)
Definition words (answerText : jsstring) : Z :=
  Z.of_nat (count_runs not_white_space false answerText).

(** The segments of a text cut at every single separator character. *)
Fixpoint split_each (sep : code_unit -> bool) (cur : jsstring) (s : jsstring)
  : list jsstring :=
  match s with
  | [] => [rev cur]
  | c :: s' =>
      if sep c then rev cur :: split_each sep [] s'
      else split_each sep (c :: cur) s'
  end.

(** Sentences: the segments split on '.', '!' and '?' that are not empty
    after trimming, that is, that hold a character other than white space. *)
Definition sentences (answerText : jsstring) : Z :=
  Z.of_nat (length (filter (fun seg => negb (forallb is_white_space seg))
                      (split_each Fallback.is_terminator [] answerText))).

Definition to_lower (c : code_unit) : code_unit :=
  (if (65 <=? c) && (c <=? 90) then c + 32 else c)%N.

Fixpoint starts_with (needle hay : jsstring) : bool :=
  match needle with
  | [] => true
  | p :: needle' =>
      match hay with
      | [] => false
      | c :: hay' => (p =? c)%N && starts_with needle' hay'
      end
  end.

Fixpoint contains (needle hay : jsstring) : bool :=
  starts_with needle hay
  || match hay with
     | [] => false
     | _ :: hay' => contains needle hay'
     end.

(** A marker is present when the text, in lower case, contains it. *)
Definition has_marker (markers : list jsstring) (answerText : jsstring) : bool :=
  existsb (fun m => contains m (map to_lower answerText)) markers.

(** A literal written without upper-case letters. *)
Definition lower_case (m : jsstring) : bool :=
  forallb (fun p => (to_lower p =? p)%N) m.

Definition has_digit (answerText : jsstring) : bool :=
  existsb (fun c => existsb (N.eqb c) [48; 49; 50; 51; 52; 53; 54; 55; 56; 57]%N)
    answerText.

Definition cap (difficulty : jsstring) : Z :=
  if jsstring_eqb difficulty (lit "Easy") then 95
  else if jsstring_eqb difficulty (lit "Medium") then 90
  else if jsstring_eqb difficulty (lit "Hard") then 85
  else if jsstring_eqb difficulty (lit "Expert") then 80
  else 90.

Definition reference_score (answerText difficulty : jsstring) : Z :=
  let w := words answerText in
  let n := sentences answerText in
  let total :=
    50
    + (if 20 <=? w then 5 else 0) + (if 50 <=? w then 10 else 0)
    + (if 100 <=? w then 5 else 0) + (if 150 <=? w then 5 else 0)
    + (if 2 <=? n then 5 else 0) + (if 4 <=? n then 5 else 0)
    + (if has_digit answerText then 5 else 0)
    + (if has_marker Fallback.specifics_patterns answerText then 5 else 0)
    + (if has_marker Fallback.structure_patterns answerText then 5 else 0) in
  Z.max 30 (Z.min (cap difficulty) total).

(** The pool of an interview type: its own, or the mixed one when the type
    is not one of the four. *)
Definition pool_for (type : jsstring) : list jsstring :=
  if jsstring_eqb type (lit "behavioral") then Fallback.behavioral
  else if jsstring_eqb type (lit "technical") then Fallback.technical
  else if jsstring_eqb type (lit "situational") then Fallback.situational
  else Fallback.mixed.

(** Every occurrence of one of the literals, found from left to right
    ignoring case, is replaced by the text [replacement] itself. *)
Fixpoint substitute_go (literals : list jsstring) (replacement : jsstring)
    (skip : nat) (s : jsstring) : jsstring :=
  match s with
  | [] => []
  | c :: s' =>
      match skip with
      | S k => substitute_go literals replacement k s'
      | O =>
          match match_alt literals s with
          | Some a => replacement ++ substitute_go literals replacement (pred (length a)) s'
          | None => c :: substitute_go literals replacement O s'
          end
      end
  end.

Definition substitute (literals : list jsstring) (replacement s : jsstring)
  : jsstring :=
  substitute_go literals replacement O s.

(** No literal matches at any of the first [k] positions of [s]. *)
Fixpoint unmatched_prefix (literals : list jsstring) (k : nat) (s : jsstring)
  : bool :=
  match k with
  | O => true
  | S k' =>
      match s with
      | [] => true
      | _ :: s' =>
          match match_alt literals s with
          | Some _ => false
          | None => unmatched_prefix literals k' s'
          end
      end
  end.

Definition list_eqb (a b : list jsstring) : bool :=
  if list_eq_dec jsstring_eq_dec a b then true else false.

(** The question [q] of [pool] stays apart from the other questions of the
    pool when its role context is added: it holds none of the literals, or
    its first 15 characters hold none and no other question begins with
    them. *)
Definition keeps_apart (pool : list jsstring) (q : jsstring) : bool :=
  negb (regex_test Fallback.role_patterns q)
  || (unmatched_prefix Fallback.role_patterns 15 q
      && forallb (fun q' => jsstring_eqb q' q
                            || negb (jsstring_eqb (firstn 15 q') (firstn 15 q)))
           pool).

Fixpoint nodupb (l : list jsstring) : bool :=
  match l with
  | [] => true
  | x :: l' => negb (existsb (jsstring_eqb x) l') && nodupb l'
  end.

(** What the four pools have: 15 different questions each, which stay
    different when one of them gets the role context. *)
Definition sound_pool (pool : list jsstring) : Prop :=
  length pool = 15%nat /\ NoDup pool
  /\ forallb (keeps_apart pool) pool = true.

(** A text without a dollar sign. *)
Definition dollar_free (s : jsstring) : bool :=
  forallb (fun c => negb (c =? 36)%N) s.

(** The grade of a score: the first threshold of the table that the score
    reaches, [Poor] below all of them. *)
Definition grade_table : list (Z * jsstring) :=
  [ (85, lit "Excellent"); (70, lit "Good"); (55, lit "Average");
    (40, lit "Needs Improvement") ].

Fixpoint grade_from (table : list (Z * jsstring)) (score : Z) : jsstring :=
  match table with
  | [] => lit "Poor"
  | (threshold, name) :: table' =>
      if Z_le_dec threshold score then name else grade_from table' score
  end.

Definition grade (score : Z) : jsstring := grade_from grade_table score.

(** The difficulties that name a property of [Object.prototype]. *)
Definition names_inherited_property (key : jsstring) : bool :=
  match own_property Object_prototype key with
  | Some _ => true
  | None => false
  end.

(** Rounding to the nearest integer, a half upwards: [a] is the rounded
    value of [total / n]. *)
Definition rounded_mean (total n a : Z) : Prop :=
  2 * n * a - n <= 2 * total < 2 * n * a + n.

Definition clamp (x lo hi : Z) : Z := Z.min hi (Z.max lo x).

(** The scores that the report averages, read off the rows: the score of
    every row that has one other than 0, in the order of the rows. *)
Definition counts (row : Fallback.qa) : bool :=
  match Fallback.qa_score row with
  | Some z => negb (z =? 0)
  | None => false
  end.

Definition score_of (row : Fallback.qa) : Z :=
  match Fallback.qa_score row with
  | Some z => z
  | None => 0
  end.

Definition included_scores (qas : list Fallback.qa) : list Z :=
  map score_of (filter counts qas).

(** A uniform draw among the [2 * range] integers from [- range] to
    [range - 1] out of a real number [r] of the interval from 0 to 1: the
    interval is cut into [2 * range] parts of the same length, and the part
    that holds [r] gives the integer. *)
Definition uniform_offset (range : Z) (r : Q) : Z :=
  Qfloor (2 * inject_Z range * r - inject_Z range).

(** A frame as the list of its pixels: red, green, blue and alpha. *)
Definition pixel := (Z * Z * Z * Z)%type.

(** The bytes of a frame, as [getImageData] lays them out. *)
Definition frame_bytes (pixels : list pixel) : list Z :=
  flat_map (fun p => match p with (r, g, b, a) => [r; g; b; a] end) pixels.

(** Two pixels differ when their three colour values are more than 180 apart
    in sum, which is more than 60 on average. *)
Definition differ (p q : pixel) : bool :=
  match p, q with
  | (r, g, b, _), (r', g', b', _) =>
      180 <? Z.abs (r - r') + Z.abs (g - g') + Z.abs (b - b')
  end.

(** The number of positions at which two frames differ. *)
Definition differing_pixels (cur prev : list pixel) : Z :=
  Z.of_nat (length (filter (fun pq => differ (fst pq) (snd pq)) (combine cur prev))).

End Spec.

(** ** [config/gemini.js] *)

Module Gemini.
Import Js.

Definition MAX_RETRIES : Z := 3.

(** What [response.json()] gives, as far as [callGemini] reads it:
    [data.error?.message] and
    [data.candidates?.[0]?.content?.parts?.[0]?.text]. *)
Record reply := {
  error_message : option jsstring;
  candidate_text : option jsstring
}.

(** A response of [fetch]; [body] is [None] when [response.json()] rejects,
    and when it gives [null]: the first property that [callGemini] reads of
    it, [data.error] or [data.candidates], then throws a [TypeError]. *)
Record response := {
  status : Z;
  body : option reply
}.

(** [response.ok] *)
Definition ok (r : response) : bool := (200 <=? status r) && (status r <=? 299).

(** The errors that leave [callGemini]: its own five, the rejection of
    [fetch], and the error of a reply that cannot be read. *)
Inductive error :=
| KeyNotConfigured
| ApiError (message : jsstring)
| ApiStatus (status : Z)
| EmptyResponse
| RateLimitExceeded
| FetchRejected
| ReplyUnreadable.

Inductive outcome :=
| Text (text : jsstring)
| Throw (e : error).

Inductive effect :=
| Fetch (prompt : jsstring) (temperature : Q)
| Wait (seconds : Z).

(** [!s] for a string that may be undefined *)
Definition blank (s : option jsstring) : bool :=
  match s with
  | Some (_ :: _) => false
  | _ => true
  end.

(** [!apiKey || apiKey === 'your_gemini_api_key_here'] *)
Definition key_missing (apiKey : option jsstring) : bool :=
  blank apiKey
  || match apiKey with
     | Some k => jsstring_eqb k (lit "your_gemini_api_key_here")
     | None => false
     end.

(** [new Error(data.error?.message || `Gemini API error: ${response.status}`)] *)
Definition api_error (r : response) (data : reply) : error :=
  match error_message data with
  | Some (c :: m) => ApiError (c :: m)
  | _ => ApiStatus (status r)
  end.

(** The loop [for (let attempt = 1; attempt <= MAX_RETRIES; attempt++)] from
    the value [attempt] on; [network] gives the response of each call of
    [fetch] ([None] when it rejects) and [calls] counts the calls made.
    [fuel] bounds the number of times the loop condition is tested; when the
    condition fails the statement after the loop throws. *)
Fixpoint attempts (fuel : nat) (attempt : Z) (prompt : jsstring)
    (temperature : Q) (network : nat -> option response) (calls : nat)
  : option (outcome * list effect) :=
  match fuel with
  | O => None
  | S fuel' =>
      if attempt <=? MAX_RETRIES then
        match network calls with
        | None => Some (Throw FetchRejected, [Fetch prompt temperature])
        | Some r =>
            if (status r =? 429) && (attempt <? MAX_RETRIES) then
              match attempts fuel' (attempt + 1) prompt temperature network (S calls) with
              | Some (result, trace) =>
                  Some (result,
                        Fetch prompt temperature :: Wait (2 ^ attempt * 5) :: trace)
              | None => None
              end
            else
              match body r with
              | None => Some (Throw ReplyUnreadable, [Fetch prompt temperature])
              | Some data =>
                  if negb (ok r) then
                    Some (Throw (api_error r data), [Fetch prompt temperature])
                  else
                    match candidate_text data with
                    | Some (c :: text) =>
                        Some (Text (c :: text), [Fetch prompt temperature])
                    | _ => Some (Throw EmptyResponse, [Fetch prompt temperature])
                    end
              end
        end
      else Some (Throw RateLimitExceeded, [])
  end.

Definition callGemini (fuel : nat) (apiKey : option jsstring) (prompt : jsstring)
    (temperature : Q) (network : nat -> option response)
  : option (outcome * list effect) :=
  if key_missing apiKey then Some (Throw KeyNotConfigured, [])
  else attempts fuel 1 prompt temperature network O.

(** The text that [parseGeminiJSON] hands to [JSON.parse]:
    [raw.replace(/```json/gi, '').replace(/```/g, '').trim()] *)
Definition clean (raw : jsstring) : jsstring :=
  trim (replace_all [lit "```"] [] (replace_all [lit "```json"] [] raw)).

(** A text without a backtick. *)
Definition backtick_free (s : jsstring) : bool :=
  forallb (fun c => negb (c =? 96)%N) s.

(** A pattern that begins with a backtick. *)
Definition begins_with_backtick (a : jsstring) : bool :=
  match a with
  | c :: _ => (c =? 96)%N
  | [] => false
  end.

Definition fetches (trace : list effect) : nat :=
  length (filter (fun e => match e with Fetch _ _ => true | Wait _ => false end) trace).

Definition waits (trace : list effect) : list Z :=
  flat_map (fun e => match e with Wait s => [s] | Fetch _ _ => [] end) trace.

End Gemini.

(** ** More of [voicehire-frontend/app.js] *)

Module App.
Import Js.

Definition getScoreColor (score : Z) : jsstring :=
  if 85 <=? score then lit "#10b981"
  else if 70 <=? score then lit "#06b6d4"
  else if 55 <=? score then lit "#f59e0b"
  else lit "#f43f5e".

Definition getScoreClass (score : Z) : jsstring :=
  if 85 <=? score then lit "score-excellent"
  else if 70 <=? score then lit "score-good"
  else if 55 <=? score then lit "score-average"
  else lit "score-poor".

(** *** [resumeInterview] *)

(** A row of [data.questions], as [GET /api/interview/:id] sends it. *)
Record question_view := {
  view_id : Z;
  view_question_index : Z;
  view_question_text : jsstring;
  view_answer_text : option jsstring
}.

(** [!!q.answer_text] *)
Definition answered (q : question_view) : bool :=
  match view_answer_text q with
  | Some (_ :: _) => true
  | _ => false
  end.

(** [questions.findIndex(q => !q.answered)], counted from [from] *)
Fixpoint findIndex_unanswered (questions : list question_view) (from : Z) : Z :=
  match questions with
  | [] => -1
  | q :: questions' =>
      if negb (answered q) then from
      else findIndex_unanswered questions' (from + 1)
  end.

(** The value of [currentQIndex] that [resumeInterview] sets. *)
Definition resumeInterview_index (questions : list question_view) : Z :=
  let found := findIndex_unanswered questions 0 in
  if found =? -1 then Z.of_nat (length questions) - 1 else found.

(** *** The detectors of the proctoring *)

Definition tab_switch_reason : jsstring :=
  lit "You switched away from the interview tab. Please stay focused on this page.".

Definition window_blur_reason : jsstring :=
  lit "You navigated away from the browser window. Please keep this window focused.".

Definition movement_reason : jsstring :=
  lit "Excessive head movement detected. Please face the camera and stay focused on the interview.".

(** [handleVisibilityChange]; [hidden] is [document.hidden]. *)
Definition handleVisibilityChange (hidden : bool) (st : Proctor.state)
  : Proctor.state * list Proctor.output :=
  if negb (Proctor.proctorActive st) then (st, [])
  else if hidden then Proctor.handleProctorViolation tab_switch_reason st
  else (st, []).

(** The callback that [handleWindowBlur] schedules 300 ms after a blur that
    found the proctoring active. *)
Definition windowBlurTimeout (hidden : bool) (st : Proctor.state)
  : Proctor.state * list Proctor.output :=
  if negb (Proctor.proctorActive st) then (st, [])
  else if hidden then (st, [])
  else Proctor.handleProctorViolation window_blur_reason st.

(** In the loop of [detectFaceMovement], the test of one pixel:
    [avgDiff > threshold] with the threshold 60. *)
Definition pixel_changed (r g b r' g' b' : Z) : bool :=
  negb (Qle_bool
          (inject_Z (Z.abs (r - r') + Z.abs (g - g') + Z.abs (b - b')) / 3)
          60).

(** The loop [for (let i = 0; i < currentData.length; i += 4)]: the frames
    are arrays of bytes, four for each pixel.  A channel read beyond the end
    of an array is [undefined], the difference is then [NaN] and the pixel
    does not count. *)
Fixpoint changedPixels (currentData previousFrameData : list Z) : Z :=
  match currentData with
  | r :: g :: b :: rest =>
      (match previousFrameData with
       | r' :: g' :: b' :: _ =>
           if pixel_changed r g b r' g' b' then 1 else 0
       | _ => 0
       end)
      + match rest with
        | [] => 0
        | _ :: currentData' => changedPixels currentData' (skipn 4 previousFrameData)
        end
  | _ => 0
  end.

(** [canvas.width * canvas.height] of the 160 by 120 canvas *)
Definition totalPixels : Z := 160 * 120.

(** [changePercent > 40] *)
Definition moved (currentData previousFrameData : list Z) : bool :=
  negb (Qle_bool
          (inject_Z (changedPixels currentData previousFrameData)
           / inject_Z totalPixels * 100)
          40).

(** [detectFaceMovement] on the frame [currentData] that the canvas gives;
    [ready] tells that the video and the canvas exist and the video has a
    width.  The result is the new [previousFrameData], the policy state and
    what is shown.  The frame is kept before the violation is handled, and a
    violation that ends the interview runs [stopProctoring], which sets
    [previousFrameData] to [null]. *)
Definition detectFaceMovement (ready : bool) (currentData : list Z)
    (previousFrameData : option (list Z)) (st : Proctor.state)
  : option (list Z) * Proctor.state * list Proctor.output :=
  if negb ready then (previousFrameData, st, [])
  else
    match previousFrameData with
    | None => (Some currentData, st, [])
    | Some previous =>
        if moved currentData previous then
          let (st', out) := Proctor.handleProctorViolation movement_reason st in
          (if Proctor.proctorActive st && negb (Proctor.proctorActive st')
           then None else Some currentData,
           st', out)
        else (Some currentData, st, [])
    end.

(** The callback of the interval of [startFaceDetection]; [cameraStream]
    tells that the camera is on. *)
Definition faceDetectionTick (cameraStream ready : bool) (currentData : list Z)
    (previousFrameData : option (list Z)) (st : Proctor.state)
  : option (list Z) * Proctor.state * list Proctor.output :=
  if negb (Proctor.proctorActive st) || negb cameraStream then
    (previousFrameData, st, [])
  else detectFaceMovement ready currentData previousFrameData st.

(** The events of a page that are neither an activation nor the end of a
    cooldown. *)
Definition keeps_cooldown (e : Proctor.event) : bool :=
  match e with
  | Proctor.Start | Proctor.CooldownElapsed => false
  | _ => true
  end.

(** *** [api] and [submitAnswer] *)

(** The [Authorization] header that [api] sets.  [TOKEN] is a string, empty
    when nobody is logged in; [None] is a request without the header. *)
Definition api_authorization (TOKEN : jsstring) : option jsstring :=
  match TOKEN with
  | [] => None
  | _ => Some (lit "Bearer " ++ TOKEN)
  end.

(** The body that [submitAnswer] posts for the question with the id [q_id]
    when the answer box holds [value]; [None] when it shows the toast and
    sends nothing. *)
Definition submitAnswer_body (q_id : Z) (value : jsstring)
  : option InterviewRoute.answer_body :=
  let answerText := trim value in
  if Z.of_nat (length answerText) <? 5 then None
  else Some {| InterviewRoute.questionId := InterviewRoute.JNumber q_id;
               InterviewRoute.answerText := InterviewRoute.JString answerText |}.

End App.

(** * [middleware/auth.js] *)

Module AuthMiddleware.
Import Js.

(** [hay.startsWith(needle)] *)
Fixpoint startsWith (hay needle : jsstring) : bool :=
  match needle with
  | [] => true
  | p :: needle' =>
      match hay with
      | [] => false
      | c :: hay' => (c =? p)%N && startsWith hay' needle'
      end
  end.

(** [s.split(sep)] for a separator of one character; [cur] is the piece
    being read, reversed. *)
Fixpoint split_from (sep : code_unit) (cur s : jsstring) : list jsstring :=
  match s with
  | [] => [rev cur]
  | c :: s' =>
      if (c =? sep)%N then rev cur :: split_from sep [] s'
      else split_from sep (c :: cur) s'
  end.

Definition split (sep : code_unit) (s : jsstring) : list jsstring :=
  split_from sep [] s.

(** The payload of a token, [{ id, email, name }]. *)
Record user := {
  user_id : Z;
  user_email : jsstring;
  user_name : jsstring
}.

(** What [jwt.verify(token, process.env.JWT_SECRET)] does: it returns the
    payload, or throws an error whose name is [TokenExpiredError], or throws
    another error. *)
Inductive verdict :=
| Decoded (payload : user)
| TokenExpiredError
| OtherError.

(** The middleware calls [next()] with [req.user] set, or answers with the
    status 401 and a message. *)
Inductive outcome :=
| Next (req_user : user)
| Status401 (message : jsstring).

Definition no_token_message : jsstring :=
  lit "No token provided. Please login first.".

Definition expired_message : jsstring :=
  lit "Session expired. Please login again.".

Definition invalid_message : jsstring :=
  lit "Invalid token. Please login again.".

(** [authMiddleware]; [authHeader] is [req.headers['authorization']],
    [None] when the request has no such header.  The token is the element 1
    of the split header, [undefined] ([None]) if there is none. *)
Definition authMiddleware (verify : option jsstring -> verdict)
    (authHeader : option jsstring) : outcome :=
  match authHeader with
  | None => Status401 no_token_message
  | Some header =>
      if match header with [] => true | _ => false end
         || negb (startsWith header (lit "Bearer "))
      then Status401 no_token_message
      else
        match verify (nth_error (split 32%N header) 1) with
        | Decoded payload => Next payload
        | TokenExpiredError => Status401 expired_message
        | OtherError => Status401 invalid_message
        end
  end.

(** What the middleware does with the token [token]. *)
Definition verified (verify : option jsstring -> verdict) (token : jsstring)
  : outcome :=
  match verify (Some token) with
  | Decoded payload => Next payload
  | TokenExpiredError => Status401 expired_message
  | OtherError => Status401 invalid_message
  end.

Definition space_free (s : jsstring) : bool :=
  forallb (fun c => negb (c =? 32)%N) s.

End AuthMiddleware.

(** * The responses of a handler *)

Module Handler.

(** The effects of [POST /api/interview/:id/answer] that send a response. *)
Definition responds (e : InterviewRoute.effect) : bool :=
  match e with
  | InterviewRoute.Respond _ _ | InterviewRoute.RespondFeedback _ => true
  | _ => false
  end.

(** [answerText] is a truthy value that is not a string. *)
Definition truthy_not_string (v : InterviewRoute.json) : bool :=
  match v with
  | InterviewRoute.JString _ => false
  | _ => negb (InterviewRoute.falsy v)
  end.

(** The second query is reached: the body is valid and the first query
    found the interview. *)
Definition reaches_question_query (w : InterviewRoute.world)
    (body : InterviewRoute.answer_body) : bool :=
  negb (InterviewRoute.falsy (InterviewRoute.questionId body))
  && match InterviewRoute.answerText body with
     | InterviewRoute.JString text =>
         negb (InterviewRoute.falsy (InterviewRoute.JString text))
         && (5 <=? Z.of_nat (length (Js.trim text)))
         && negb (InterviewRoute.interview_query_throws w)
         && match InterviewRoute.interview_row w with
            | Some _ => true
            | None => false
            end
     | _ => false
     end.

(** The first query is reached: the body is valid. *)
Definition reaches_interview_query (body : InterviewRoute.answer_body) : bool :=
  negb (InterviewRoute.falsy (InterviewRoute.questionId body))
  && match InterviewRoute.answerText body with
     | InterviewRoute.JString text =>
         negb (InterviewRoute.falsy (InterviewRoute.JString text))
         && (5 <=? Z.of_nat (length (Js.trim text)))
     | _ => false
     end.

(** Something throws before the [try] block: the call of [trim] on an
    [answerText] that is not a string, the first query, or the second query,
    which a boolean [questionId] makes throw. *)
Definition throws_before_try (w : InterviewRoute.world)
    (body : InterviewRoute.answer_body) : bool :=
  (negb (InterviewRoute.falsy (InterviewRoute.questionId body))
   && truthy_not_string (InterviewRoute.answerText body))
  || (reaches_interview_query body && InterviewRoute.interview_query_throws w)
  || (reaches_question_query w body
      && (InterviewRoute.unbindable (InterviewRoute.questionId body)
          || InterviewRoute.question_query_throws w)).

Definition rejects (e : InterviewRoute.effect) : bool :=
  match e with
  | InterviewRoute.Reject => true
  | _ => false
  end.

End Handler.

(** * Properties *)

Import Js.

(** ** The embedded code on small inputs *)

Example trim_strips_both_ends :
  trim (lit "  two   words ") = lit "two   words".
Proof. reflexivity. Qed.

Example split_cuts_at_runs :
  split_plus Fallback.is_terminator [] false (lit "Hi! How are you?? Fine.")
  = [lit "Hi"; lit " How are you"; lit " Fine"; lit ""].
Proof. reflexivity. Qed.

Example counts_of_small_answers :
  Fallback.wordCount (lit "   ") = 1
  /\ Fallback.wordCount (lit " two   words ") = 2
  /\ Fallback.sentenceCount (lit "Hi! How are you?? Fine. ") = 3.
Proof. repeat split; reflexivity. Qed.

Example replace_ignores_case :
  replace_all Fallback.role_patterns (Fallback.role_template (lit "Nurse"))
    (lit "Why THIS ROLE, and why this field?")
  = lit "Why the Nurse role, and why the Nurse role?".
Proof. reflexivity. Qed.

Example lookup_follows_the_prototype :
  get Fallback.caps (lit "Hard") = Own 85
  /\ get Fallback.caps (lit "hard") = Absent
  /\ get Fallback.caps (lit "valueOf") = Inherited BuiltinFunction.
Proof. repeat split; reflexivity. Qed.

Example insertion_engine_with_negative_comparator :
  fst (run_sort (insertion_engine 3%nat) (fun _ => 1 # 4) O [1; 2; 3]) = [3; 2; 1].
Proof. reflexivity. Qed.

Example jitter_at_the_ends :
  Fallback.jitter 10 0 = -10 /\ Fallback.jitter 10 below_one = 9
  /\ Fallback.vary below_one 95 10 = 100.
Proof. repeat split; vm_compute; reflexivity. Qed.

(** The literal [0.7] is read as the double nearest to 7/10, which is below
    it; ten times this double is rounded to 7, so that the offset drawn at
    this value of [Math.random] is 4 and not 3.  In the same way the index
    picked among five options at the double [0.6] is 3 and not 2. *)
Example rounding_moves_a_draw :
  is_double (7 # 10) = false
  /\ Qred (binary64 (7 # 10)) = (3152519739159347 # 4503599627370496)%Q
  /\ Fallback.jitter 10 (binary64 (7 # 10)) = 4
  /\ Spec.uniform_offset 10 (binary64 (7 # 10)) = 3
  /\ Fallback.pick_index Fallback.positiveOptions (binary64 (6 # 10)) = 3
  /\ Qfloor (binary64 (6 # 10) * 5) = 2.
Proof. repeat split; vm_compute; reflexivity. Qed.

(** The rounding agrees with the reference model of the Standard Library on
    these operations: 0.7 times 10, 0.6 times 5, a difference that has to
    be rounded, and a product in the subnormal range. *)
Example binary64_agrees_with_SpecFloat :
  let mul x y := SpecFloat.SFmul 53 1024 x y in
  let sub x y := SpecFloat.SFsub 53 1024 x y in
  let d07 := SpecFloat.S754_finite false 6305039478318694 (-53) in
  let d06 := SpecFloat.S754_finite false 5404319552844595 (-53) in
  let ten := SpecFloat.S754_finite false 5 1 in
  let five := SpecFloat.S754_finite false 5 0 in
  let tiny := SpecFloat.S754_finite false 3 (-1074) in
  let half := SpecFloat.S754_finite false 1 (-1) in
  let near_one := SpecFloat.S754_finite false 9007199254740991 (-53) in
  (spec_float_value d07 == binary64 (7 # 10))%Q
  /\ (spec_float_value d06 == binary64 (6 # 10))%Q
  /\ (spec_float_value (mul d07 ten)
      == double_mul (spec_float_value d07) (spec_float_value ten))%Q
  /\ (spec_float_value (mul d06 five)
      == double_mul (spec_float_value d06) (spec_float_value five))%Q
  /\ (spec_float_value (sub near_one ten)
      == double_sub (spec_float_value near_one) (spec_float_value ten))%Q
  /\ (spec_float_value (mul tiny half)
      == double_mul (spec_float_value tiny) (spec_float_value half))%Q
  /\ (spec_float_value near_one == below_one)%Q.
Proof. cbv zeta. repeat split; vm_compute; reflexivity. Qed.

(** Three questions under insertion sort with a fair comparator: of the 8
    equally likely cases, two arrangements get 2 each and four get 1. *)
Example insertion_shuffle_of_three_is_biased :
  map (fun a => Chance.outcomes Chance.Ideal 3%nat (insertion_engine 3%nat)
                  [lit "a"; lit "b"; lit "c"] (Chance.is_arrangement a))
      (Chance.arrangements [lit "a"; lit "b"; lit "c"])
  = [2; 2; 1; 1; 1; 1].
Proof. reflexivity. Qed.

(** ** The grade mapping *)

Lemma interview_scoreToGrade_spec (score : Z) :
  InterviewRoute.scoreToGrade score = Spec.grade score.
Proof.
  unfold InterviewRoute.scoreToGrade, Spec.grade, Spec.grade_table, Spec.grade_from.
  repeat match goal with
         | |- context [Z_le_dec ?a ?b] => destruct (Z_le_dec a b)
         | |- context [?a <=? ?b] => destruct (Z.leb_spec a b)
         end; try reflexivity; lia.
Qed.

(** C4: the three places where a score becomes a grade compute the same
    total function, the threshold table of the specification; the grade of
    a local report is that function of its overall score; and 85, 84, 55 and
    39 give Excellent, Good, Average and Poor. *)
Theorem scoreToGrade_agrees_at_all_call_sites :
  (forall score : Z,
      InterviewRoute.scoreToGrade score = Spec.grade score
      /\ ReportRoute.scoreToGrade score = InterviewRoute.scoreToGrade score
      /\ Fallback.grade_of score = InterviewRoute.scoreToGrade score)
  /\ (forall src iv qas,
        Fallback.grade (Fallback.generateReportLocally src iv qas)
        = InterviewRoute.scoreToGrade
            (Fallback.overallScore (Fallback.generateReportLocally src iv qas)))
  /\ InterviewRoute.scoreToGrade 85 = lit "Excellent"
  /\ InterviewRoute.scoreToGrade 84 = lit "Good"
  /\ InterviewRoute.scoreToGrade 55 = lit "Average"
  /\ InterviewRoute.scoreToGrade 39 = lit "Poor"
  /\ InterviewRoute.scoreToGrade 40 = lit "Needs Improvement".
Proof.
  split; [| split; [| repeat split; reflexivity]].
  - intro score. split; [apply interview_scoreToGrade_spec |].
    split; reflexivity.
  - intros src iv qas. reflexivity.
Qed.

(** ** The proctoring policy *)

Section ProctorInvariant.
Import Proctor.

Lemma proctor_inv_initial : proctor_inv initial.
Proof. unfold proctor_inv, initial; simpl. split; [lia | discriminate]. Qed.

Lemma proctor_inv_step (st : state) (e : event) :
  proctor_inv st -> proctor_inv (fst (step st e)).
Proof.
  destruct st as [w a c]; unfold proctor_inv; simpl; intros [Hw Ha].
  destruct e as [| | reason |]; simpl.
  - unfold startProctoring; simpl. destruct a; simpl; [auto | split; lia].
  - unfold stopProctoring; simpl. destruct a; simpl; [| auto].
    split; [lia | discriminate].
  - unfold handleProctorViolation, MAX_PROCTOR_WARNINGS; simpl.
    destruct a; simpl; [| auto].
    destruct c; simpl; [auto |].
    specialize (Ha eq_refl).
    destruct (Z.leb_spec 3 (w + 1)); simpl.
    + split; [lia | discriminate].
    + split; [lia | intros _; lia].
  - auto.
Qed.

Lemma proctor_inv_run (events : list event) (st : state) :
  proctor_inv st -> proctor_inv (fst (run st events)).
Proof.
  revert st. induction events as [| e events IH]; intros st Hinv; simpl; [exact Hinv |].
  pose proof (proctor_inv_step st e Hinv) as Hstep.
  destruct (step st e) as [st1 out1]; simpl in Hstep.
  specialize (IH st1 Hstep).
  destruct (run st1 events) as [st2 out2]; simpl in *. exact IH.
Qed.

(** The counter is the number of violations processed since the last
    activation. *)
Lemma processed_count_run (events : list event) (st : state) (count : Z) :
  count = proctorWarnings st ->
  processed_since_activation st events count
  = proctorWarnings (fst (run st events)).
Proof.
  revert st count. induction events as [| e events IH]; intros st count Hc; simpl; [exact Hc |].
  rewrite (IH (fst (step st e))).
  - destruct (step st e) as [st1 out1]; simpl.
    destruct (run st1 events) as [st2 out2]; reflexivity.
  - subst count. destruct st as [w a c].
    destruct e as [| | reason |]; simpl; try reflexivity.
    + unfold startProctoring; simpl. destruct a; reflexivity.
    + unfold stopProctoring; simpl. destruct a; reflexivity.
    + unfold handleProctorViolation, MAX_PROCTOR_WARNINGS; simpl.
      destruct a; simpl; [| reflexivity].
      destruct c; simpl; [reflexivity |].
      destruct (3 <=? w + 1); reflexivity.
Qed.

(** What the handler does in a state that satisfies the invariant. *)
Lemma handleProctorViolation_cases (reason : jsstring) (st : state) :
  proctor_inv st ->
  handleProctorViolation reason st
  = if negb (proctorActive st) || proctorCooldown st then (st, [])
    else if proctorWarnings st + 1 <? 3 then
      ({| proctorWarnings := proctorWarnings st + 1;
          proctorActive := true;
          proctorCooldown := true |},
       [ShowProctorWarning reason (proctorWarnings st + 1)])
    else
      ({| proctorWarnings := 3;
          proctorActive := false;
          proctorCooldown := true |},
       [ShowInterviewTerminated reason]).
Proof.
  destruct st as [w a c]; unfold proctor_inv; simpl; intros [Hw Ha].
  unfold handleProctorViolation, MAX_PROCTOR_WARNINGS; simpl.
  destruct a; simpl; [| reflexivity].
  destruct c; simpl; [reflexivity |].
  specialize (Ha eq_refl).
  destruct (Z.leb_spec 3 (w + 1)), (Z.ltb_spec (w + 1) 3); try lia.
  - unfold stopProctoring; simpl. replace (w + 1) with 3 by lia. reflexivity.
  - reflexivity.
Qed.

End ProctorInvariant.

(** C6: in the state reached by any sequence of events of a page, a
    violation is a no-op when the proctoring is not active or the cooldown is
    engaged; otherwise it counts one more warning and engages the cooldown,
    shows the warning with its reason and count while the count is below 3,
    and on the count of exactly 3 shows the termination and deactivates.  The
    counter is the number of violations processed since the last activation
    and never exceeds 3, so no fourth one is processed before the next
    activation, which is possible only once the proctoring is inactive and
    sets the counter to 0 and the cooldown to false. *)
Theorem proctoring_terminates_on_third_violation :
  forall (events : list Proctor.event) (reason : jsstring),
    let st := fst (Proctor.run Proctor.initial events) in
    Proctor.handleProctorViolation reason st
    = (if negb (Proctor.proctorActive st) || Proctor.proctorCooldown st then
         (st, [])
       else if Proctor.proctorWarnings st + 1 <? 3 then
         ({| Proctor.proctorWarnings := Proctor.proctorWarnings st + 1;
             Proctor.proctorActive := true;
             Proctor.proctorCooldown := true |},
          [Proctor.ShowProctorWarning reason (Proctor.proctorWarnings st + 1)])
       else
         ({| Proctor.proctorWarnings := 3;
             Proctor.proctorActive := false;
             Proctor.proctorCooldown := true |},
          [Proctor.ShowInterviewTerminated reason]))
    /\ Proctor.processed_since_activation Proctor.initial events 0
       = Proctor.proctorWarnings st
    /\ 0 <= Proctor.proctorWarnings st <= 3
    /\ Proctor.proctorActive st && (3 <=? Proctor.proctorWarnings st) = false
    /\ Proctor.startProctoring st
       = (if Proctor.proctorActive st then st
          else {| Proctor.proctorWarnings := 0;
                  Proctor.proctorActive := true;
                  Proctor.proctorCooldown := false |}).
Proof.
  intros events reason st.
  assert (Hinv : Proctor.proctor_inv st)
    by (apply proctor_inv_run, proctor_inv_initial).
  split; [apply handleProctorViolation_cases; exact Hinv |].
  split; [apply processed_count_run; reflexivity |].
  destruct Hinv as [Hw Ha].
  split; [exact Hw |].
  split; [| reflexivity].
  destruct (Proctor.proctorActive st); simpl; [| reflexivity].
  specialize (Ha eq_refl). apply Z.leb_gt. exact Ha.
Qed.

(** ** The local report *)

Lemma fold_left_add_acc (scores : list Z) (acc : Z) :
  fold_left Z.add scores acc = acc + fold_right Z.add 0 scores.
Proof.
  revert acc. induction scores as [| z scores IH]; intro acc; simpl; [lia |].
  rewrite IH. lia.
Qed.

Lemma sum_scores_fold_right (scores : list Z) :
  Fallback.sum_scores scores = fold_right Z.add 0 scores.
Proof. unfold Fallback.sum_scores. rewrite fold_left_add_acc. lia. Qed.

(** ** Double-precision arithmetic *)

Ltac qcmp H :=
  match type of H with
  | (_ ?= _)%Q = Eq => apply (proj2 (Qeq_alt _ _)) in H
  | (_ ?= _)%Q = Lt => apply (proj2 (Qlt_alt _ _)) in H
  | (_ ?= _)%Q = Gt => apply (proj2 (Qgt_alt _ _)) in H
  end.

Lemma pow2_pos (e : Z) : (0 < 2 ^ e)%Q.
Proof. apply Qpower_0_lt. reflexivity. Qed.

Lemma pow2_add (a b : Z) : (2 ^ (a + b) == 2 ^ a * 2 ^ b)%Q.
Proof. apply Qpower_plus. discriminate. Qed.

Lemma pow2_le (a b : Z) : a <= b -> (2 ^ a <= 2 ^ b)%Q.
Proof. intro H. apply Qpower_le_compat_l; [exact H | discriminate]. Qed.

Lemma pow2_lt_inv (a b : Z) : (2 ^ a < 2 ^ b)%Q -> a < b.
Proof. intro H. apply (Qpower_lt_compat_l_inv 2); [exact H | reflexivity]. Qed.

Lemma pow2_Z (n : Z) : 0 <= n -> (2 ^ n == inject_Z (2 ^ n))%Q.
Proof. intro H. rewrite Zpower_Qpower by exact H. reflexivity. Qed.

Lemma inject_Z_minus (x y : Z) : (inject_Z (x - y) == inject_Z x - inject_Z y)%Q.
Proof. unfold Qeq, Qminus, Qplus, Qopp, inject_Z; cbn [Qnum Qden]. lia. Qed.

Lemma Qlog2_spec (q : Q) :
  (0 < q)%Q -> (2 ^ Qlog2 q <= q)%Q /\ (q < 2 ^ (Qlog2 q + 1))%Q.
Proof.
  intro Hq. destruct q as [n d].
  assert (Hn : 0 < n) by (unfold Qlt in Hq; simpl in Hq; lia).
  unfold Qlog2. cbn [Qnum Qden].
  set (a := Z.log2 n). set (b := Z.log2 (Z.pos d)).
  assert (Ha0 : 0 <= a) by apply Z.log2_nonneg.
  assert (Hb0 : 0 <= b) by apply Z.log2_nonneg.
  destruct (Z.log2_spec n Hn) as [Ha1 Ha2]. fold a in Ha1, Ha2.
  destruct (Z.log2_spec (Z.pos d) ltac:(lia)) as [Hb1 Hb2]. fold b in Hb1, Hb2.
  assert (Hpa : 0 < 2 ^ a) by (apply Z.pow_pos_nonneg; lia).
  assert (Hpb : 0 < 2 ^ b) by (apply Z.pow_pos_nonneg; lia).
  rewrite Z.pow_succ_r in Ha2, Hb2 by lia.
  assert (Hup : (n # d < 2 ^ (a - b + 1))%Q).
  { replace (a - b + 1) with ((a + 1) - b) by lia.
    rewrite Qpower_minus by discriminate.
    rewrite (pow2_Z (a + 1)), (pow2_Z b) by lia.
    rewrite Z.pow_add_r by lia. change (2 ^ 1) with 2.
    apply Qlt_shift_div_l.
    - change (inject_Z 0 < inject_Z (2 ^ b))%Q. rewrite <- Zlt_Qlt. lia.
    - unfold Qlt, Qmult, inject_Z; cbn [Qnum Qden]. nia. }
  assert (Hlow : (2 ^ (a - b - 1) <= n # d)%Q).
  { replace (a - b - 1) with (a - (b + 1)) by lia.
    rewrite Qpower_minus by discriminate.
    rewrite (pow2_Z a), (pow2_Z (b + 1)) by lia.
    rewrite Z.pow_add_r by lia. change (2 ^ 1) with 2.
    apply Qle_shift_div_r.
    - change (inject_Z 0 < inject_Z (2 ^ b * 2))%Q. rewrite <- Zlt_Qlt. lia.
    - unfold Qle, Qmult, inject_Z; cbn [Qnum Qden]. nia. }
  destruct (Qle_bool (2 ^ (a - b)) (n # d)) eqn:E.
  - apply Qle_bool_iff in E. split; assumption.
  - split; [exact Hlow |].
    replace (a - b - 1 + 1) with (a - b) by lia.
    apply Qnot_le_lt. intro H. apply Qle_bool_iff in H. congruence.
Qed.

Lemma Qlog2_unique (q : Q) (k : Z) :
  (2 ^ k <= q)%Q -> (q < 2 ^ (k + 1))%Q -> Qlog2 q = k.
Proof.
  intros H1 H2.
  assert (Hq : (0 < q)%Q) by (eapply Qlt_le_trans; [apply (pow2_pos k) | exact H1]).
  destruct (Qlog2_spec q Hq) as [H3 H4].
  assert (Qlog2 q < k + 1)
    by (apply pow2_lt_inv; eapply Qle_lt_trans; eassumption).
  assert (k < Qlog2 q + 1)
    by (apply pow2_lt_inv; eapply Qle_lt_trans; eassumption).
  lia.
Qed.

Lemma Qlog2_mono (q q' : Q) : (0 < q)%Q -> (q <= q')%Q -> Qlog2 q <= Qlog2 q'.
Proof.
  intros Hq Hle.
  assert (Hq' : (0 < q')%Q) by (eapply Qlt_le_trans; eassumption).
  destruct (Qlog2_spec q Hq) as [H1 _].
  destruct (Qlog2_spec q' Hq') as [_ H2].
  assert (Qlog2 q < Qlog2 q' + 1).
  { apply pow2_lt_inv. eapply Qle_lt_trans; [exact H1 |].
    eapply Qle_lt_trans; eassumption. }
  lia.
Qed.

Lemma Qlog2_comp (q q' : Q) : (0 < q)%Q -> (q == q')%Q -> Qlog2 q = Qlog2 q'.
Proof.
  intros Hq H. destruct (Qlog2_spec q Hq) as [H1 H2].
  symmetry. apply Qlog2_unique; rewrite <- H; assumption.
Qed.

Lemma round_half_even_range (x : Q) :
  Qfloor x <= round_half_even x <= Qfloor x + 1.
Proof.
  unfold round_half_even.
  destruct (x - inject_Z (Qfloor x) ?= 1 # 2)%Q; [destruct (Z.even (Qfloor x)) | |]; lia.
Qed.

Lemma round_half_even_Z (n : Z) : round_half_even (inject_Z n) = n.
Proof.
  unfold round_half_even. rewrite Qfloor_Z.
  replace (inject_Z n - inject_Z n ?= 1 # 2)%Q with Lt; [reflexivity |].
  symmetry. apply (proj1 (Qlt_alt _ _)). lra.
Qed.

Lemma round_half_even_comp (x y : Q) :
  (x == y)%Q -> round_half_even x = round_half_even y.
Proof.
  intro H. unfold round_half_even.
  rewrite (Qfloor_comp x y H).
  replace (x - inject_Z (Qfloor y) ?= 1 # 2)%Q
    with (y - inject_Z (Qfloor y) ?= 1 # 2)%Q; [reflexivity |].
  apply Qcompare_comp; [rewrite H |]; reflexivity.
Qed.

Lemma round_half_even_ge (x : Q) (n : Z) : (inject_Z n <= x)%Q -> n <= round_half_even x.
Proof.
  intro H. pose proof (round_half_even_range x).
  apply Qfloor_resp_le in H. rewrite Qfloor_Z in H. lia.
Qed.

Lemma round_half_even_le (x : Q) (n : Z) : (x <= inject_Z n)%Q -> round_half_even x <= n.
Proof.
  intro H. pose proof (round_half_even_range x) as Hr.
  pose proof (Qfloor_resp_le _ _ H) as Hf. rewrite Qfloor_Z in Hf.
  destruct (Z.eq_dec (Qfloor x) n) as [E | E]; [| lia].
  unfold round_half_even.
  replace (x - inject_Z (Qfloor x) ?= 1 # 2)%Q with Lt; [lia |].
  symmetry. apply (proj1 (Qlt_alt _ _)). rewrite E. lra.
Qed.

Lemma round_half_even_mono (x y : Q) :
  (x <= y)%Q -> round_half_even x <= round_half_even y.
Proof.
  intro H. pose proof (Qfloor_resp_le _ _ H) as Hf.
  pose proof (round_half_even_range x) as Hx.
  pose proof (round_half_even_range y) as Hy.
  destruct (Z.eq_dec (Qfloor x) (Qfloor y)) as [E | E]; [| lia].
  unfold round_half_even in *. rewrite E in *.
  destruct (x - inject_Z (Qfloor y) ?= 1 # 2)%Q eqn:Cx;
    destruct (y - inject_Z (Qfloor y) ?= 1 # 2)%Q eqn:Cy;
    try lia; qcmp Cx; qcmp Cy; try (exfalso; lra);
    destruct (Z.even (Qfloor y)); lia.
Qed.

Lemma binary64_pos_nonneg (q : Q) : (0 < q)%Q -> (0 <= binary64_pos q)%Q.
Proof.
  intro Hq. unfold binary64_pos.
  set (e := Z.max (Qlog2 q - 52) (-1074)).
  pose proof (pow2_pos e) as He.
  set (p := (2 ^ e)%Q) in *. clearbody p.
  apply Qmult_le_0_compat; [| lra].
  change 0%Q with (inject_Z 0). rewrite <- Zle_Qle.
  apply round_half_even_ge.
  apply Qle_shift_div_l; [exact He |]. change (inject_Z 0) with 0%Q. lra.
Qed.

(** Rounding keeps the order.  Within one binade the rounding of the
    significand does; between two binades the power of two that separates
    them is a double. *)
Lemma binary64_pos_mono (q q' : Q) :
  (0 < q)%Q -> (q <= q')%Q -> (binary64_pos q <= binary64_pos q')%Q.
Proof.
  intros Hq Hle.
  assert (Hq' : (0 < q')%Q) by (eapply Qlt_le_trans; eassumption).
  pose proof (Qlog2_mono q q' Hq Hle) as Hk.
  unfold binary64_pos.
  set (e := Z.max (Qlog2 q - 52) (-1074)).
  set (e' := Z.max (Qlog2 q' - 52) (-1074)).
  assert (Hee : e <= e') by (unfold e, e'; lia).
  pose proof (pow2_pos e) as He. pose proof (pow2_pos e') as He'.
  destruct (Z.eq_dec e e') as [E | E].
  - rewrite <- E. apply Qmult_le_compat_r; [| apply Qlt_le_weak, He].
    rewrite <- Zle_Qle. apply round_half_even_mono.
    apply Qmult_le_compat_r; [exact Hle |].
    apply Qlt_le_weak, Qinv_lt_0_compat, He.
  - set (k' := Qlog2 q').
    assert (He'k : e' = k' - 52) by (unfold e', k' in *; lia).
    assert (Hkk : Qlog2 q + 1 <= k') by (unfold e, e', k' in *; lia).
    destruct (Qlog2_spec q Hq) as [_ Hup].
    destruct (Qlog2_spec q' Hq') as [Hlow _]. fold k' in Hlow.
    apply Qle_trans with (2 ^ k')%Q.
    + assert (Hd : 0 <= k' - e) by lia.
      assert (Hsplit : (2 ^ k' == inject_Z (2 ^ (k' - e)) * 2 ^ e)%Q).
      { rewrite <- pow2_Z by lia. rewrite <- pow2_add.
        replace (k' - e + e) with k' by lia. reflexivity. }
      rewrite Hsplit. apply Qmult_le_compat_r; [| apply Qlt_le_weak, He].
      rewrite <- Zle_Qle. apply round_half_even_le.
      apply Qle_shift_div_r; [exact He |].
      rewrite <- Hsplit. apply Qlt_le_weak.
      eapply Qlt_le_trans; [exact Hup | apply pow2_le; lia].
    + assert (Hsplit : (2 ^ k' == inject_Z (2 ^ 52) * 2 ^ e')%Q).
      { rewrite <- pow2_Z by lia. rewrite <- pow2_add.
        replace (52 + e') with k' by lia. reflexivity. }
      rewrite Hsplit at 1. apply Qmult_le_compat_r; [| apply Qlt_le_weak, He'].
      rewrite <- Zle_Qle. apply round_half_even_ge.
      apply Qle_shift_div_l; [exact He' |].
      rewrite <- Hsplit. exact Hlow.
Qed.

Lemma binary64_mono (q q' : Q) : (q <= q')%Q -> (binary64 q <= binary64 q')%Q.
Proof.
  intro Hle. unfold binary64.
  destruct (q ?= 0)%Q eqn:Cq; destruct (q' ?= 0)%Q eqn:Cq';
    qcmp Cq; qcmp Cq'; try (exfalso; lra).
  - lra.
  - apply binary64_pos_nonneg. exact Cq'.
  - pose proof (binary64_pos_nonneg (- q) ltac:(lra)). lra.
  - pose proof (binary64_pos_mono (- q') (- q) ltac:(lra) ltac:(lra)). lra.
  - pose proof (binary64_pos_nonneg (- q) ltac:(lra)).
    pose proof (binary64_pos_nonneg q' Cq'). lra.
  - apply binary64_pos_mono; assumption.
Qed.

Lemma binary64_pos_comp (q q' : Q) :
  (0 < q)%Q -> (q == q')%Q -> (binary64_pos q == binary64_pos q')%Q.
Proof.
  intros Hq H. unfold binary64_pos.
  rewrite <- (Qlog2_comp q q' Hq H).
  set (e := Z.max (Qlog2 q - 52) (-1074)).
  rewrite (round_half_even_comp (q / 2 ^ e) (q' / 2 ^ e)); [reflexivity |].
  rewrite H. reflexivity.
Qed.

Lemma binary64_comp (q q' : Q) : (q == q')%Q -> (binary64 q == binary64 q')%Q.
Proof.
  intro H. unfold binary64.
  rewrite <- (Qcompare_comp q q' H 0%Q 0%Q (Qeq_refl 0)).
  destruct (q ?= 0)%Q eqn:C; qcmp C.
  - reflexivity.
  - rewrite (binary64_pos_comp (- q) (- q')); [reflexivity | lra | rewrite H; reflexivity].
  - apply binary64_pos_comp; assumption.
Qed.

Lemma binary64_pos_fixed (m e : Z) :
  0 < m < 2 ^ 53 -> -1074 <= e ->
  (binary64_pos (inject_Z m * 2 ^ e) == inject_Z m * 2 ^ e)%Q.
Proof.
  intros Hm He.
  set (q := (inject_Z m * 2 ^ e)%Q).
  pose proof (pow2_pos e) as Hpe.
  assert (Hm0 : (0 < inject_Z m)%Q)
    by (change 0%Q with (inject_Z 0); rewrite <- Zlt_Qlt; lia).
  assert (Hq : (0 < q)%Q) by (unfold q; apply Qmult_lt_0_compat; assumption).
  destruct (Qlog2_spec q Hq) as [Hlow _].
  assert (Hk : Qlog2 q < 53 + e).
  { apply pow2_lt_inv. eapply Qle_lt_trans; [exact Hlow |].
    rewrite pow2_add. unfold q. apply Qmult_lt_compat_r; [exact Hpe |].
    rewrite pow2_Z by lia. rewrite <- Zlt_Qlt. lia. }
  unfold binary64_pos. fold q.
  set (e' := Z.max (Qlog2 q - 52) (-1074)).
  assert (Hd : 0 <= e - e') by (unfold e'; lia).
  pose proof (pow2_pos e') as Hpe'.
  assert (Hsplit : (2 ^ e == inject_Z (2 ^ (e - e')) * 2 ^ e')%Q).
  { rewrite <- pow2_Z by lia. rewrite <- pow2_add.
    replace (e - e' + e') with e by lia. reflexivity. }
  assert (Hquot : (q / 2 ^ e' == inject_Z (m * 2 ^ (e - e')))%Q).
  { unfold q. rewrite Hsplit, inject_Z_mult.
    set (p := (2 ^ e')%Q) in *. clearbody p. field. lra. }
  rewrite (round_half_even_comp _ _ Hquot), round_half_even_Z.
  unfold q. rewrite Hsplit, inject_Z_mult. ring.
Qed.

(** A number [m * 2 ^ e] with a significand below [2 ^ 53] in absolute value
    and an exponent of -1074 or more is a double: rounding leaves it. *)
Lemma binary64_fixed (m e : Z) :
  - 2 ^ 53 < m < 2 ^ 53 -> -1074 <= e ->
  (binary64 (inject_Z m * 2 ^ e) == inject_Z m * 2 ^ e)%Q.
Proof.
  intros Hm He. pose proof (pow2_pos e) as Hpe.
  unfold binary64.
  destruct (inject_Z m * 2 ^ e ?= 0)%Q eqn:C; qcmp C.
  - rewrite C. reflexivity.
  - assert (Hneg : m < 0).
    { destruct (Z.ltb_spec m 0) as [Hlt | Hge]; [exact Hlt | exfalso].
      assert (0 <= inject_Z m)%Q
        by (change 0%Q with (inject_Z 0); rewrite <- Zle_Qle; lia).
      pose proof (Qmult_le_0_compat _ _ H (Qlt_le_weak _ _ Hpe)). lra. }
    rewrite (binary64_pos_comp _ (inject_Z (- m) * 2 ^ e)).
    + rewrite binary64_pos_fixed by lia. rewrite inject_Z_opp. ring.
    + lra.
    + rewrite inject_Z_opp. ring.
  - assert (Hpos : 0 < m).
    { destruct (Z.ltb_spec 0 m) as [Hlt | Hge]; [exact Hlt | exfalso].
      assert (inject_Z m <= 0)%Q
        by (change 0%Q with (inject_Z 0); rewrite <- Zle_Qle; lia).
      assert (0 <= - inject_Z m)%Q by lra.
      pose proof (Qmult_le_0_compat _ _ H0 (Qlt_le_weak _ _ Hpe)).
      set (p := (2 ^ e)%Q) in *. clearbody p.
      assert ((- inject_Z m) * p == - (inject_Z m * p))%Q by ring. lra. }
    apply binary64_pos_fixed; lia.
Qed.

Lemma binary64_Z (n : Z) :
  - 2 ^ 53 < n < 2 ^ 53 -> (binary64 (inject_Z n) == inject_Z n)%Q.
Proof.
  intro H. pose proof (binary64_fixed n 0 H ltac:(lia)) as Hf.
  change (2 ^ 0)%Q with 1%Q in Hf.
  rewrite (binary64_comp (inject_Z n) (inject_Z n * 1)) by ring.
  rewrite Hf. ring.
Qed.

(** No double lies between [below_one] and 1. *)
Lemma double_below_one (r : Q) :
  is_double r = true -> (0 <= r)%Q -> (r < 1)%Q -> (r <= below_one)%Q.
Proof.
  intros Hd H0 H1. apply Qeq_bool_iff in Hd.
  destruct (Qlt_le_dec r (1 # 2)) as [Hsmall | Hbig].
  - apply Qlt_le_weak. eapply Qlt_le_trans; [exact Hsmall |].
    unfold below_one, Qle; simpl; lia.
  - assert (Hr : (0 < r)%Q) by lra.
    assert (Hk : Qlog2 r = -1) by (apply Qlog2_unique; [exact Hbig | exact H1]).
    unfold binary64 in Hd.
    destruct (r ?= 0)%Q eqn:C; qcmp C; try (exfalso; lra).
    unfold binary64_pos in Hd. rewrite Hk in Hd.
    change (Z.max (-1 - 52) (-1074)) with (-53) in Hd.
    set (z := round_half_even (r / 2 ^ (-53))) in *. clearbody z.
    change (2 ^ (-53))%Q with (1 # 2 ^ 53)%Q in Hd.
    assert (Hz : z < 2 ^ 53).
    { apply Z.lt_nge. intro Hge.
      assert (1 <= inject_Z z * (1 # 2 ^ 53))%Q.
      { unfold Qle, Qmult, inject_Z; cbn [Qnum Qden]. lia. }
      lra. }
    rewrite <- Hd. unfold below_one, Qle, Qmult, inject_Z; cbn [Qnum Qden]. lia.
Qed.

Lemma dyadic_half (n : Z) :
  (inject_Z (2 ^ 48 * n - 1) * 2 ^ (-49) == inject_Z n / 2 - (1 # 2 ^ 49))%Q.
Proof.
  change (2 ^ (-49))%Q with (1 # 2 ^ 49)%Q.
  unfold Qeq, Qdiv, Qminus, Qplus, Qmult, Qopp, Qinv, inject_Z; cbn [Qnum Qden].
  change (2 ^ 48) with 281474976710656.
  change (Z.pos (2 ^ 49)) with 562949953421312.
  change (Z.pos (1 * 2 ^ 49)) with 562949953421312.
  change (Z.pos (1 * 2 * 2 ^ 49)) with 1125899906842624.
  change (Z.pos (1 * 2)) with 2. lia.
Qed.

Lemma dyadic_one (n : Z) :
  (inject_Z (2 ^ 48 * n - 1) * 2 ^ (-48) == inject_Z n - (1 # 2 ^ 48))%Q.
Proof.
  change (2 ^ (-48))%Q with (1 # 2 ^ 48)%Q.
  unfold Qeq, Qdiv, Qminus, Qplus, Qmult, Qopp, Qinv, inject_Z; cbn [Qnum Qden].
  change (2 ^ 48) with 281474976710656.
  change (Z.pos (2 ^ 48)) with 281474976710656.
  change (Z.pos (1 * 2 ^ 48)) with 281474976710656. lia.
Qed.

(** [Math.round] of a quotient of integers, in integer arithmetic. *)
Lemma Math_round_quotient (total : Z) (n : positive) :
  Math_round (inject_Z total / inject_Z (Z.pos n))
  = (2 * total + Z.pos n) / (2 * Z.pos n).
Proof.
  unfold Math_round.
  assert (Heq : (inject_Z total / inject_Z (Z.pos n) + (1 # 2)
                 == (2 * total + Z.pos n) # (2 * n))%Q).
  { unfold Qeq, Qdiv, Qmult, Qinv, Qplus, inject_Z; cbn [Qnum Qden]. lia. }
  rewrite Heq. unfold Qfloor. reflexivity.
Qed.

Lemma Math_round_is_rounded_mean (total : Z) (n : positive) :
  Spec.rounded_mean total (Z.pos n)
    (Math_round (inject_Z total / inject_Z (Z.pos n))).
Proof.
  rewrite Math_round_quotient. unfold Spec.rounded_mean.
  pose proof (Z.div_mod (2 * total + Z.pos n) (2 * Z.pos n) ltac:(lia)) as Hdm.
  pose proof (Z.mod_pos_bound (2 * total + Z.pos n) (2 * Z.pos n) ltac:(lia)) as Hb.
  set (a := (2 * total + Z.pos n) / (2 * Z.pos n)) in *.
  nia.
Qed.

(** The scores that the code keeps are the scores of the rows that have one
    other than 0. *)
Lemma truthy_scores_included (qas : list Fallback.qa) :
  Fallback.truthy_scores qas = Spec.included_scores qas.
Proof.
  unfold Spec.included_scores.
  induction qas as [| [question answer [z |]] qas IH]; [reflexivity | |].
  - cbn [Fallback.truthy_scores filter Fallback.qa_score]. rewrite IH.
    unfold Spec.counts; cbn [Fallback.qa_score].
    destruct (z =? 0); reflexivity.
  - cbn [Fallback.truthy_scores filter Fallback.qa_score]. exact IH.
Qed.

(** The quotient is taken exact in [Fallback.avgScore].  The double nearest
    to it is rounded by [Math.round] to the same integer, for up to
    [2 ^ 30] scores of at most [2 ^ 20] in absolute value: a quotient that
    is not a half of an integer is at least [1 / (2 * n)] away from one. *)
Lemma Math_round_of_rounded_quotient (total : Z) (n : positive) :
  Z.abs total <= 2 ^ 20 * Z.pos n -> Z.pos n <= 2 ^ 30 ->
  Math_round (binary64 (inject_Z total / inject_Z (Z.pos n)))
  = Math_round (inject_Z total / inject_Z (Z.pos n)).
Proof.
  intros Htotal Hn.
  pose proof (Math_round_is_rounded_mean total n) as Hmean.
  set (q := (inject_Z total / inject_Z (Z.pos n))%Q) in *.
  set (a := Math_round q) in *. unfold Spec.rounded_mean in Hmean.
  assert (Ha : - 2 ^ 21 < a < 2 ^ 21) by nia.
  assert (Hq : (q == total # n)%Q) by (unfold q; symmetry; apply Qmake_Qdiv).
  assert (Hlow : (inject_Z (2 * a - 1) * 2 ^ (-1) <= binary64 q)%Q).
  { rewrite <- (binary64_fixed (2 * a - 1) (-1)) by lia.
    apply binary64_mono. rewrite Hq.
    change (2 ^ (-1))%Q with (1 # 2)%Q.
    unfold Qle, Qmult, inject_Z; cbn [Qnum Qden]. lia. }
  assert (Hup : (binary64 q <= inject_Z ((2 * a + 1) * 2 ^ 30 - 1) * 2 ^ (-31))%Q).
  { rewrite <- (binary64_fixed ((2 * a + 1) * 2 ^ 30 - 1) (-31)) by lia.
    apply binary64_mono. rewrite Hq.
    change (2 ^ (-31))%Q with (1 # 2 ^ 31)%Q.
    unfold Qle, Qmult, inject_Z; cbn [Qnum Qden].
    change (Z.pos (1 * 2 ^ 31)) with (2 ^ 31). lia. }
  unfold Math_round at 1.
  assert (Hge : a <= Qfloor (binary64 q + (1 # 2))).
  { rewrite <- (Qfloor_Z a). apply Qfloor_resp_le.
    change (2 ^ (-1))%Q with (1 # 2)%Q in Hlow.
    assert (E : (inject_Z (2 * a - 1) * (1 # 2) + (1 # 2) == inject_Z a)%Q).
    { unfold Qeq, Qmult, Qplus, inject_Z; cbn [Qnum Qden]. lia. }
    rewrite <- E. lra. }
  assert (Hlt : Qfloor (binary64 q + (1 # 2)) < a + 1).
  { rewrite Zlt_Qlt.
    apply Qle_lt_trans with (binary64 q + (1 # 2))%Q; [apply Qfloor_le |].
    change (2 ^ (-31))%Q with (1 # 2 ^ 31)%Q in Hup.
    assert (E : (inject_Z ((2 * a + 1) * 2 ^ 30 - 1) * (1 # 2 ^ 31) + (1 # 2)
                 < inject_Z (a + 1))%Q).
    { unfold Qlt, Qmult, Qplus, inject_Z; cbn [Qnum Qden].
      change (Z.pos (1 * 2 ^ 31 * 2)) with (2 ^ 32).
      change (Z.pos (1 * 2 ^ 31)) with (2 ^ 31). lia. }
    lra. }
  lia.
Qed.

(** C7: [generateReportLocally] is a total function: for every collection of
    rows, the empty one included, it returns a report.  Its overall score is
    60 when no row has a score other than 0, and otherwise the mean of these
    scores of the rows, rounded to the nearest integer, a half upwards. *)
Theorem generateReportLocally_overallScore :
  (forall (src : random_source) (iv : Fallback.interview) (qas : list Fallback.qa),
     Fallback.overallScore (Fallback.generateReportLocally src iv []) = 60
     /\ match Spec.included_scores qas with
        | [] =>
            Fallback.overallScore (Fallback.generateReportLocally src iv qas) = 60
        | scores =>
            Spec.rounded_mean (fold_right Z.add 0 scores) (Z.of_nat (length scores))
              (Fallback.overallScore (Fallback.generateReportLocally src iv qas))
        end)
  /\ (forall (src : random_source) (iv : Fallback.interview),
        let row score :=
          {| Fallback.question_text := lit "Q";
             Fallback.answer_text := Some (lit "A");
             Fallback.qa_score := score |} in
        let overall scores :=
          Fallback.overallScore (Fallback.generateReportLocally src iv (map row scores)) in
        overall [Some 55; Some 0; None; Some 90] = 73
        /\ overall [Some 80; Some 81] = 81
        /\ overall [Some 70; Some 71; Some 71] = 71
        /\ overall [Some 100] = 100
        /\ overall [Some 0; None] = 60).
Proof.
  split.
  - intros src iv qas. split; [reflexivity |].
    unfold Fallback.generateReportLocally; cbn [Fallback.overallScore].
    unfold Fallback.avgScore.
    rewrite truthy_scores_included.
    destruct (Spec.included_scores qas) as [| z scores]; [reflexivity |].
    rewrite sum_scores_fold_right.
    generalize (fold_right Z.add 0 (z :: scores)); intro total.
    change (length (z :: scores)) with (S (length scores)).
    cbv iota beta zeta.
    change (Z.of_nat (S (length scores)))
      with (Z.pos (Pos.of_succ_nat (length scores))).
    apply Math_round_is_rounded_mean.
  - intros src iv row overall. repeat split; reflexivity.
Qed.

Lemma truthy_scores_app (a b : list Fallback.qa) :
  Fallback.truthy_scores (a ++ b)
  = Fallback.truthy_scores a ++ Fallback.truthy_scores b.
Proof.
  induction a as [| row a IH]; simpl; [reflexivity |].
  destruct (Fallback.qa_score row) as [z |]; [| exact IH].
  destruct (z =? 0); [exact IH | simpl; rewrite IH; reflexivity].
Qed.

Lemma avgScore_depends_on_truthy_scores (qas qas' : list Fallback.qa) :
  Fallback.truthy_scores qas = Fallback.truthy_scores qas' ->
  Fallback.avgScore qas = Fallback.avgScore qas'.
Proof. unfold Fallback.avgScore. intros ->. reflexivity. Qed.

Lemma truthy_scores_all_zero (rows : list (jsstring * option jsstring)) :
  Fallback.truthy_scores
    (map (fun r => {| Fallback.question_text := fst r;
                      Fallback.answer_text := snd r;
                      Fallback.qa_score := Some 0 |}) rows) = [].
Proof. induction rows as [| r rows IH]; simpl; [reflexivity | exact IH]. Qed.

(** C10: only truthy scores enter the average.  A row whose score is 0, or
    null, changes the overall score no more than if it were not there,
    wherever it stands among the rows; and when every row has the score 0 the
    overall score is the default 60, not 0. *)
Theorem generateReportLocally_leaves_out_falsy_scores :
  forall (src : random_source) (iv : Fallback.interview)
         (before after : list Fallback.qa) (q : jsstring) (a : option jsstring),
    Fallback.overallScore
      (Fallback.generateReportLocally src iv
         (before ++ {| Fallback.question_text := q;
                       Fallback.answer_text := a;
                       Fallback.qa_score := Some 0 |} :: after))
    = Fallback.overallScore (Fallback.generateReportLocally src iv (before ++ after))
    /\ Fallback.overallScore
         (Fallback.generateReportLocally src iv
            (before ++ {| Fallback.question_text := q;
                          Fallback.answer_text := a;
                          Fallback.qa_score := None |} :: after))
       = Fallback.overallScore (Fallback.generateReportLocally src iv (before ++ after))
    /\ forall rows : list (jsstring * option jsstring),
         Fallback.overallScore
           (Fallback.generateReportLocally src iv
              (map (fun r => {| Fallback.question_text := fst r;
                                Fallback.answer_text := snd r;
                                Fallback.qa_score := Some 0 |}) rows)) = 60.
Proof.
  intros src iv before after q a.
  unfold Fallback.generateReportLocally; cbn [Fallback.overallScore].
  split; [| split].
  - apply avgScore_depends_on_truthy_scores.
    rewrite !truthy_scores_app. reflexivity.
  - apply avgScore_depends_on_truthy_scores.
    rewrite !truthy_scores_app. reflexivity.
  - intro rows. unfold Fallback.avgScore.
    rewrite truthy_scores_all_zero. reflexivity.
Qed.

(** ** The offsets of the sub-skill scores *)

Lemma jitter_mono (range : Z) (r r' : Q) :
  0 <= range -> (r <= r')%Q -> Fallback.jitter range r <= Fallback.jitter range r'.
Proof.
  intros HR H. unfold Fallback.jitter, Math_floor, double_sub, double_mul.
  assert (HRq : (0 <= inject_Z range)%Q)
    by (change 0%Q with (inject_Z 0); rewrite <- Zle_Qle; exact HR).
  apply Qfloor_resp_le, binary64_mono.
  apply Qplus_le_compat; [| apply Qle_refl].
  apply binary64_mono.
  apply Qmult_le_compat_r; [| discriminate].
  apply binary64_mono.
  apply Qmult_le_compat_r; assumption.
Qed.

(** The offset drawn by [vary] is an integer from [- range] to [range - 1],
    for the ranges from 8 to 15: the product of the largest double below 1
    and the range is rounded to a double below the range. *)
Lemma jitter_bounds (range : Z) (r : Q) :
  8 <= range <= 15 -> is_double r = true -> (0 <= r)%Q -> (r < 1)%Q ->
  - range <= Fallback.jitter range r <= range - 1.
Proof.
  intros Hrange Hd H0 H1.
  pose proof (double_below_one r Hd H0 H1) as Htop.
  pose proof (jitter_mono range 0 r ltac:(lia) H0) as Hlo.
  pose proof (jitter_mono range r below_one ltac:(lia) Htop) as Hhi.
  assert (Hends : Fallback.jitter range 0 = - range
                  /\ Fallback.jitter range below_one = range - 1).
  { assert (Hcases : range = 8 \/ range = 9 \/ range = 10 \/ range = 11
                     \/ range = 12 \/ range = 13 \/ range = 14 \/ range = 15) by lia.
    repeat (destruct Hcases as [-> | Hcases]); try subst range;
      split; vm_compute; reflexivity. }
  destruct Hends as [E0 E1]. lia.
Qed.

(** From the lower end of the part of the offset [k] on, the code draws [k]
    or more: the ends of the parts are halves of integers after the first
    product, and these are doubles. *)
Lemma jitter_ge (range k : Z) (r : Q) :
  0 < range < 2 ^ 52 -> - 2 ^ 52 < k < 2 ^ 52 ->
  (inject_Z k <= 2 * inject_Z range * r - inject_Z range)%Q ->
  k <= Fallback.jitter range r.
Proof.
  intros HR Hk H. unfold Fallback.jitter, Math_floor, double_sub, double_mul.
  assert (HRq : (0 < inject_Z range)%Q)
    by (change 0%Q with (inject_Z 0); rewrite <- Zlt_Qlt; lia).
  set (R := inject_Z range) in *.
  assert (H1 : (inject_Z (k + range) * 2 ^ (-1) <= binary64 (r * R))%Q).
  { rewrite <- (binary64_fixed (k + range) (-1)) by lia.
    apply binary64_mono. rewrite inject_Z_plus. fold R.
    change (2 ^ (-1))%Q with (1 # 2)%Q. lra. }
  assert (H2 : (inject_Z (k + range) <= binary64 (binary64 (r * R) * 2))%Q).
  { rewrite <- (binary64_Z (k + range)) by lia.
    apply binary64_mono. change (2 ^ (-1))%Q with (1 # 2)%Q in H1. lra. }
  assert (H3 : (inject_Z k <= binary64 (binary64 (binary64 (r * R) * 2) - R))%Q).
  { rewrite <- (binary64_Z k) by lia.
    apply binary64_mono. rewrite inject_Z_plus in H2. fold R in H2. lra. }
  apply Qfloor_resp_le in H3. rewrite Qfloor_Z in H3. exact H3.
Qed.

(** More than [2 ^ -52] below the lower end of the part of the offset [k],
    the code draws less than [k]. *)
Lemma jitter_lt (range k : Z) (r : Q) :
  8 <= range <= 15 -> - range <= k <= range ->
  (2 * inject_Z range * (r + 2 ^ (-52)) - inject_Z range <= inject_Z k)%Q ->
  Fallback.jitter range r < k.
Proof.
  intros HR Hk H. unfold Fallback.jitter, Math_floor, double_sub, double_mul.
  assert (HRq : (8 <= inject_Z range)%Q)
    by (change 8%Q with (inject_Z 8); rewrite <- Zle_Qle; lia).
  change (2 ^ (-52))%Q with (1 # 2 ^ 52)%Q in H.
  set (R := inject_Z range) in *.
  assert (E1 := dyadic_half (k + range)).
  assert (E2 := dyadic_one (k + range)).
  assert (E3 := dyadic_one k).
  rewrite inject_Z_plus in E1, E2. fold R in E1, E2.
  assert (U1 : (1 # 2 ^ 49 == 8 * (1 # 2 ^ 52))%Q) by reflexivity.
  assert (U2 : (1 # 2 ^ 48 == 2 * (1 # 2 ^ 49))%Q) by reflexivity.
  assert (U3 : (0 < 1 # 2 ^ 52)%Q) by reflexivity.
  set (u52 := (1 # 2 ^ 52)%Q) in *. set (u49 := (1 # 2 ^ 49)%Q) in *.
  set (u48 := (1 # 2 ^ 48)%Q) in *.
  assert (H1 : (binary64 (r * R) <= (inject_Z k + R) / 2 - u49)%Q).
  { rewrite <- E1. rewrite <- (binary64_fixed (2 ^ 48 * (k + range) - 1) (-49)) by lia.
    apply binary64_mono. rewrite E1.
    clearbody R u52 u49 u48. nra. }
  assert (H2 : (binary64 (binary64 (r * R) * 2) <= inject_Z k + R - u48)%Q).
  { rewrite <- E2. rewrite <- (binary64_fixed (2 ^ 48 * (k + range) - 1) (-48)) by lia.
    apply binary64_mono. rewrite E2. clearbody R u52 u49 u48. lra. }
  assert (H3 : (binary64 (binary64 (binary64 (r * R) * 2) - R) <= inject_Z k - u48)%Q).
  { rewrite <- E3. rewrite <- (binary64_fixed (2 ^ 48 * k - 1) (-48)) by lia.
    apply binary64_mono. rewrite E3. clearbody R u52 u49 u48. lra. }
  set (c := binary64 (binary64 (binary64 (r * R) * 2) - R)) in *.
  pose proof (Qfloor_le c) as Hf.
  apply Z.lt_nge. intro Hge. rewrite Zle_Qle in Hge.
  clearbody c R u52 u49 u48. lra.
Qed.

Lemma uniform_offset_bounds (range : Z) (r : Q) :
  0 < range -> (0 <= r)%Q -> (r < 1)%Q ->
  - range <= Spec.uniform_offset range r <= range - 1.
Proof.
  intros HR H0 H1. unfold Spec.uniform_offset.
  assert (HRq : (0 < inject_Z range)%Q)
    by (change 0%Q with (inject_Z 0); rewrite <- Zlt_Qlt; lia).
  set (x := (2 * inject_Z range * r - inject_Z range)%Q).
  assert (Hlo : (inject_Z (- range) <= x)%Q).
  { unfold x. rewrite inject_Z_opp.
    set (R := inject_Z range) in *. clearbody R. nra. }
  assert (Hhi : (x < inject_Z range)%Q).
  { unfold x. set (R := inject_Z range) in *. clearbody R. nra. }
  apply Qfloor_resp_le in Hlo. rewrite Qfloor_Z in Hlo.
  pose proof (Qfloor_le x) as Hf.
  assert (Hlt : (inject_Z (Qfloor x) < inject_Z range)%Q) by lra.
  rewrite <- Zlt_Qlt in Hlt. lia.
Qed.

(** The offset of the code against the uniform draw: it is the offset of the
    part that holds the value of [Math.random], or that of the next part
    when the value is within [2 ^ -52] of it. *)
Lemma jitter_near_uniform_offset (range : Z) (r : Q) :
  8 <= range <= 15 -> is_double r = true -> (0 <= r)%Q -> (r < 1)%Q ->
  Spec.uniform_offset range r <= Fallback.jitter range r
  <= Spec.uniform_offset range (r + 2 ^ (-52)).
Proof.
  intros HR Hd H0 H1.
  pose proof (jitter_bounds range r HR Hd H0 H1) as Hb.
  pose proof (uniform_offset_bounds range r ltac:(lia) H0 H1) as Hu.
  split.
  - apply jitter_ge; [lia | lia |]. apply Qfloor_le.
  - set (k := Spec.uniform_offset range (r + 2 ^ (-52))).
    destruct (Z.le_gt_cases range k) as [Hbig | Hsmall]; [lia |].
    assert (Hk : - range <= k).
    { unfold k, Spec.uniform_offset.
      rewrite <- (Qfloor_Z (- range)). apply Qfloor_resp_le.
      rewrite inject_Z_opp.
      assert (HRq : (0 < inject_Z range)%Q)
        by (change 0%Q with (inject_Z 0); rewrite <- Zlt_Qlt; lia).
      assert (Hu52 : (0 < 2 ^ (-52))%Q) by reflexivity.
      set (u := (2 ^ (-52))%Q) in *. set (R := inject_Z range) in *.
      clearbody u R. nra. }
    assert (Hlt : Fallback.jitter range r < k + 1).
    { apply jitter_lt; [exact HR | lia |].
      apply Qlt_le_weak. apply Qlt_floor. }
    lia.
Qed.

(** Each offset from [- range] to [range - 1] has a part of the interval of
    the same length [1 / (2 * range)]: the draw is uniform over these
    [2 * range] integers when [Math.random] is uniform over the interval
    from 0 to 1. *)
Lemma uniform_offset_parts (range : positive) (r : Q) (v : Z) :
  Spec.uniform_offset (Z.pos range) r = v
  <-> ((v + Z.pos range) # (2 * range) <= r
       /\ r < (v + Z.pos range + 1) # (2 * range))%Q.
Proof.
  unfold Spec.uniform_offset.
  set (x := (2 * inject_Z (Z.pos range) * r - inject_Z (Z.pos range))%Q).
  assert (Hlo : forall a : Z,
             (inject_Z a <= x)%Q <-> ((a + Z.pos range) # (2 * range) <= r)%Q).
  { intro a. unfold x.
    destruct r as [n d]. unfold Qle, Qmult, Qminus, Qplus, Qopp, inject_Z;
      cbn [Qnum Qden]. rewrite !Pos2Z.inj_mul. split; nia. }
  assert (Hhi : forall a : Z,
             (x < inject_Z a)%Q <-> (r < (a + Z.pos range) # (2 * range))%Q).
  { intro a. unfold x.
    destruct r as [n d]. unfold Qlt, Qmult, Qminus, Qplus, Qopp, inject_Z;
      cbn [Qnum Qden]. rewrite !Pos2Z.inj_mul. split; nia. }
  split.
  - intros <-. split.
    + apply Hlo. apply Qfloor_le.
    + replace (Qfloor x + Z.pos range + 1) with ((Qfloor x + 1) + Z.pos range) by lia.
      apply Hhi. apply Qlt_floor.
  - intros [H1 H2].
    apply Hlo in H1.
    replace (v + Z.pos range + 1) with ((v + 1) + Z.pos range) in H2 by lia.
    apply Hhi in H2.
    assert (Hge : v <= Qfloor x)
      by (rewrite <- (Qfloor_Z v); apply Qfloor_resp_le; exact H1).
    assert (Hlt : Qfloor x < v + 1).
    { rewrite Zlt_Qlt. apply Qle_lt_trans with x; [apply Qfloor_le | exact H2]. }
    lia.
Qed.

(** C8, as the code has it: each of the five sub-skill scores is the overall
    score plus an integer offset, clamped to the range from 0 to 100.  The
    offset is [Math.floor(Math.random() * range * 2 - range)], with the range
    10 for communication, relevance and structure, 8 for confidence and 12
    for depth.  It is an integer from [- range] up to [range - 1]: the
    offset of a uniform draw among these [2 * range] integers at the value
    of [Math.random], or at a value within [2 ^ -52] above it, where the
    rounding of the product moves a value that is next to the end of its
    part into the next part.  The parts of the uniform draw have the same
    length [1 / (2 * range)].  Whatever is drawn, each score lies between 0
    and 100. *)
Theorem sub_skill_scores_are_clamped_offsets :
  forall (src : random_source) (iv : Fallback.interview) (qas : list Fallback.qa),
    valid_source src ->
    let report := Fallback.generateReportLocally src iv qas in
    let avg := Fallback.overallScore report in
    let skill (value range : Z) (r : Q) :=
      exists j : Z,
        value = Spec.clamp (avg + j) 0 100
        /\ - range <= j <= range - 1
        /\ Spec.uniform_offset range r <= j
           <= Spec.uniform_offset range (r + 2 ^ (-52))
        /\ 0 <= value <= 100 in
    skill (Fallback.communication report) 10 (src 0%nat)
    /\ skill (Fallback.relevance report) 10 (src 1%nat)
    /\ skill (Fallback.confidence report) 8 (src 2%nat)
    /\ skill (Fallback.structure report) 10 (src 3%nat)
    /\ skill (Fallback.depth report) 12 (src 4%nat)
    /\ (forall (range : positive) (r : Q) (v : Z),
          Spec.uniform_offset (Z.pos range) r = v
          <-> ((v + Z.pos range) # (2 * range) <= r
               /\ r < (v + Z.pos range + 1) # (2 * range))%Q).
Proof.
  intros src iv qas Hsrc report avg skill.
  assert (Hparts := uniform_offset_parts).
  assert (Hskill : forall i range, 8 <= range <= 15 ->
            skill (Fallback.vary (src i) avg range) range (src i)).
  { intros i range Hrange. unfold skill.
    destruct (Hsrc i) as [Hd [H0 H1]].
    exists (Fallback.jitter range (src i)).
    pose proof (jitter_bounds range (src i) Hrange Hd H0 H1) as Hj.
    pose proof (jitter_near_uniform_offset range (src i) Hrange Hd H0 H1) as Hu.
    unfold Fallback.vary, Spec.clamp.
    split; [reflexivity |]. split; [exact Hj |]. split; [exact Hu | lia]. }
  split; [apply Hskill; lia |]. split; [apply Hskill; lia |].
  split; [apply Hskill; lia |]. split; [apply Hskill; lia |].
  split; [apply Hskill; lia | exact Hparts].
Qed.

Lemma sub_skill_scores_are_clamped_offsets_witness :
  valid_source (fun _ => 1 # 8)
  /\ exists j : Z,
       Fallback.communication
         (Fallback.generateReportLocally (fun _ => 1 # 8)
            {| Fallback.job_role := lit "Nurse";
               Fallback.interview_type := lit "technical";
               Fallback.interview_difficulty := lit "Hard" |}
            [ {| Fallback.question_text := lit "Q";
                 Fallback.answer_text := Some (lit "A");
                 Fallback.qa_score := Some 70 |} ])
       = Spec.clamp (70 + j) 0 100
       /\ -8 <= j <= -8.
Proof.
  assert (Hsrc : valid_source (fun _ => 1 # 8)).
  { intro i. split; [vm_compute; reflexivity |].
    split; unfold Qle, Qlt; simpl; lia. }
  split; [exact Hsrc |].
  destruct (proj1 (sub_skill_scores_are_clamped_offsets (fun _ => 1 # 8)
             {| Fallback.job_role := lit "Nurse";
                Fallback.interview_type := lit "technical";
                Fallback.interview_difficulty := lit "Hard" |}
             [ {| Fallback.question_text := lit "Q";
                  Fallback.answer_text := Some (lit "A");
                  Fallback.qa_score := Some 70 |} ] Hsrc))
    as [j [Hv [_ [Hu _]]]].
  exists j. split; [exact Hv | exact Hu].
Defined.

(** C8, as the specification has it, fails at the upper end: the offset
    [+ range] is never drawn.  With one answer of score 50 the overall score
    is 50, and no value of [Math.random] makes the communication score 60. *)
Lemma sub_skill_never_adds_its_range :
  ~ exists src : random_source,
      valid_source src
      /\ Fallback.communication
           (Fallback.generateReportLocally src
              {| Fallback.job_role := lit "Nurse";
                 Fallback.interview_type := lit "technical";
                 Fallback.interview_difficulty := lit "Hard" |}
              [ {| Fallback.question_text := lit "Q";
                   Fallback.answer_text := Some (lit "A");
                   Fallback.qa_score := Some 50 |} ])
         = Spec.clamp (50 + 10) 0 100.
Proof.
  intros [src [Hsrc H]].
  destruct (Hsrc O) as [Hd [H0 H1]].
  pose proof (jitter_bounds 10 (src O) ltac:(lia) Hd H0 H1) as Hj.
  unfold Fallback.generateReportLocally in H; cbn [Fallback.communication] in H.
  change (Fallback.avgScore _) with 50 in H.
  unfold Fallback.vary, Spec.clamp in H. lia.
Qed.

(** ** The answer route *)

(** C9: when the question id is missing (or otherwise falsy), or the answer
    text is shorter than 5 characters after trimming, the handler answers
    with status 400 and the validation message and does nothing else: no
    query, no call of Gemini, no local evaluation and no insertion. *)
Theorem post_answer_rejects_invalid_body_first :
  forall (w : InterviewRoute.world) (body : InterviewRoute.answer_body),
    InterviewRoute.falsy (InterviewRoute.questionId body) = true
    \/ (exists text,
          InterviewRoute.answerText body = InterviewRoute.JString text
          /\ Z.of_nat (length (trim text)) < 5) ->
    InterviewRoute.post_answer w body
    = [InterviewRoute.Respond 400 InterviewRoute.validation_message]
    /\ existsb InterviewRoute.evaluates_or_writes (InterviewRoute.post_answer w body)
       = false.
Proof.
  intros w body H.
  assert (Hr : InterviewRoute.post_answer w body
               = [InterviewRoute.Respond 400 InterviewRoute.validation_message]).
  { unfold InterviewRoute.post_answer.
    destruct H as [Hq | [text [Ha Hlen]]].
    - rewrite Hq. reflexivity.
    - rewrite Ha.
      destruct (InterviewRoute.falsy (InterviewRoute.questionId body)
                || InterviewRoute.falsy (InterviewRoute.JString text)); [reflexivity |].
      apply Z.ltb_lt in Hlen. rewrite Hlen. reflexivity. }
  rewrite Hr. split; reflexivity.
Qed.

Lemma post_answer_rejects_invalid_body_first_witness :
  InterviewRoute.post_answer
    {| InterviewRoute.interview_row := None;
       InterviewRoute.question_row := None;
       InterviewRoute.gemini_feedback := None;
       InterviewRoute.insert_succeeds := true;
       InterviewRoute.random := fun _ => 0%Q;
       InterviewRoute.interview_query_throws := false;
       InterviewRoute.question_query_throws := false;
       InterviewRoute.gemini_unusable := false |}
    {| InterviewRoute.questionId := InterviewRoute.JNumber 7;
       InterviewRoute.answerText := InterviewRoute.JString (lit "  ok   ") |}
  = [InterviewRoute.Respond 400 InterviewRoute.validation_message].
Proof.
  refine (proj1 (post_answer_rejects_invalid_body_first _ _ _)).
  right. exists (lit "  ok   "). split; [reflexivity | vm_compute; reflexivity].
Defined.

(** ** The local answer evaluator *)

Section WordsAndSentences.
Import Spec.

Lemma split_plus_length (sep : code_unit -> bool) (s cur : jsstring) (in_run : bool) :
  length (split_plus sep cur in_run s) = S (count_runs sep in_run s).
Proof.
  revert cur in_run. induction s as [| c s IH]; intros cur in_run; simpl; [reflexivity |].
  destruct (sep c).
  - destruct in_run; simpl; rewrite IH; reflexivity.
  - apply IH.
Qed.

Lemma not_white_space_eq (c : code_unit) :
  not_white_space c = negb (is_white_space c).
Proof. reflexivity. Qed.

(** Words and gaps alternate. *)
Lemma runs_alternate (s : jsstring) (b : bool) :
  (count_runs not_white_space b s + Nat.b2n b
   = count_runs is_white_space (negb b) s
     + Nat.b2n (ends_inside not_white_space b s))%nat.
Proof.
  revert b. induction s as [| c s IH]; intro b; simpl.
  - destruct b; reflexivity.
  - rewrite !not_white_space_eq. destruct (is_white_space c); simpl.
    + specialize (IH false); simpl in IH. destruct b; simpl; lia.
    + specialize (IH true); simpl in IH. destruct b; simpl; lia.
Qed.

Lemma words_trimStart (s : jsstring) :
  count_runs not_white_space false (trimStart s)
  = count_runs not_white_space false s.
Proof.
  induction s as [| c s IH]; [reflexivity |].
  simpl. rewrite not_white_space_eq.
  destruct (is_white_space c) eqn:E; simpl; [exact IH |].
  rewrite not_white_space_eq, E. reflexivity.
Qed.

Lemma count_runs_cons (p : code_unit -> bool) (b : bool) (c : code_unit) (s : jsstring) :
  count_runs p b (c :: s)
  = if p c then ((if b then O else 1%nat) + count_runs p true s)%nat
    else count_runs p false s.
Proof. reflexivity. Qed.

Lemma words_trimEnd (s : jsstring) (b : bool) :
  count_runs not_white_space b (trimEnd s) = count_runs not_white_space b s.
Proof.
  revert b. induction s as [| c s IH]; intro b; [reflexivity |].
  rewrite (count_runs_cons _ b c s).
  simpl trimEnd. destruct (trimEnd s) as [| d t] eqn:E.
  - rewrite <- !IH. rewrite not_white_space_eq.
    destruct (is_white_space c) eqn:Ec; simpl; [reflexivity |].
    rewrite not_white_space_eq, Ec. reflexivity.
  - rewrite count_runs_cons, !IH. reflexivity.
Qed.

Lemma trimEnd_ends_inside (s : jsstring) (b : bool) :
  trimEnd s <> [] -> ends_inside not_white_space b (trimEnd s) = true.
Proof.
  revert b. induction s as [| c s IH]; intros b H; [contradiction H; reflexivity |].
  simpl trimEnd in *. destruct (trimEnd s) as [| d t] eqn:E.
  - destruct (is_white_space c) eqn:Ec; [contradiction H; reflexivity |].
    simpl. rewrite not_white_space_eq, Ec. reflexivity.
  - change (ends_inside not_white_space b (c :: d :: t))
      with (ends_inside not_white_space (not_white_space c) (d :: t)).
    apply IH. discriminate.
Qed.

Lemma trimStart_head (s t : jsstring) (c : code_unit) :
  trimStart s = c :: t -> is_white_space c = false.
Proof.
  induction s as [| d s IH]; simpl; [discriminate |].
  destruct (is_white_space d) eqn:E; [exact IH |].
  intros [= <- _]. exact E.
Qed.

Lemma trimEnd_head (s : jsstring) (c : code_unit) :
  is_white_space c = false -> exists t, trimEnd (c :: s) = c :: t.
Proof.
  intro E. simpl. destruct (trimEnd s) as [| d t].
  - rewrite E. exists []. reflexivity.
  - exists (d :: t). reflexivity.
Qed.

(** The code counts the words of the text, and one word when there is none. *)
Lemma wordCount_words (answerText : jsstring) :
  Fallback.wordCount answerText = Z.max 1 (words answerText).
Proof.
  unfold Fallback.wordCount, words, trim.
  rewrite <- (words_trimStart answerText).
  rewrite <- (words_trimEnd (trimStart answerText) false).
  rewrite split_plus_length.
  destruct (trimStart answerText) as [| c s] eqn:Es.
  - reflexivity.
  - pose proof (trimStart_head _ _ _ Es) as Ec.
    destruct (trimEnd_head s c Ec) as [t Et].
    pose proof (runs_alternate (trimEnd (c :: s)) false) as Halt.
    rewrite trimEnd_ends_inside in Halt by (rewrite Et; discriminate).
    simpl Nat.b2n in Halt. simpl negb in Halt.
    assert (Hgap : count_runs is_white_space true (trimEnd (c :: s))
                   = count_runs is_white_space false (trimEnd (c :: s))).
    { rewrite Et. simpl. rewrite Ec. reflexivity. }
    rewrite Hgap in Halt. lia.
Qed.

Lemma trimEnd_nil_iff (s : jsstring) :
  trimEnd s = [] <-> forallb is_white_space s = true.
Proof.
  induction s as [| c s IH]; simpl; [tauto |].
  destruct (trimEnd s) as [| d t].
  - destruct (is_white_space c); simpl.
    + split; intros _; [apply IH |]; reflexivity.
    + split; discriminate.
  - split; [discriminate |].
    intro H. apply andb_true_iff in H. destruct H as [_ H].
    apply IH in H. discriminate.
Qed.

Lemma nonblank_has_other_character (seg : jsstring) :
  Fallback.nonblank seg = negb (forallb is_white_space seg).
Proof.
  unfold Fallback.nonblank, trim.
  induction seg as [| c seg IH]; [reflexivity |].
  simpl trimStart. destruct (is_white_space c) eqn:E.
  - simpl forallb. rewrite E. exact IH.
  - simpl forallb. rewrite E.
    destruct (trimEnd_head seg c E) as [t ->]. reflexivity.
Qed.

Lemma filter_split_plus (f : jsstring -> bool) (sep : code_unit -> bool) (s : jsstring) :
  f [] = false ->
  (forall cur, filter f (split_plus sep cur false s) = filter f (split_each sep cur s))
  /\ filter f (split_plus sep [] true s) = filter f (split_each sep [] s).
Proof.
  intro Hf. induction s as [| c s [IH1 IH2]]; simpl.
  - split; reflexivity.
  - destruct (sep c).
    + split.
      * intro cur. simpl. rewrite IH2. reflexivity.
      * simpl. rewrite Hf. exact IH2.
    + split; [intro cur |]; apply IH1.
Qed.

Lemma sentenceCount_sentences (answerText : jsstring) :
  Fallback.sentenceCount answerText = sentences answerText.
Proof.
  unfold Fallback.sentenceCount, sentences.
  rewrite (filter_ext _ _ nonblank_has_other_character).
  destruct (filter_split_plus (fun seg => negb (forallb is_white_space seg))
              Fallback.is_terminator answerText eq_refl) as [H _].
  rewrite H. reflexivity.
Qed.

End WordsAndSentences.

Section Markers.
Import Spec.

Lemma is_digit_one_of_ten (c : code_unit) :
  is_digit c = existsb (N.eqb c) [48; 49; 50; 51; 52; 53; 54; 55; 56; 57]%N.
Proof.
  unfold is_digit; simpl.
  repeat match goal with
         | |- context [(?a =? ?b)%N] => destruct (N.eqb_spec a b)
         | |- context [(?a <=? ?b)%N] => destruct (N.leb_spec a b)
         end; simpl; try reflexivity; lia.
Qed.

Lemma hasNumbers_has_digit (answerText : jsstring) :
  Fallback.hasNumbers answerText = has_digit answerText.
Proof.
  unfold Fallback.hasNumbers, has_digit.
  induction answerText as [| c s IH]; simpl existsb at 1; [reflexivity |].
  rewrite IH, is_digit_one_of_ten. reflexivity.
Qed.

(** Against a pattern character that is not an upper-case letter, folding
    the case of both sides is comparing with the lower-cased text. *)
Lemma ci_char_lower (p c : code_unit) :
  (to_lower p =? p)%N = true -> ci_char p c = (p =? to_lower c)%N.
Proof.
  unfold ci_char, canonicalize, to_lower. intro H.
  repeat match goal with
         | H : context [(?a =? ?b)%N] |- _ => destruct (N.eqb_spec a b)
         | H : context [(?a <=? ?b)%N] |- _ => destruct (N.leb_spec a b)
         | |- context [(?a =? ?b)%N] => destruct (N.eqb_spec a b)
         | |- context [(?a <=? ?b)%N] => destruct (N.leb_spec a b)
         end; simpl in *; try reflexivity; try discriminate; lia.
Qed.

Lemma ci_prefix_starts_with (m s : jsstring) :
  lower_case m = true -> ci_prefix m s = starts_with m (map to_lower s).
Proof.
  unfold lower_case. revert s.
  induction m as [| p m IH]; intros s H; [reflexivity |].
  simpl in H. apply andb_true_iff in H. destruct H as [Hp Hm].
  destruct s as [| c s]; [reflexivity |].
  simpl. rewrite (ci_char_lower p c Hp), (IH s Hm). reflexivity.
Qed.

Lemma match_alt_some (alts : list jsstring) (s : jsstring) :
  match match_alt alts s with Some _ => true | None => false end
  = existsb (fun m => ci_prefix m s) alts.
Proof.
  induction alts as [| a alts IH]; simpl; [reflexivity |].
  destruct (ci_prefix a s); [reflexivity | exact IH].
Qed.

Lemma existsb_orb {A} (f g : A -> bool) (l : list A) :
  existsb (fun x => f x || g x) l = existsb f l || existsb g l.
Proof.
  induction l as [| x l IH]; simpl; [reflexivity |].
  rewrite IH. destruct (f x), (g x), (existsb f l); reflexivity.
Qed.

Lemma existsb_pointwise {A} (f g : A -> bool) (l : list A) :
  (forall x, f x = g x) -> existsb f l = existsb g l.
Proof.
  intro H. induction l as [| x l IH]; simpl; [reflexivity |].
  rewrite H, IH. reflexivity.
Qed.

Lemma existsb_never {A} (l : list A) : existsb (fun _ => false) l = false.
Proof. induction l as [| x l IH]; simpl; [reflexivity | exact IH]. Qed.

Lemma regex_test_step (alts : list jsstring) (s : jsstring) :
  regex_test alts s
  = existsb (fun m => ci_prefix m s) alts
    || match s with
       | [] => false
       | _ :: s' => regex_test alts s'
       end.
Proof.
  rewrite <- match_alt_some.
  destruct s as [| c s]; simpl; destruct (match_alt alts _); reflexivity.
Qed.

Lemma existsb_ci_prefix (alts : list jsstring) (t : jsstring) :
  forallb lower_case alts = true ->
  existsb (fun m => ci_prefix m t) alts
  = existsb (fun m => starts_with m (map to_lower t)) alts.
Proof.
  induction alts as [| a alts IH]; intro Hl; [reflexivity |].
  simpl in Hl. apply andb_true_iff in Hl. destruct Hl as [Ha Hl].
  simpl. rewrite (ci_prefix_starts_with a t Ha), (IH Hl). reflexivity.
Qed.

(** The alternation matches somewhere exactly when the lower-cased text
    contains one of the markers. *)
Lemma regex_test_has_marker (alts : list jsstring) (s : jsstring) :
  forallb lower_case alts = true ->
  regex_test alts s = has_marker alts s.
Proof.
  intro Hl. unfold has_marker.
  induction s as [| c s IH]; rewrite regex_test_step, (existsb_ci_prefix _ _ Hl).
  - rewrite orb_false_r.
    rewrite (existsb_pointwise (fun m => contains m (map to_lower []))
               (fun m => starts_with m [] || false)) by reflexivity.
    rewrite existsb_orb, existsb_never, orb_false_r. reflexivity.
  - rewrite IH, <- existsb_orb.
    apply existsb_pointwise. intro m. reflexivity.
Qed.

Lemma hasSpecifics_has_marker (answerText : jsstring) :
  Fallback.hasSpecifics answerText
  = has_marker Fallback.specifics_patterns answerText.
Proof. apply regex_test_has_marker. vm_compute. reflexivity. Qed.

Lemma hasStructure_has_marker (answerText : jsstring) :
  Fallback.hasStructure answerText
  = has_marker Fallback.structure_patterns answerText.
Proof. apply regex_test_has_marker. vm_compute. reflexivity. Qed.

End Markers.

Lemma jsstring_eqb_sym (a b : jsstring) : jsstring_eqb a b = jsstring_eqb b a.
Proof.
  unfold jsstring_eqb.
  destruct (jsstring_eq_dec a b), (jsstring_eq_dec b a); congruence.
Qed.

Lemma jsstring_eqb_eq (a b : jsstring) : jsstring_eqb a b = true <-> a = b.
Proof.
  unfold jsstring_eqb. destruct (jsstring_eq_dec a b); split; congruence.
Qed.

(** A difficulty that names no property of [Object.prototype] gets its own
    cap, or 90 when it is not one of the four. *)
Lemma cap_operand_cap (difficulty : jsstring) :
  Spec.names_inherited_property difficulty = false ->
  Fallback.cap_operand difficulty = Num (Spec.cap difficulty).
Proof.
  unfold Spec.names_inherited_property, Fallback.cap_operand, get, Spec.cap.
  intro H. destruct (own_property Object_prototype difficulty); [discriminate |].
  unfold Fallback.caps. cbn [own_property].
  rewrite !(jsstring_eqb_sym difficulty).
  repeat match goal with
         | |- context [jsstring_eqb ?a difficulty] =>
             destruct (jsstring_eqb a difficulty)
         end; reflexivity.
Qed.

Lemma cap_at_least_80 (difficulty : jsstring) : 80 <= Spec.cap difficulty <= 95.
Proof.
  unfold Spec.cap.
  repeat match goal with
         | |- context [jsstring_eqb ?a ?b] => destruct (jsstring_eqb a b)
         end; lia.
Qed.

(** A key that names a property of [Object.prototype] is none of the keys
    of the two tables of the module. *)
Lemma inherited_name_not_own (key : jsstring) :
  Spec.names_inherited_property key = true ->
  own_property Fallback.caps key = None
  /\ own_property Fallback.QUESTIONS key = None.
Proof.
  unfold Spec.names_inherited_property, Object_prototype. cbn [own_property].
  repeat match goal with
         | |- context [jsstring_eqb ?a key] =>
             let E := fresh "E" in
             destruct (jsstring_eqb a key) eqn:E;
             [apply jsstring_eqb_eq in E; subst key; intros _; split; reflexivity |]
         end.
  discriminate.
Qed.

(** The score is [NaN] exactly at the difficulties that name a property of
    [Object.prototype]. *)
Lemma evaluateAnswerLocally_score_NaN_iff
    (src : random_source) (questionText answerText difficulty : jsstring) :
  Fallback.score (Fallback.evaluateAnswerLocally src questionText answerText difficulty)
  = NaN
  <-> Spec.names_inherited_property difficulty = true.
Proof.
  unfold Fallback.evaluateAnswerLocally; cbn [Fallback.score].
  unfold Fallback.capped_score.
  destruct (Spec.names_inherited_property difficulty) eqn:E.
  - split; [reflexivity | intros _].
    destruct (inherited_name_not_own difficulty E) as [Hcaps _].
    unfold Fallback.cap_operand, get. rewrite Hcaps.
    unfold Spec.names_inherited_property in E.
    destruct (own_property Object_prototype difficulty); [reflexivity | discriminate].
  - rewrite (cap_operand_cap difficulty E). cbn [Math_min Math_max].
    split; discriminate.
Qed.

(** For every answer and every difficulty that names no property of
    [Object.prototype], the score is the reference score of the
    specification, and it lies between the floor 30 and the cap. *)
Theorem evaluateAnswerLocally_score_is_reference :
  forall (src : random_source) (questionText answerText difficulty : jsstring),
    Spec.names_inherited_property difficulty = false ->
    Fallback.score (Fallback.evaluateAnswerLocally src questionText answerText difficulty)
    = Num (Spec.reference_score answerText difficulty)
    /\ 30 <= Spec.reference_score answerText difficulty <= Spec.cap difficulty.
Proof.
  intros src questionText answerText difficulty H.
  pose proof (cap_at_least_80 difficulty) as Hcap.
  split; [| unfold Spec.reference_score; cbv zeta; lia].
  unfold Fallback.evaluateAnswerLocally; cbn [Fallback.score].
  unfold Fallback.capped_score. rewrite (cap_operand_cap difficulty H).
  cbn [Math_min Math_max]. f_equal.
  rewrite Z.max_comm, Z.min_comm.
  unfold Spec.reference_score. cbv zeta. f_equal. f_equal.
  unfold Fallback.raw_score, Fallback.bonus.
  rewrite wordCount_words, sentenceCount_sentences, hasNumbers_has_digit,
    hasSpecifics_has_marker, hasStructure_has_marker.
  set (w := Spec.words answerText).
  repeat match goal with
         | |- context [?a <=? Z.max 1 w] => destruct (Z.leb_spec a (Z.max 1 w))
         | |- context [?a <=? w] => destruct (Z.leb_spec a w)
         end; try lia; reflexivity.
Qed.

Lemma evaluateAnswerLocally_score_is_reference_witness :
  Fallback.score
    (Fallback.evaluateAnswerLocally (fun _ => 0%Q) (lit "Q")
       (lit "I improved throughput by 30% using caching, for example reducing latency.")
       (lit "Medium"))
  = Num 60.
Proof.
  refine (eq_trans (proj1 (evaluateAnswerLocally_score_is_reference _ _ _ _ _)) _);
    vm_compute; reflexivity.
Defined.

(** Two calls with the same answer and difficulty give the same score,
    whatever [Math.random] returns and whatever the question is. *)
Lemma evaluateAnswerLocally_score_deterministic
    (src src' : random_source) (q q' answerText difficulty : jsstring) :
  Fallback.score (Fallback.evaluateAnswerLocally src q answerText difficulty)
  = Fallback.score (Fallback.evaluateAnswerLocally src' q' answerText difficulty).
Proof. reflexivity. Qed.

(** C1, at the difficulty "constructor": [caps[difficulty]] finds the
    inherited [Object.prototype.constructor], a function, which is truthy, so
    the default 90 is not taken; [Math.min] converts the function to [NaN]
    and the score is [NaN] for every answer: it is not within the range from
    30 to 90 that the specification gives for an unrecognized difficulty. *)
Theorem evaluateAnswerLocally_constructor_difficulty_gives_NaN :
  forall (src : random_source) (questionText answerText : jsstring),
    Fallback.score
      (Fallback.evaluateAnswerLocally src questionText answerText (lit "constructor"))
    = NaN
    /\ Spec.cap (lit "constructor") = 90
    /\ Fallback.cap_operand (lit "toString") = NaN
    /\ Fallback.cap_operand (lit "__proto__") = NaN
    /\ Fallback.cap_operand (lit "Legendary") = Num 90.
Proof.
  intros src questionText answerText.
  repeat split; reflexivity.
Qed.

(** ** The local question selector *)

Section SortIsRearrangement.
Context {A : Type}.

Lemma nth_error_replaced (l1 l2 : list A) (x y : A) (j : nat) (z : A) :
  nth_error (l1 ++ x :: l2) j = Some z ->
  nth_error (l1 ++ y :: l2) j = Some (if Nat.eqb j (length l1) then y else z).
Proof.
  intro H. destruct (Nat.eqb_spec j (length l1)) as [-> | Hne].
  - rewrite nth_error_app2 by lia. rewrite Nat.sub_diag. reflexivity.
  - destruct (Nat.lt_ge_cases j (length l1)) as [Hlt | Hge].
    + rewrite nth_error_app1 in * by exact Hlt. exact H.
    + rewrite nth_error_app2 in * by exact Hge.
      destruct (j - length l1)%nat as [| m] eqn:E; [lia |]. exact H.
Qed.

Lemma swap_permutation (i j : nat) (l : list A) : Permutation l (swap i j l).
Proof.
  unfold swap.
  destruct (nth_error l i) as [x |] eqn:Ei; [| apply Permutation_refl].
  destruct (nth_error l j) as [y |] eqn:Ej; [| apply Permutation_refl].
  cbv zeta.
  destruct (nth_error_split l i Ei) as [l1 [l2 [Hl Hlen]]].
  assert (Hf : firstn i l = l1)
    by (rewrite Hl, <- Hlen, firstn_app, Nat.sub_diag, firstn_all; simpl;
        apply app_nil_r).
  assert (Hs : skipn (S i) l = l2).
  { rewrite Hl, <- Hlen.
    change (l1 ++ x :: l2) with (l1 ++ [x] ++ l2). rewrite app_assoc.
    replace (S (length l1)) with (length (l1 ++ [x]))
      by (rewrite length_app; simpl; lia).
    rewrite skipn_app, Nat.sub_diag, skipn_all; reflexivity. }
  rewrite Hf, Hs.
  set (l' := l1 ++ y :: l2).
  assert (Ej' : nth_error l' j = Some (if Nat.eqb j (length l1) then y else y)).
  { unfold l'. apply nth_error_replaced with (x := x). rewrite <- Hl. exact Ej. }
  assert (Ey : nth_error l' j = Some y) by (rewrite Ej'; destruct (Nat.eqb _ _); reflexivity).
  destruct (nth_error_split l' j Ey) as [m1 [m2 [Hm Hmlen]]].
  assert (Hf' : firstn j l' = m1)
    by (rewrite Hm, <- Hmlen; rewrite firstn_app, Nat.sub_diag, firstn_all; simpl; apply app_nil_r).
  assert (Hs' : skipn (S j) l' = m2).
  { rewrite Hm, <- Hmlen.
    change (m1 ++ y :: m2) with (m1 ++ [y] ++ m2). rewrite app_assoc.
    replace (S (length m1)) with (length (m1 ++ [y]))
      by (rewrite length_app; simpl; lia).
    rewrite skipn_app, Nat.sub_diag, skipn_all; reflexivity. }
  rewrite Hf', Hs'.
  apply Permutation_cons_inv with (a := y).
  apply Permutation_trans with (x :: l').
  - rewrite Hl. unfold l'.
    apply Permutation_trans with (y :: x :: l1 ++ l2).
    + apply perm_skip. apply Permutation_sym, Permutation_middle.
    + apply Permutation_trans with (x :: y :: l1 ++ l2); [apply perm_swap |].
      apply perm_skip. apply Permutation_middle.
  - rewrite Hm.
    apply Permutation_trans with (x :: y :: m1 ++ m2).
    + apply perm_skip. apply Permutation_sym, Permutation_middle.
    + apply Permutation_trans with (y :: x :: m1 ++ m2); [apply perm_swap |].
      apply perm_skip. apply Permutation_middle.
Qed.

(** Whatever the comparator returns, the procedure leaves a rearrangement
    of the array. *)
Lemma run_sort_permutation (p : sort_proc) (src : random_source) (cur : nat)
    (arr : list A) :
  Permutation arr (fst (run_sort p src cur arr)).
Proof.
  revert cur arr. induction p as [| i j p IH | k IH]; intros cur arr; simpl.
  - apply Permutation_refl.
  - apply Permutation_trans with (swap i j arr);
      [apply swap_permutation | apply IH].
  - apply IH.
Qed.

End SortIsRearrangement.

Lemma nodupb_NoDup (l : list jsstring) : Spec.nodupb l = true -> NoDup l.
Proof.
  induction l as [| x l IH]; simpl; intro H; [constructor |].
  apply andb_true_iff in H. destruct H as [Hx Hl].
  constructor; [| apply IH; exact Hl].
  intro Hin. apply negb_true_iff in Hx.
  assert (Hex : existsb (jsstring_eqb x) l = true).
  { apply existsb_exists. exists x. split; [exact Hin |].
    apply jsstring_eqb_eq. reflexivity. }
  congruence.
Qed.

Lemma regex_test_false (alts : list jsstring) (c : code_unit) (s : jsstring) :
  regex_test alts (c :: s) = false ->
  match_alt alts (c :: s) = None /\ regex_test alts s = false.
Proof.
  simpl. destruct (match_alt alts (c :: s)); [discriminate | auto].
Qed.

(** A text that holds none of the alternatives is left as it is. *)
Lemma replace_go_unmatched (alts : list jsstring) (tmpl : jsstring) (s seen : jsstring) :
  regex_test alts s = false -> replace_go alts tmpl seen O s = s.
Proof.
  revert seen. induction s as [| c s IH]; intros seen H; [reflexivity |].
  destruct (regex_test_false alts c s H) as [Hm Hs].
  cbn [replace_go]. rewrite Hm. rewrite (IH _ Hs). reflexivity.
Qed.

(** The beginning of a text is kept up to the first match. *)
Lemma replace_go_prefix (alts : list jsstring) (tmpl : jsstring) (k : nat)
    (s seen : jsstring) :
  Spec.unmatched_prefix alts k s = true ->
  firstn k (replace_go alts tmpl seen O s) = firstn k s.
Proof.
  revert s seen. induction k as [| k IH]; intros s seen H; [reflexivity |].
  destruct s as [| c s]; [reflexivity |].
  cbn [Spec.unmatched_prefix] in H. cbn [replace_go].
  destruct (match_alt alts (c :: s)); [discriminate |].
  cbn [firstn]. rewrite (IH _ _ H). reflexivity.
Qed.

Lemma keeps_apart_sound (pool : list jsstring) (tmpl q q' : jsstring) :
  Spec.keeps_apart pool q = true -> In q' pool -> q' <> q ->
  replace_all Fallback.role_patterns tmpl q <> q'.
Proof.
  unfold Spec.keeps_apart, replace_all. intros H Hin Hne Heq.
  apply orb_true_iff in H. destruct H as [H | H].
  - apply negb_true_iff in H.
    rewrite (replace_go_unmatched _ tmpl q [] H) in Heq. congruence.
  - apply andb_true_iff in H. destruct H as [Hp Hall].
    pose proof (replace_go_prefix _ tmpl 15 q [] Hp) as Hpre.
    rewrite Heq in Hpre.
    rewrite forallb_forall in Hall. specialize (Hall q' Hin).
    apply orb_true_iff in Hall. destruct Hall as [Hq | Hq].
    + apply jsstring_eqb_eq in Hq. contradiction.
    + apply negb_true_iff in Hq.
      assert (Ht : jsstring_eqb (firstn 15 q') (firstn 15 q) = true)
        by (apply jsstring_eqb_eq; exact Hpre).
      congruence.
Qed.

Lemma pools_are_sound :
  Spec.sound_pool Fallback.behavioral /\ Spec.sound_pool Fallback.technical
  /\ Spec.sound_pool Fallback.situational /\ Spec.sound_pool Fallback.mixed.
Proof.
  repeat split; try (apply nodupb_NoDup); vm_compute; reflexivity.
Qed.

Lemma pool_for_sound (type : jsstring) : Spec.sound_pool (Spec.pool_for type).
Proof.
  destruct pools_are_sound as [Hb [Ht [Hs Hm]]].
  unfold Spec.pool_for.
  repeat match goal with
         | |- context [jsstring_eqb ?a ?b] => destruct (jsstring_eqb a b)
         end; assumption.
Qed.

(** For a type that names no property of [Object.prototype] the lookup
    finds the pool of the specification. *)
Lemma select_pool_pool_for (type : jsstring) :
  Spec.names_inherited_property type = false ->
  Fallback.select_pool type = Own (Spec.pool_for type).
Proof.
  unfold Spec.names_inherited_property, Fallback.select_pool, get, Spec.pool_for.
  intro H. destruct (own_property Object_prototype type); [discriminate |].
  unfold Fallback.QUESTIONS at 1. cbn [own_property].
  rewrite !(jsstring_eqb_sym type).
  repeat match goal with
         | |- context [jsstring_eqb ?a type] => destruct (jsstring_eqb a type)
         end; reflexivity.
Qed.

Lemma firstn_NoDup {A} (n : nat) (l : list A) : NoDup l -> NoDup (firstn n l).
Proof.
  intro H. rewrite <- (firstn_skipn n l) in H.
  apply NoDup_app_remove_r in H. exact H.
Qed.

Lemma firstn_In {A} (n : nat) (l : list A) (x : A) : In x (firstn n l) -> In x l.
Proof.
  intro H. rewrite <- (firstn_skipn n l). apply in_or_app. left. exact H.
Qed.

Lemma add_role_context_NoDup (pool selected : list jsstring) (role : jsstring) :
  forallb (Spec.keeps_apart pool) pool = true ->
  NoDup selected -> (forall q, In q selected -> In q pool) ->
  NoDup (Fallback.add_role_context role selected).
Proof.
  intros Hpool Hnd Hsub. destruct selected as [| q rest]; [constructor |].
  simpl. inversion Hnd as [| ? ? Hq Hrest]; subst.
  constructor; [| exact Hrest].
  intro Hin.
  rewrite forallb_forall in Hpool.
  refine (keeps_apart_sound pool _ q _ (Hpool q _) _ _ eq_refl).
  - apply Hsub. left. reflexivity.
  - apply Hsub. right. exact Hin.
  - intro Heq. rewrite Heq in Hin. contradiction.
Qed.

Lemma add_role_context_length (role : jsstring) (selected : list jsstring) :
  length (Fallback.add_role_context role selected) = length selected.
Proof. destruct selected; reflexivity. Qed.

(** For every request with a positive number of questions and a type that
    names no property of [Object.prototype], the selector returns
    [min(numQuestions, 15)] different questions, at least one, from the pool
    of the type or from the mixed pool. *)
Theorem generateLocalQuestions_selects_distinct :
  forall (eng : engine) (src : random_source) (req : Fallback.SelectionRequest),
    Spec.names_inherited_property (Fallback.interviewType req) = false ->
    0 < Fallback.numQuestions req ->
    exists result,
      Fallback.generateLocalQuestions eng src req = Normal result
      /\ Z.of_nat (length result)
         = Z.min (Fallback.numQuestions req)
             (Z.of_nat (length (Spec.pool_for (Fallback.interviewType req))))
      /\ NoDup result
      /\ result <> []
      /\ (forall q, In q (tl result) ->
                    In q (Spec.pool_for (Fallback.interviewType req))).
Proof.
  intros eng src req Htype Hn.
  unfold Fallback.generateLocalQuestions.
  rewrite (select_pool_pool_for _ Htype).
  set (pool := Spec.pool_for (Fallback.interviewType req)).
  destruct (pool_for_sound (Fallback.interviewType req)) as [Hlen [Hnd Hapart]].
  fold pool in Hlen, Hnd, Hapart.
  pose proof (run_sort_permutation (eng (length pool)) src O pool) as Hperm.
  fold (Fallback.shuffle eng src pool) in Hperm.
  set (shuffled := Fallback.shuffle eng src pool) in *.
  assert (Hslice : slice0 (Fallback.numQuestions req) shuffled
                   = firstn (Z.to_nat (Fallback.numQuestions req)) shuffled).
  { unfold slice0. destruct (Z.ltb_spec (Fallback.numQuestions req) 0); [lia | reflexivity]. }
  rewrite Hslice.
  set (selected := firstn (Z.to_nat (Fallback.numQuestions req)) shuffled).
  assert (Hsl : length shuffled = 15%nat)
    by (rewrite <- (Permutation_length Hperm); exact Hlen).
  assert (Hlsel : length selected = Nat.min (Z.to_nat (Fallback.numQuestions req)) 15)
    by (unfold selected; rewrite length_firstn, Hsl; reflexivity).
  assert (Hsub : forall q, In q selected -> In q pool).
  { intros q Hq. apply (Permutation_in q (Permutation_sym Hperm)).
    apply (firstn_In _ _ _ Hq). }
  exists (Fallback.add_role_context (Fallback.jobRole req) selected).
  split; [reflexivity |].
  split; [rewrite add_role_context_length, Hlsel, Hlen; lia |].
  split.
  - apply (add_role_context_NoDup pool); [exact Hapart | | exact Hsub].
    apply firstn_NoDup. apply (Permutation_NoDup Hperm Hnd).
  - split.
    + intro Hnil.
      pose proof (add_role_context_length (Fallback.jobRole req) selected) as Hl.
      rewrite Hnil, Hlsel in Hl. simpl in Hl. lia.
    + intros q Hq. apply Hsub.
      destruct selected as [| q0 rest]; [contradiction |].
      right. exact Hq.
Qed.

Lemma generateLocalQuestions_selects_distinct_witness :
  exists result,
    Fallback.generateLocalQuestions insertion_engine (fun _ => 1 # 4)
      {| Fallback.jobRole := lit "Nurse";
         Fallback.interviewType := lit "technical";
         Fallback.difficulty := lit "Hard";
         Fallback.numQuestions := 3;
         Fallback.topic := None |} = Normal result
    /\ length result = 3%nat.
Proof.
  destruct (generateLocalQuestions_selects_distinct insertion_engine (fun _ => 1 # 4)
              {| Fallback.jobRole := lit "Nurse";
                 Fallback.interviewType := lit "technical";
                 Fallback.difficulty := lit "Hard";
                 Fallback.numQuestions := 3;
                 Fallback.topic := None |} eq_refl eq_refl)
    as [result [Hr [Hlen _]]].
  exists result. split; [exact Hr |].
  apply Nat2Z.inj. rewrite Hlen. reflexivity.
Defined.

(** The selector throws exactly at the interview types that name a property
    of [Object.prototype]. *)
Lemma generateLocalQuestions_throws_iff
    (eng : engine) (src : random_source) (req : Fallback.SelectionRequest) :
  Fallback.generateLocalQuestions eng src req = ThrowTypeError
  <-> Spec.names_inherited_property (Fallback.interviewType req) = true.
Proof.
  unfold Fallback.generateLocalQuestions.
  destruct (Spec.names_inherited_property (Fallback.interviewType req)) eqn:E.
  - split; [reflexivity | intros _].
    destruct (inherited_name_not_own _ E) as [_ Hq].
    unfold Fallback.select_pool, get. rewrite Hq.
    unfold Spec.names_inherited_property in E.
    destruct (own_property Object_prototype (Fallback.interviewType req));
      [reflexivity | discriminate].
  - rewrite (select_pool_pool_for _ E). split; discriminate.
Qed.

(** C3, at the interview type "constructor": [QUESTIONS[interviewType]]
    finds the inherited [Object.prototype.constructor], which is truthy, so
    the mixed pool is not taken, and the spread of this function throws a
    [TypeError]: the selector returns no question, whatever the other
    fields of the request, the engine and [Math.random] are. *)
Theorem generateLocalQuestions_constructor_type_throws :
  forall (eng : engine) (src : random_source) (role difficulty : jsstring)
         (n : Z) (topic : option jsstring),
    Fallback.generateLocalQuestions eng src
      {| Fallback.jobRole := role;
         Fallback.interviewType := lit "constructor";
         Fallback.difficulty := difficulty;
         Fallback.numQuestions := n;
         Fallback.topic := topic |} = ThrowTypeError
    /\ Spec.pool_for (lit "constructor") = Fallback.mixed
    /\ Fallback.select_pool (lit "toString") = Inherited BuiltinFunction
    /\ Fallback.select_pool (lit "__proto__") = Inherited PrototypeObject
    /\ Fallback.select_pool (lit "coding") = Own Fallback.mixed.
Proof.
  intros eng src role difficulty n topic.
  repeat split; reflexivity.
Qed.

(** A replacement text without a dollar sign stands for itself. *)
Lemma expand_dollar_free (tmpl matched before after : jsstring) :
  Spec.dollar_free tmpl = true -> expand tmpl matched before after = tmpl.
Proof.
  unfold Spec.dollar_free.
  induction tmpl as [| d t IH]; intro H; [reflexivity |].
  simpl in H. apply andb_true_iff in H. destruct H as [Hd Ht].
  apply negb_true_iff in Hd. cbn [expand]. rewrite Hd, (IH Ht). reflexivity.
Qed.

Lemma replace_go_substitute (alts : list jsstring) (tmpl : jsstring) (s seen : jsstring)
    (skip : nat) :
  Spec.dollar_free tmpl = true ->
  replace_go alts tmpl seen skip s = Spec.substitute_go alts tmpl skip s.
Proof.
  intro H. revert seen skip.
  induction s as [| c s IH]; intros seen skip; [reflexivity |].
  cbn [replace_go Spec.substitute_go].
  destruct skip as [| k]; [| apply IH].
  destruct (match_alt alts (c :: s)) as [a |].
  - rewrite (expand_dollar_free _ _ _ _ H), IH. reflexivity.
  - rewrite IH. reflexivity.
Qed.

Lemma role_template_dollar_free (role : jsstring) :
  Spec.dollar_free role = true -> Spec.dollar_free (Fallback.role_template role) = true.
Proof.
  unfold Spec.dollar_free, Fallback.role_template. intro H.
  rewrite !forallb_app.
  apply andb_true_iff; split; [reflexivity |].
  apply andb_true_iff; split; [exact H | reflexivity].
Qed.

(** Only the first selected question is touched, and when the job role
    holds no dollar sign every occurrence of the three literals in it is
    replaced by "the {jobRole} role" itself. *)
Theorem generateLocalQuestions_changes_first_only :
  forall (eng : engine) (src : random_source) (req : Fallback.SelectionRequest),
    Spec.names_inherited_property (Fallback.interviewType req) = false ->
    Spec.dollar_free (Fallback.jobRole req) = true ->
    let selected :=
      slice0 (Fallback.numQuestions req)
        (Fallback.shuffle eng src (Spec.pool_for (Fallback.interviewType req))) in
    Fallback.generateLocalQuestions eng src req
    = Normal match selected with
             | [] => []
             | q :: rest =>
                 Spec.substitute Fallback.role_patterns
                   (lit "the " ++ Fallback.jobRole req ++ lit " role") q :: rest
             end.
Proof.
  intros eng src req Htype Hrole selected.
  unfold Fallback.generateLocalQuestions.
  rewrite (select_pool_pool_for _ Htype). fold selected.
  destruct selected as [| q rest]; [reflexivity |].
  unfold Fallback.add_role_context, replace_all.
  rewrite replace_go_substitute by (apply role_template_dollar_free; exact Hrole).
  reflexivity.
Qed.

Lemma generateLocalQuestions_changes_first_only_witness :
  Fallback.generateLocalQuestions insertion_engine (fun _ => 3 # 4)
    {| Fallback.jobRole := lit "Nurse";
       Fallback.interviewType := lit "mixed";
       Fallback.difficulty := lit "Hard";
       Fallback.numQuestions := 2;
       Fallback.topic := None |}
  = Normal
      [ lit "Tell me about yourself and the Nurse role in the Nurse role.";
        lit "What's a technical challenge you recently solved? Walk me through your approach." ].
Proof.
  refine (eq_trans (generateLocalQuestions_changes_first_only insertion_engine
                      (fun _ => 3 # 4)
                      {| Fallback.jobRole := lit "Nurse";
                         Fallback.interviewType := lit "mixed";
                         Fallback.difficulty := lit "Hard";
                         Fallback.numQuestions := 2;
                         Fallback.topic := None |} eq_refl eq_refl) _).
  vm_compute. reflexivity.
Defined.

(** C5, at job roles that hold a dollar sign: the job role is spliced into
    the replacement text of [String.prototype.replace], where [$$] stands
    for one dollar sign and [$&] for the matched text.  With the job role
    "$$ Trader" the first question gets "the $ Trader role" and not
    "the $$ Trader role"; with "$& Lead" it gets "the this role Lead role". *)
Theorem generateLocalQuestions_dollar_in_jobRole :
  Fallback.generateLocalQuestions insertion_engine (fun _ => 3 # 4)
    {| Fallback.jobRole := lit "$$ Trader";
       Fallback.interviewType := lit "behavioral";
       Fallback.difficulty := lit "Medium";
       Fallback.numQuestions := 2;
       Fallback.topic := None |}
  = Normal
      [ lit "Tell me about yourself and what makes you a good fit for the $ Trader role.";
        lit "Describe a time when you had to deal with a difficult coworker or team member. How did you handle it?" ]
  /\ Fallback.generateLocalQuestions insertion_engine (fun _ => 3 # 4)
       {| Fallback.jobRole := lit "$& Lead";
          Fallback.interviewType := lit "behavioral";
          Fallback.difficulty := lit "Medium";
          Fallback.numQuestions := 1;
          Fallback.topic := None |}
     = Normal
         [ lit "Tell me about yourself and what makes you a good fit for the this role Lead role." ]
  /\ Spec.substitute Fallback.role_patterns (lit "the $$ Trader role")
       (lit "Tell me about yourself and what makes you a good fit for this role.")
     = lit "Tell me about yourself and what makes you a good fit for the $$ Trader role.".
Proof.
  repeat split; vm_compute; reflexivity.
Qed.

(** ** The shuffle is not uniform *)

Section Arrangements.
Import Chance.
Context {A : Type} (eq_dec : forall a b : A, {a = b} + {a <> b}).

Lemma in_insert_everywhere (x : A) (l p : list A) :
  In p (insert_everywhere x l)
  <-> exists l1 l2, l = l1 ++ l2 /\ p = l1 ++ x :: l2.
Proof.
  revert p. induction l as [| y l IH]; intro p; simpl.
  - split.
    + intros [<- | []]. exists [], []. split; reflexivity.
    + intros [l1 [l2 [Hl Hp]]].
      symmetry in Hl. apply app_eq_nil in Hl. destruct Hl as [-> ->].
      left. symmetry. exact Hp.
  - split.
    + intros [<- | Hin].
      * exists [], (y :: l). split; reflexivity.
      * apply in_map_iff in Hin. destruct Hin as [p' [<- Hp']].
        apply IH in Hp'. destruct Hp' as [l1 [l2 [-> ->]]].
        exists (y :: l1), l2. split; reflexivity.
    + intros [l1 [l2 [Hl Hp]]]. destruct l1 as [| z l1]; simpl in *.
      * left. subst. reflexivity.
      * right. injection Hl as <- ->. subst p.
        apply in_map. apply IH. exists l1, l2. split; reflexivity.
Qed.

Lemma insert_everywhere_permutation (x : A) (l p : list A) :
  In p (insert_everywhere x l) -> Permutation (x :: l) p.
Proof.
  intro H. apply in_insert_everywhere in H.
  destruct H as [l1 [l2 [-> ->]]]. apply Permutation_middle.
Qed.

Lemma insert_everywhere_length (x : A) (l : list A) :
  length (insert_everywhere x l) = S (length l).
Proof.
  induction l as [| y l IH]; simpl; [reflexivity |].
  rewrite length_map, IH. reflexivity.
Qed.

Lemma insert_everywhere_NoDup (x : A) (l : list A) :
  ~ In x l -> NoDup (insert_everywhere x l).
Proof.
  induction l as [| y l IH]; intro Hx; simpl.
  - constructor; [intros [] | constructor].
  - constructor.
    + intro Hin. apply in_map_iff in Hin. destruct Hin as [p [Hp _]].
      injection Hp as Hy _. apply Hx. left. exact Hy.
    + apply Injective_map_NoDup.
      * intros a b Hab. injection Hab as ->. reflexivity.
      * apply IH. intro Hin. apply Hx. right. exact Hin.
Qed.

Lemma insert_everywhere_remove (x : A) (l p : list A) :
  ~ In x l -> In p (insert_everywhere x l) -> remove eq_dec x p = l.
Proof.
  intros Hx H. apply in_insert_everywhere in H.
  destruct H as [l1 [l2 [-> ->]]].
  rewrite remove_app, remove_cons, <- remove_app.
  apply notin_remove. exact Hx.
Qed.

Lemma arrangements_sound (l p : list A) :
  In p (arrangements l) -> Permutation l p.
Proof.
  revert p. induction l as [| x l IH]; intro p; simpl.
  - intros [<- | []]. constructor.
  - intro H. apply in_flat_map in H. destruct H as [q [Hq Hp]].
    apply Permutation_trans with (x :: q).
    + apply perm_skip. apply IH. exact Hq.
    + apply insert_everywhere_permutation. exact Hp.
Qed.

Lemma arrangements_complete (l p : list A) :
  Permutation l p -> In p (arrangements l).
Proof.
  revert p. induction l as [| x l IH]; intros p H; simpl.
  - apply Permutation_nil in H. left. symmetry. exact H.
  - assert (Hin : In x p) by (apply (Permutation_in x H); left; reflexivity).
    destruct (in_split x p Hin) as [p1 [p2 ->]].
    apply Permutation_cons_app_inv in H.
    apply in_flat_map. exists (p1 ++ p2). split; [apply IH; exact H |].
    apply in_insert_everywhere. exists p1, p2. split; reflexivity.
Qed.

Lemma arrangements_length (l : list A) :
  length (arrangements l) = fact (length l).
Proof.
  induction l as [| x l IH]; [reflexivity |].
  cbn [arrangements]. rewrite length_flat_map.
  assert (H : forall L : list (list A),
             (forall q, In q L -> length q = length l) ->
             list_sum (map (fun q => length (insert_everywhere x q)) L)
             = (S (length l) * length L)%nat).
  { induction L as [| q L IHL]; intro Hall; simpl; [lia |].
    rewrite insert_everywhere_length, (Hall q) by (left; reflexivity).
    rewrite IHL by (intros q' Hq'; apply Hall; right; exact Hq'). lia. }
  rewrite H.
  - rewrite IH. reflexivity.
  - intros q Hq. symmetry. apply Permutation_length.
    apply arrangements_sound. exact Hq.
Qed.

Lemma flat_map_NoDup (f : list A -> list (list A)) (g : list A -> list A)
    (L : list (list A)) :
  NoDup L ->
  (forall q, In q L -> NoDup (f q)) ->
  (forall q p, In q L -> In p (f q) -> g p = q) ->
  NoDup (flat_map f L).
Proof.
  induction L as [| q L IH]; intros Hnd Hf Hg; simpl; [constructor |].
  inversion Hnd as [| ? ? Hq HL]; subst.
  apply NoDup_app.
  - apply Hf. left. reflexivity.
  - apply IH; [exact HL | |].
    + intros q' Hq'. apply Hf. right. exact Hq'.
    + intros q' p Hq' Hp. apply Hg; [right; exact Hq' | exact Hp].
  - intros p Hp Hp'. apply in_flat_map in Hp'. destruct Hp' as [q' [Hq' Hpq']].
    assert (q = q').
    { rewrite <- (Hg q p) by (try left; auto).
      apply Hg; [right; exact Hq' | exact Hpq']. }
    subst q'. contradiction.
Qed.

Lemma arrangements_NoDup (l : list A) : NoDup l -> NoDup (arrangements l).
Proof.
  induction l as [| x l IH]; intro H; simpl.
  - constructor; [intros [] | constructor].
  - inversion H as [| ? ? Hx Hl]; subst.
    assert (Hnot : forall q, In q (arrangements l) -> ~ In x q).
    { intros q Hq Hin. apply Hx.
      apply (Permutation_in x (Permutation_sym (arrangements_sound l q Hq))).
      exact Hin. }
    apply flat_map_NoDup with (g := remove eq_dec x).
    + apply IH. exact Hl.
    + intros q Hq. apply insert_everywhere_NoDup. apply Hnot. exact Hq.
    + intros q p Hq Hp. apply insert_everywhere_remove; [apply Hnot |]; assumption.
Qed.

Lemma three_divides_fact (n : nat) :
  (3 <= n)%nat -> exists m, fact n = (3 * m)%nat.
Proof.
  induction n as [| n IH]; intro H; [lia |].
  destruct (Nat.eq_dec n 2) as [-> | Hn].
  - exists 2%nat. reflexivity.
  - destruct IH as [m Hm]; [lia |].
    exists (S n * m)%nat. cbn [fact]. rewrite Hm. lia.
Qed.

End Arrangements.

Section ShuffleChance.
Import Chance.

(** With a resolution of [S k] bits the comparator's sign is that of the
    numerator against [2 ^ k]: negative for the [2 ^ k] numerators below it,
    zero for one, positive for the others, as [sign_weight (Bits k)] says. *)
Lemma random_comparator_resolution (k : nat) (u : Z) :
  random_comparator (u # Pos.pow 2 (Pos.of_succ_nat k)) = (u ?= 2 ^ Z.of_nat k).
Proof.
  unfold random_comparator, Qcompare; cbn [Qnum Qden].
  rewrite Pos2Z.inj_pow, Zpos_P_of_succ_nat, Z.pow_succ_r by lia.
  destruct (Z.compare_spec u (2 ^ Z.of_nat k));
    [apply Z.compare_eq_iff | apply Z.compare_lt_iff | apply Z.compare_gt_iff];
    lia.
Qed.

Lemma sign_weights_total (r : resolution) :
  sign_weight r Lt + sign_weight r Eq + sign_weight r Gt = cases r.
Proof.
  destruct r as [k |]; [| reflexivity].
  unfold sign_weight, cases. rewrite Nat2Z.inj_succ, Z.pow_succ_r by lia. lia.
Qed.

Lemma total_over_linear {A} (w1 w2 w3 : Z) (f g h : A -> Z) (l : list A) :
  total_over (fun a => w1 * f a + w2 * g a + w3 * h a) l
  = w1 * total_over f l + w2 * total_over g l + w3 * total_over h l.
Proof. induction l as [| a l IH]; simpl; [lia | rewrite IH; lia]. Qed.

Lemma total_over_zero {A} (l : list A) : total_over (fun _ => 0) l = 0.
Proof. induction l as [| a l IH]; simpl; [reflexivity | rewrite IH; reflexivity]. Qed.

Lemma total_over_same {A} (f : A -> Z) (w : Z) (l : list A) :
  (forall a, In a l -> f a = w) -> total_over f l = Z.of_nat (length l) * w.
Proof.
  induction l as [| a l IH]; intro H; [reflexivity |].
  cbn [total_over length]. rewrite (H a) by (left; reflexivity).
  rewrite IH by (intros b Hb; apply H; right; exact Hb). lia.
Qed.

Lemma among_In (candidates : list (list jsstring)) (arr : list jsstring) :
  among candidates arr = true <-> In arr candidates.
Proof.
  unfold among. rewrite existsb_exists. split.
  - intros [a [Ha Heq]]. unfold is_arrangement in Heq.
    destruct (list_eq_dec jsstring_eq_dec a arr); [subst; exact Ha | discriminate].
  - intro H. exists arr. split; [exact H |].
    unfold is_arrangement.
    destruct (list_eq_dec jsstring_eq_dec arr arr); [reflexivity | contradiction].
Qed.

Lemma total_over_indicator (candidates : list (list jsstring))
    (arr : list jsstring) (t : Z) :
  NoDup candidates ->
  total_over (fun a => if is_arrangement a arr then t else 0) candidates
  = if among candidates arr then t else 0.
Proof.
  induction candidates as [| a l IH]; intro H; [reflexivity |].
  inversion H as [| ? ? Ha Hl]; subst.
  cbn [total_over]. rewrite (IH Hl).
  change (among (a :: l) arr) with (is_arrangement a arr || among l arr).
  unfold is_arrangement at 1 2.
  destruct (list_eq_dec jsstring_eq_dec a arr) as [-> | Hne]; simpl.
  - destruct (among l arr) eqn:E; [| lia].
    apply among_In in E. contradiction.
  - reflexivity.
Qed.

(** The outcomes that give one of several different arrays are those that
    give each of them, added up. *)
Lemma outcomes_add_up (r : resolution) (candidates : list (list jsstring))
    (p : sort_proc) :
  NoDup candidates ->
  forall (d : nat) (arr : list jsstring),
    total_over (fun a => outcomes r d p arr (is_arrangement a)) candidates
    = outcomes r d p arr (among candidates).
Proof.
  intro Hnd. induction p as [| i j p IH | f IH]; intros d arr.
  - cbn [outcomes]. apply total_over_indicator. exact Hnd.
  - cbn [outcomes]. apply IH.
  - destruct d as [| d]; cbn [outcomes].
    + apply total_over_zero.
    + rewrite total_over_linear, !IH. reflexivity.
Qed.

(** Every sequence of values leads to an array that is a rearrangement. *)
Lemma outcomes_total (r : resolution) (p : sort_proc) :
  forall (d : nat) (arr : list jsstring) (event : list jsstring -> bool),
    (forall x, Permutation arr x -> event x = true) ->
    (depth p <= d)%nat ->
    outcomes r d p arr event = cases r ^ Z.of_nat d.
Proof.
  induction p as [| i j p IH | f IH]; intros d arr event Hev Hd.
  - cbn [outcomes]. rewrite (Hev arr (Permutation_refl arr)). reflexivity.
  - cbn [outcomes depth] in *. apply IH; [| exact Hd].
    intros x Hx. apply Hev.
    apply Permutation_trans with (swap i j arr); [apply swap_permutation | exact Hx].
  - cbn [depth] in Hd. destruct d as [| d]; [lia |].
    cbn [outcomes].
    rewrite !IH by (try exact Hev; lia).
    rewrite (Nat2Z.inj_succ d), (Z.pow_succ_r _ (Z.of_nat d)) by lia.
    rewrite <- (sign_weights_total r). ring.
Qed.

Lemma sign_weight_nonneg (r : resolution) (c : comparison) : 0 <= sign_weight r c.
Proof.
  destruct r as [k |], c; cbn [sign_weight]; try lia;
    assert (0 < 2 ^ Z.of_nat k) by (apply Z.pow_pos_nonneg; lia); lia.
Qed.

Lemma cases_positive (r : resolution) : 0 < cases r.
Proof. destruct r as [k |]; cbn [cases]; [apply Z.pow_pos_nonneg |]; lia. Qed.

Lemma outcomes_nonneg (r : resolution) (p : sort_proc) :
  forall (d : nat) (arr : list jsstring) (event : list jsstring -> bool),
    0 <= outcomes r d p arr event.
Proof.
  induction p as [| i j p IH | f IH]; intros d arr event; cbn [outcomes].
  - destruct (event arr); [| lia].
    apply Z.pow_nonneg. pose proof (cases_positive r). lia.
  - apply IH.
  - destruct d as [| d]; [lia |].
    pose proof (sign_weight_nonneg r Lt). pose proof (sign_weight_nonneg r Eq).
    pose proof (sign_weight_nonneg r Gt).
    pose proof (IH Lt d arr event). pose proof (IH Eq d arr event).
    pose proof (IH Gt d arr event). nia.
Qed.

(** The count agrees with the runs: the array that [run_sort] returns on a
    source is among the outcomes that are counted, as long as every sign the
    source gives has cases. *)
Lemma outcomes_count_every_run (r : resolution) (src : random_source) (p : sort_proc) :
  (forall i, 0 < sign_weight r (random_comparator (src i))) ->
  forall (d cur : nat) (arr : list jsstring),
    (depth p <= d)%nat ->
    0 < outcomes r d p arr (is_arrangement (fst (run_sort p src cur arr))).
Proof.
  intro Hsrc. induction p as [| i j p IH | f IH]; intros d cur arr Hd.
  - cbn [outcomes run_sort fst]. unfold is_arrangement.
    destruct (list_eq_dec jsstring_eq_dec arr arr); [| contradiction].
    apply Z.pow_pos_nonneg; [apply cases_positive | lia].
  - cbn [outcomes run_sort depth] in *. apply IH. exact Hd.
  - cbn [depth] in Hd. destruct d as [| d]; [lia |].
    cbn [outcomes run_sort].
    set (target := is_arrangement
                     (fst (run_sort (f (random_comparator (src cur))) src (S cur) arr))).
    assert (Hterm : forall c, 0 <= sign_weight r c * outcomes r d (f c) arr target)
      by (intro c; apply Z.mul_nonneg_nonneg;
          [apply sign_weight_nonneg | apply outcomes_nonneg]).
    assert (Hdepth : (depth (f (random_comparator (src cur))) <= d)%nat)
      by (destruct (random_comparator (src cur)); lia).
    assert (Hrun : 0 < sign_weight r (random_comparator (src cur))
                       * outcomes r d (f (random_comparator (src cur))) arr target)
      by (apply Z.mul_pos_pos; [apply Hsrc | apply IH; exact Hdepth]).
    pose proof (Hterm Lt). pose proof (Hterm Eq). pose proof (Hterm Gt).
    destruct (random_comparator (src cur)); lia.
Qed.

Lemma not_multiple_of_3_mul (x y : Z) :
  x mod 3 <> 0 -> y mod 3 <> 0 -> (x * y) mod 3 <> 0.
Proof.
  intros Hx Hy. rewrite Z.mul_mod by lia.
  pose proof (Z.mod_pos_bound x 3 ltac:(lia)) as Bx.
  pose proof (Z.mod_pos_bound y 3 ltac:(lia)) as By.
  assert (Cx : x mod 3 = 1 \/ x mod 3 = 2) by lia.
  assert (Cy : y mod 3 = 1 \/ y mod 3 = 2) by lia.
  destruct Cx as [-> | ->], Cy as [-> | ->]; vm_compute; discriminate.
Qed.

Lemma not_multiple_of_3_pow (x : Z) (n : nat) :
  x mod 3 <> 0 -> (x ^ Z.of_nat n) mod 3 <> 0.
Proof.
  intro Hx. induction n as [| n IH].
  - vm_compute. discriminate.
  - rewrite Nat2Z.inj_succ, Z.pow_succ_r by lia.
    apply not_multiple_of_3_mul; assumption.
Qed.

Lemma cases_not_multiple_of_3 (r : resolution) : cases r mod 3 <> 0.
Proof.
  destruct r as [k |]; [| vm_compute; discriminate].
  apply not_multiple_of_3_pow. vm_compute. discriminate.
Qed.

Lemma probability_equal_outcomes (r : resolution) (p : sort_proc)
    (arr : list jsstring) (e1 e2 : list jsstring -> bool) :
  (probability r p arr e1 == probability r p arr e2)%Q ->
  outcomes r (depth p) p arr e1 = outcomes r (depth p) p arr e2.
Proof.
  unfold probability, Qeq; cbn [Qnum Qden]. intro H.
  apply Z.mul_reg_r in H; [exact H | lia].
Qed.

(** A pool of three or more different questions cannot be shuffled
    uniformly: the number of equally likely sequences of comparator values
    is a power of two, and the number of arrangements, which would have to
    divide it, is a multiple of three. *)
Lemma shuffle_not_uniform (r : resolution) (eng : engine) (pool : list jsstring) :
  NoDup pool -> (3 <= length pool)%nat -> ~ uniform_shuffle r eng pool.
Proof.
  intros Hnd Hlen Hu. unfold uniform_shuffle in Hu.
  set (p := eng (length pool)) in *.
  set (w := outcomes r (depth p) p pool (is_arrangement pool)).
  assert (Hw : forall a, In a (arrangements pool) ->
                         outcomes r (depth p) p pool (is_arrangement a) = w).
  { intros a Ha. apply probability_equal_outcomes. apply Hu.
    - apply arrangements_sound. exact Ha.
    - apply Permutation_refl. }
  pose proof (total_over_same _ w _ Hw) as Hsum.
  rewrite (outcomes_add_up r (arrangements pool) p
             (arrangements_NoDup jsstring_eq_dec pool Hnd)) in Hsum.
  rewrite (outcomes_total r p) in Hsum;
    [| intros x Hx; apply among_In, arrangements_complete; exact Hx | lia].
  rewrite arrangements_length in Hsum.
  destruct (three_divides_fact (length pool) Hlen) as [m Hm].
  rewrite Hm in Hsum.
  apply (not_multiple_of_3_pow (cases r) (depth p) (cases_not_multiple_of_3 r)).
  rewrite Hsum, Nat2Z.inj_mul.
  replace (Z.of_nat 3 * Z.of_nat m * w) with (Z.of_nat m * w * 3) by lia.
  apply Z.mod_mul. lia.
Qed.

End ShuffleChance.

(** C2, as the code has it: for every engine, every sequence of values of
    [Math.random] and every pool, the shuffle step of
    [generateLocalQuestions] yields a rearrangement of the pool, with all
    its questions and nothing else; for the four pools of the bank these
    rearrangements are not equally likely, whatever the engine and the
    resolution of [Math.random] are. *)
Theorem shuffle_is_a_biased_rearrangement :
  (forall (eng : engine) (src : random_source) (pool : list jsstring),
      Permutation pool (Fallback.shuffle eng src pool)
      /\ length (Fallback.shuffle eng src pool) = length pool)
  /\ (forall (r : Chance.resolution) (eng : engine),
        ~ Chance.uniform_shuffle r eng Fallback.behavioral
        /\ ~ Chance.uniform_shuffle r eng Fallback.technical
        /\ ~ Chance.uniform_shuffle r eng Fallback.situational
        /\ ~ Chance.uniform_shuffle r eng Fallback.mixed).
Proof.
  split.
  - intros eng src pool.
    pose proof (run_sort_permutation (eng (length pool)) src O pool) as H.
    split; [exact H | symmetry; apply (Permutation_length H)].
  - intros r eng.
    destruct pools_are_sound as [[Lb [Nb _]] [[Lt [Nt _]] [[Ls [Ns _]] [Lm [Nm _]]]]].
    repeat split; apply shuffle_not_uniform; try assumption; lia.
Qed.

(** C2, as the specification has it, fails: no engine and no resolution of
    [Math.random] make all the arrangements of the behavioral pool equally
    likely. *)
Lemma uniform_shuffle_of_behavioral_pool_impossible :
  ~ exists (r : Chance.resolution) (eng : engine),
      Chance.uniform_shuffle r eng Fallback.behavioral.
Proof.
  intros [r [eng Hu]].
  destruct pools_are_sound as [[Lb [Nb _]] _].
  apply (shuffle_not_uniform r eng Fallback.behavioral Nb); [lia | exact Hu].
Qed.

(** * Further properties of the code *)

(** ** The local answer evaluator *)

Lemma bonus_b2z (b : bool) (n : Z) : Fallback.bonus b n = n * Z.b2z b.
Proof. destruct b; simpl; lia. Qed.

Lemma b2z_range (b : bool) : 0 <= Z.b2z b <= 1.
Proof. destruct b; simpl; lia. Qed.

Lemma raw_score_shape (answerText : jsstring) :
  exists k, Fallback.raw_score answerText = 50 + 5 * k /\ 0 <= k <= 10.
Proof.
  unfold Fallback.raw_score. rewrite !bonus_b2z.
  repeat match goal with
         | |- context [Z.b2z ?b] =>
             let H := fresh "H" in
             pose proof (b2z_range b) as H; generalize dependent (Z.b2z b); intros
         end.
  match goal with
  | |- exists k, 50 + 5 * ?a + 10 * ?b + 5 * ?c + 5 * ?d + 5 * ?e + 5 * ?f
                 + 5 * ?g + 5 * ?h + 5 * ?i = _ /\ _ =>
      exists (a + 2 * b + c + d + e + f + g + h + i)
  end.
  lia.
Qed.

Lemma cap_cases (difficulty : jsstring) :
  Spec.cap difficulty = 95 \/ Spec.cap difficulty = 90
  \/ Spec.cap difficulty = 85 \/ Spec.cap difficulty = 80.
Proof.
  unfold Spec.cap.
  destruct (jsstring_eqb difficulty (lit "Easy")); [auto |].
  destruct (jsstring_eqb difficulty (lit "Medium")); [auto |].
  destruct (jsstring_eqb difficulty (lit "Hard")); [auto |].
  destruct (jsstring_eqb difficulty (lit "Expert")); auto.
Qed.

(** X1: The score of the local evaluator is a multiple of 5 from 50 up to the
    cap of the difficulty, so the floor of 30 never applies; the only other
    result is [NaN], at the difficulties that name a property of
    [Object.prototype]. *)
Theorem evaluateAnswerLocally_score_scale :
  forall (src : random_source) (questionText answerText difficulty : jsstring),
    match Fallback.score
            (Fallback.evaluateAnswerLocally src questionText answerText difficulty) with
    | Num z =>
        50 <= z <= Spec.cap difficulty /\ z mod 5 = 0
        /\ z = Z.min (Fallback.raw_score answerText) (Spec.cap difficulty)
    | NaN => Spec.names_inherited_property difficulty = true
    end.
Proof.
  intros src questionText answerText difficulty.
  unfold Fallback.evaluateAnswerLocally; cbn [Fallback.score].
  unfold Fallback.capped_score.
  destruct (Spec.names_inherited_property difficulty) eqn:E.
  - destruct (inherited_name_not_own difficulty E) as [Hcaps _].
    unfold Fallback.cap_operand, get. rewrite Hcaps.
    unfold Spec.names_inherited_property in E.
    destruct (own_property Object_prototype difficulty); [reflexivity | discriminate].
  - rewrite (cap_operand_cap difficulty E). cbn [Math_min Math_max].
    destruct (raw_score_shape answerText) as [k [Hraw Hk]].
    assert (Hcap : exists c, Spec.cap difficulty = 5 * c /\ 16 <= c <= 19).
    { destruct (cap_cases difficulty) as [-> | [-> | [-> | ->]]];
        [exists 19 | exists 18 | exists 17 | exists 16]; lia. }
    destruct Hcap as [c [Hc Hcr]].
    rewrite Hraw, Hc.
    assert (Hmin : Z.min (50 + 5 * k) (5 * c) = 5 * Z.min (10 + k) c) by lia.
    rewrite Z.max_l by lia.
    split; [lia |]. split; [| reflexivity].
    rewrite Hmin, Z.mul_comm. apply Z.mod_mul. lia.
Qed.

(** X2: The cap orders the difficulties: the same answer scores at least as much
    at Easy as at Medium, at Medium as at Hard, and at Hard as at Expert. *)
Theorem evaluateAnswerLocally_harder_never_scores_more :
  forall (src : random_source) (questionText answerText : jsstring),
    let at_level d :=
      Fallback.score (Fallback.evaluateAnswerLocally src questionText answerText (lit d)) in
    exists e m h x,
      at_level "Easy"%string = Num e /\ at_level "Medium"%string = Num m
      /\ at_level "Hard"%string = Num h /\ at_level "Expert"%string = Num x
      /\ x <= h <= m /\ m <= e.
Proof.
  intros src questionText answerText at_level. unfold at_level.
  unfold Fallback.evaluateAnswerLocally; cbn [Fallback.score].
  unfold Fallback.capped_score.
  change (Fallback.cap_operand (lit "Easy")) with (Num 95).
  change (Fallback.cap_operand (lit "Medium")) with (Num 90).
  change (Fallback.cap_operand (lit "Hard")) with (Num 85).
  change (Fallback.cap_operand (lit "Expert")) with (Num 80).
  cbn [Math_min Math_max].
  do 4 eexists. repeat split; try reflexivity; lia.
Qed.

Lemma pick_index_mono (options : list jsstring) (r r' : Q) :
  (r <= r')%Q -> Fallback.pick_index options r <= Fallback.pick_index options r'.
Proof.
  intro H. unfold Fallback.pick_index, Math_floor, double_mul.
  apply Qfloor_resp_le, binary64_mono.
  apply Qmult_le_compat_r; [exact H |].
  change 0%Q with (inject_Z 0). rewrite <- Zle_Qle. lia.
Qed.

Lemma pick_index_0 (options : list jsstring) : Fallback.pick_index options 0 = 0.
Proof.
  unfold Fallback.pick_index, Math_floor, double_mul.
  rewrite (Qfloor_comp _ 0%Q); [reflexivity |].
  rewrite (binary64_comp _ 0%Q) by ring. reflexivity.
Qed.

(** The index stays within the array once it does at the largest double
    below 1, where the rounded product is still below the length. *)
Lemma pick_In (options : list jsstring) (r : Q) :
  Fallback.pick_index options below_one < Z.of_nat (length options) ->
  is_double r = true -> (0 <= r)%Q -> (r < 1)%Q ->
  In (Fallback.pick options r) options.
Proof.
  intros Htop Hd H0 H1. unfold Fallback.pick.
  pose proof (pick_index_mono options 0 r H0) as Hlo.
  rewrite pick_index_0 in Hlo.
  pose proof (pick_index_mono options r below_one (double_below_one r Hd H0 H1)) as Hhi.
  apply nth_In. lia.
Qed.

(** X3: With [Math.random] returning doubles from 0 (included) to 1
    (excluded), the three phrases of an evaluation come from the pools of
    the module (no index falls outside them, also after the rounding of the
    product of the value and the length), and the
    verdict matches the score: one of the three favourable sentences when
    the score is 70 or more, one of the three reserved ones otherwise. *)
Theorem evaluateAnswerLocally_phrases :
  forall (src : random_source) (questionText answerText difficulty : jsstring),
    valid_source src ->
    let evaluation :=
      Fallback.evaluateAnswerLocally src questionText answerText difficulty in
    In (Fallback.positive evaluation) Fallback.positiveOptions
    /\ In (Fallback.improve evaluation) Fallback.improveOptions
    /\ In (Fallback.brief evaluation)
         (if number_geb (Fallback.score evaluation) 70 then
            [ lit "Good answer. Keep this up!";
              lit "Strong response. Well articulated.";
              lit "Impressive answer. Shows solid understanding." ]
          else
            [ lit "Decent answer. A bit more depth would help.";
              lit "Fair response. Try to be more specific.";
              lit "Reasonable answer. Could use more examples." ]).
Proof.
  intros src questionText answerText difficulty Hsrc evaluation.
  unfold evaluation, Fallback.evaluateAnswerLocally;
    cbn [Fallback.positive Fallback.improve Fallback.brief Fallback.score].
  destruct (Hsrc 0%nat) as [Ad [A0 A1]], (Hsrc 1%nat) as [Bd [B0 B1]],
    (Hsrc 2%nat) as [Cd [C0 C1]].
  split; [apply pick_In; [vm_compute; reflexivity | assumption..] |].
  split; [apply pick_In; [vm_compute; reflexivity | assumption..] |].
  set (s := Fallback.capped_score answerText difficulty).
  assert (Hin : In (Fallback.pick (Fallback.briefOptions s) (src 2%nat))
                  (Fallback.briefOptions s)).
  { apply pick_In; [| assumption..].
    unfold Fallback.pick_index.
    change (length (Fallback.briefOptions s)) with 3%nat.
    vm_compute. reflexivity. }
  unfold Fallback.briefOptions in Hin at 2.
  destruct (number_geb s 70); exact Hin.
Qed.

Lemma evaluateAnswerLocally_phrases_witness :
  valid_source (fun _ => 1 # 2)
  /\ In (Fallback.brief
           (Fallback.evaluateAnswerLocally (fun _ => 1 # 2) (lit "Q")
              (lit "I improved throughput by 30% using caching, for example reducing latency.")
              (lit "Medium")))
       [ lit "Decent answer. A bit more depth would help.";
         lit "Fair response. Try to be more specific.";
         lit "Reasonable answer. Could use more examples." ].
Proof.
  assert (Hsrc : valid_source (fun _ => 1 # 2)).
  { intro i. split; [vm_compute; reflexivity |].
    split; unfold Qle, Qlt; simpl; lia. }
  split; [exact Hsrc |].
  exact (proj2 (proj2 (evaluateAnswerLocally_phrases (fun _ => 1 # 2) (lit "Q")
    (lit "I improved throughput by 30% using caching, for example reducing latency.")
    (lit "Medium") Hsrc))).
Defined.

(** *** The score does not depend on the case of the letters *)

Section LetterCase.
Variable fold_case : code_unit -> code_unit.
Hypothesis fold_white_space : forall c, is_white_space (fold_case c) = is_white_space c.
Hypothesis fold_terminator :
  forall c, Fallback.is_terminator (fold_case c) = Fallback.is_terminator c.
Hypothesis fold_digit : forall c, is_digit (fold_case c) = is_digit c.
Hypothesis fold_canonical : forall c, canonicalize (fold_case c) = canonicalize c.

Lemma trimStart_map (s : jsstring) :
  trimStart (map fold_case s) = map fold_case (trimStart s).
Proof.
  induction s as [| c s IH]; [reflexivity |].
  simpl. rewrite fold_white_space. destruct (is_white_space c); [exact IH | reflexivity].
Qed.

Lemma trimEnd_map (s : jsstring) :
  trimEnd (map fold_case s) = map fold_case (trimEnd s).
Proof.
  induction s as [| c s IH]; [reflexivity |].
  simpl. rewrite IH, fold_white_space.
  destruct (trimEnd s); simpl; [destruct (is_white_space c) |]; reflexivity.
Qed.

Lemma count_runs_map (p : code_unit -> bool) (s : jsstring) (b : bool) :
  (forall c, p (fold_case c) = p c) ->
  Spec.count_runs p b (map fold_case s) = Spec.count_runs p b s.
Proof.
  intro Hp. revert b. induction s as [| c s IH]; intro b; [reflexivity |].
  simpl. rewrite Hp, !IH. reflexivity.
Qed.

Lemma wordCount_map (s : jsstring) :
  Fallback.wordCount (map fold_case s) = Fallback.wordCount s.
Proof.
  unfold Fallback.wordCount, trim.
  rewrite trimStart_map, trimEnd_map, !split_plus_length.
  rewrite (count_runs_map _ _ _ fold_white_space). reflexivity.
Qed.

Lemma split_each_map (sep : code_unit -> bool) (s cur : jsstring) :
  (forall c, sep (fold_case c) = sep c) ->
  Spec.split_each sep (map fold_case cur) (map fold_case s)
  = map (map fold_case) (Spec.split_each sep cur s).
Proof.
  intro Hsep. revert cur. induction s as [| c s IH]; intro cur; simpl.
  - rewrite map_rev. reflexivity.
  - rewrite Hsep. destruct (sep c); simpl.
    + rewrite map_rev. f_equal. apply (IH []).
    + apply (IH (c :: cur)).
Qed.

Lemma forallb_white_space_map (seg : jsstring) :
  forallb is_white_space (map fold_case seg) = forallb is_white_space seg.
Proof.
  induction seg as [| c seg IH]; [reflexivity |].
  simpl. rewrite fold_white_space, IH. reflexivity.
Qed.

Lemma sentenceCount_map (s : jsstring) :
  Fallback.sentenceCount (map fold_case s) = Fallback.sentenceCount s.
Proof.
  rewrite !sentenceCount_sentences. unfold Spec.sentences.
  pose proof (split_each_map _ s [] fold_terminator) as Hsplit.
  change (map fold_case []) with (@nil code_unit) in Hsplit. rewrite Hsplit.
  clear Hsplit. f_equal.
  induction (Spec.split_each Fallback.is_terminator [] s) as [| seg l IH];
    [reflexivity |].
  simpl. rewrite forallb_white_space_map.
  destruct (forallb is_white_space seg); simpl; rewrite IH; reflexivity.
Qed.

Lemma hasNumbers_map (s : jsstring) :
  Fallback.hasNumbers (map fold_case s) = Fallback.hasNumbers s.
Proof.
  unfold Fallback.hasNumbers.
  induction s as [| c s IH]; [reflexivity |].
  simpl. rewrite fold_digit, IH. reflexivity.
Qed.

Lemma ci_prefix_map (pat s : jsstring) :
  ci_prefix pat (map fold_case s) = ci_prefix pat s.
Proof.
  revert s. induction pat as [| p pat IH]; intro s; [reflexivity |].
  destruct s as [| c s]; [reflexivity |].
  simpl. unfold ci_char. rewrite fold_canonical, IH. reflexivity.
Qed.

Lemma match_alt_map (alts : list jsstring) (s : jsstring) :
  match_alt alts (map fold_case s) = match_alt alts s.
Proof.
  induction alts as [| a alts IH]; [reflexivity |].
  simpl. rewrite ci_prefix_map, IH. reflexivity.
Qed.

Lemma regex_test_map (alts : list jsstring) (s : jsstring) :
  regex_test alts (map fold_case s) = regex_test alts s.
Proof.
  induction s as [| c s IH].
  - reflexivity.
  - change (map fold_case (c :: s)) with (fold_case c :: map fold_case s).
    cbn [regex_test].
    change (fold_case c :: map fold_case s) with (map fold_case (c :: s)).
    rewrite match_alt_map, IH. reflexivity.
Qed.

Lemma raw_score_map (s : jsstring) :
  Fallback.raw_score (map fold_case s) = Fallback.raw_score s.
Proof.
  unfold Fallback.raw_score, Fallback.hasSpecifics, Fallback.hasStructure.
  rewrite wordCount_map, sentenceCount_map, hasNumbers_map, !regex_test_map.
  reflexivity.
Qed.

End LetterCase.

Lemma letter_not_white_space (x : code_unit) :
  (65 <= x <= 122)%N -> is_white_space x = false.
Proof.
  intro H. destruct (is_white_space x) eqn:E; [| reflexivity].
  unfold is_white_space in E.
  rewrite !orb_true_iff, !andb_true_iff, !N.eqb_eq, !N.leb_le in E. lia.
Qed.

Lemma letter_not_terminator (x : code_unit) :
  (65 <= x <= 122)%N -> Fallback.is_terminator x = false.
Proof.
  intro H. destruct (Fallback.is_terminator x) eqn:E; [| reflexivity].
  unfold Fallback.is_terminator in E.
  rewrite !orb_true_iff, !N.eqb_eq in E. lia.
Qed.

Lemma letter_not_digit (x : code_unit) : (65 <= x <= 122)%N -> is_digit x = false.
Proof.
  intro H. destruct (is_digit x) eqn:E; [| reflexivity].
  unfold is_digit in E. rewrite andb_true_iff, !N.leb_le in E. lia.
Qed.

(** A predicate that no letter satisfies does not see a change of case. *)
Lemma case_change_unseen (p : code_unit -> bool) :
  (forall x, (65 <= x <= 122)%N -> p x = false) ->
  forall c, p (canonicalize c) = p c /\ p (Spec.to_lower c) = p c.
Proof.
  intros Hp c. unfold canonicalize, Spec.to_lower. split.
  - destruct (N.leb_spec 97 c), (N.leb_spec c 122); simpl; try reflexivity.
    rewrite !Hp by lia. reflexivity.
  - destruct (N.leb_spec 65 c), (N.leb_spec c 90); simpl; try reflexivity.
    rewrite !Hp by lia. reflexivity.
Qed.

Lemma canonicalize_idempotent (c : code_unit) :
  canonicalize (canonicalize c) = canonicalize c.
Proof.
  unfold canonicalize.
  destruct (N.leb_spec 97 c), (N.leb_spec c 122); simpl;
    destruct (N.leb_spec 97 (c - 32)), (N.leb_spec (c - 32) 122); simpl;
    try reflexivity; try lia;
    destruct (N.leb_spec 97 c), (N.leb_spec c 122); simpl; try reflexivity; lia.
Qed.

Lemma canonicalize_to_lower (c : code_unit) :
  canonicalize (Spec.to_lower c) = canonicalize c.
Proof.
  unfold canonicalize, Spec.to_lower.
  destruct (N.leb_spec 65 c), (N.leb_spec c 90); simpl; try reflexivity.
  destruct (N.leb_spec 97 (c + 32)), (N.leb_spec (c + 32) 122); simpl; try lia.
  destruct (N.leb_spec 97 c), (N.leb_spec c 122); simpl; lia.
Qed.

(** X4: Writing an answer in capitals, or in lower case, does not change its
    score: the evaluator counts words and sentences and looks for digits and
    for markers regardless of the case of the ASCII letters. *)
Theorem evaluateAnswerLocally_ignores_letter_case :
  forall (src src' : random_source) (q q' answerText difficulty : jsstring),
    Fallback.score
      (Fallback.evaluateAnswerLocally src q (map canonicalize answerText) difficulty)
    = Fallback.score (Fallback.evaluateAnswerLocally src' q' answerText difficulty)
    /\ Fallback.score
         (Fallback.evaluateAnswerLocally src q (map Spec.to_lower answerText) difficulty)
       = Fallback.score (Fallback.evaluateAnswerLocally src' q' answerText difficulty).
Proof.
  intros src src' q q' answerText difficulty.
  unfold Fallback.evaluateAnswerLocally; cbn [Fallback.score].
  unfold Fallback.capped_score.
  pose proof (case_change_unseen _ letter_not_white_space) as Hws.
  pose proof (case_change_unseen _ letter_not_terminator) as Hterm.
  pose proof (case_change_unseen _ letter_not_digit) as Hdig.
  split; f_equal; f_equal; f_equal.
  - apply raw_score_map;
      [intro c; apply Hws | intro c; apply Hterm | intro c; apply Hdig
       | exact canonicalize_idempotent].
  - apply raw_score_map;
      [intro c; apply Hws | intro c; apply Hterm | intro c; apply Hdig
       | exact canonicalize_to_lower].
Qed.

(** ** The local question selector *)

(** X5: The number of questions for every integer [numQuestions]: [slice] counts
    a negative end from the end of the array, so a request for -3 questions
    gets 12 of the 15, and only a request for -15 or fewer gets none.  The
    other case is the [TypeError], at the types that name a property of
    [Object.prototype]. *)
Theorem generateLocalQuestions_count_for_every_integer :
  forall (eng : engine) (src : random_source) (req : Fallback.SelectionRequest),
    match Fallback.generateLocalQuestions eng src req with
    | Normal result =>
        Z.of_nat (length result)
        = (if Fallback.numQuestions req <? 0
           then Z.max (15 + Fallback.numQuestions req) 0
           else Z.min (Fallback.numQuestions req) 15)
        /\ NoDup result
    | ThrowTypeError =>
        Spec.names_inherited_property (Fallback.interviewType req) = true
    end.
Proof.
  intros eng src req.
  destruct (Spec.names_inherited_property (Fallback.interviewType req)) eqn:Htype.
  - rewrite (proj2 (generateLocalQuestions_throws_iff eng src req) Htype). reflexivity.
  - unfold Fallback.generateLocalQuestions.
    rewrite (select_pool_pool_for _ Htype).
    set (pool := Spec.pool_for (Fallback.interviewType req)).
    destruct (pool_for_sound (Fallback.interviewType req)) as [Hlen [Hnd Hapart]].
    fold pool in Hlen, Hnd, Hapart.
    pose proof (run_sort_permutation (eng (length pool)) src O pool) as Hperm.
    fold (Fallback.shuffle eng src pool) in Hperm.
    set (shuffled := Fallback.shuffle eng src pool) in *.
    assert (Hsl : length shuffled = 15%nat)
      by (rewrite <- (Permutation_length Hperm); exact Hlen).
    assert (Hsnd : NoDup shuffled) by (apply (Permutation_NoDup Hperm Hnd)).
    assert (Hsub : forall k q, In q (firstn k shuffled) -> In q pool).
    { intros k q Hq. apply (Permutation_in q (Permutation_sym Hperm)).
      apply (firstn_In _ _ _ Hq). }
    rewrite add_role_context_length.
    unfold slice0. rewrite Hsl.
    destruct (Z.ltb_spec (Fallback.numQuestions req) 0).
    + split; [rewrite length_firstn, Hsl; lia |].
      apply (add_role_context_NoDup pool); [exact Hapart | | apply Hsub].
      apply firstn_NoDup. exact Hsnd.
    + split; [rewrite length_firstn, Hsl; lia |].
      apply (add_role_context_NoDup pool); [exact Hapart | | apply Hsub].
      apply firstn_NoDup. exact Hsnd.
Qed.

Lemma no_role_literal_in_technical_and_situational :
  forallb (fun q => negb (regex_test Fallback.role_patterns q)) Fallback.technical = true
  /\ forallb (fun q => negb (regex_test Fallback.role_patterns q)) Fallback.situational
     = true.
Proof. split; vm_compute; reflexivity. Qed.

(** X6: For the technical and the situational interviews the job role never
    shows: no question of these two pools holds one of the three literals,
    so every returned question, the first included, is a question of the
    bank as it is. *)
Theorem generateLocalQuestions_technical_situational_verbatim :
  forall (eng : engine) (src : random_source) (role difficulty : jsstring)
         (n : Z) (topic : option jsstring),
    Fallback.generateLocalQuestions eng src
      {| Fallback.jobRole := role; Fallback.interviewType := lit "technical";
         Fallback.difficulty := difficulty; Fallback.numQuestions := n;
         Fallback.topic := topic |}
    = Normal (slice0 n (Fallback.shuffle eng src Fallback.technical))
    /\ Fallback.generateLocalQuestions eng src
         {| Fallback.jobRole := role; Fallback.interviewType := lit "situational";
            Fallback.difficulty := difficulty; Fallback.numQuestions := n;
            Fallback.topic := topic |}
       = Normal (slice0 n (Fallback.shuffle eng src Fallback.situational))
    /\ (forall q, In q (slice0 n (Fallback.shuffle eng src Fallback.technical)) ->
                  In q Fallback.technical)
    /\ (forall q, In q (slice0 n (Fallback.shuffle eng src Fallback.situational)) ->
                  In q Fallback.situational).
Proof.
  intros eng src role difficulty n topic.
  destruct no_role_literal_in_technical_and_situational as [Ht Hs].
  rewrite forallb_forall in Ht, Hs.
  assert (Hin : forall (pool : list jsstring) q,
             In q (slice0 n (Fallback.shuffle eng src pool)) -> In q pool).
  { intros pool q Hq.
    apply (Permutation_in q
             (Permutation_sym (run_sort_permutation (eng (length pool)) src O pool))).
    unfold slice0 in Hq.
    destruct (n <? 0); apply (firstn_In _ _ _ Hq). }
  assert (Hsame : forall (pool : list jsstring),
             (forall q, In q pool -> negb (regex_test Fallback.role_patterns q) = true) ->
             Fallback.add_role_context role (slice0 n (Fallback.shuffle eng src pool))
             = slice0 n (Fallback.shuffle eng src pool)).
  { intros pool Hpool.
    pose proof (Hin pool) as Hsub.
    destruct (slice0 n (Fallback.shuffle eng src pool)) as [| q rest]; [reflexivity |].
    simpl. unfold replace_all.
    rewrite replace_go_unmatched; [reflexivity |].
    apply negb_true_iff, Hpool, Hsub. left. reflexivity. }
  split; [| split; [| split; apply Hin]].
  - unfold Fallback.generateLocalQuestions.
    change (Fallback.select_pool _) with (@Own (list jsstring) Fallback.technical).
    cbn [Fallback.numQuestions Fallback.jobRole]. rewrite (Hsame _ Ht). reflexivity.
  - unfold Fallback.generateLocalQuestions.
    change (Fallback.select_pool _) with (@Own (list jsstring) Fallback.situational).
    cbn [Fallback.numQuestions Fallback.jobRole]. rewrite (Hsame _ Hs). reflexivity.
Qed.

Lemma only_opening_question_has_role_literal :
  forallb (fun q => negb (regex_test Fallback.role_patterns q)) (tl Fallback.behavioral)
  = true
  /\ forallb (fun q => negb (regex_test Fallback.role_patterns q)) (tl Fallback.mixed)
     = true.
Proof. split; vm_compute; reflexivity. Qed.

(** X7: In the behavioral and mixed interviews the job role shows only in the
    question "Tell me about yourself ...", and only when the shuffle puts it
    first: whenever another question comes first, the result is the selected
    bank questions as they are. *)
Theorem generateLocalQuestions_role_only_in_opening_question :
  forall (eng : engine) (src : random_source) (req : Fallback.SelectionRequest)
         (pool : list jsstring) (first : jsstring) (rest : list jsstring),
    Fallback.select_pool (Fallback.interviewType req) = Own pool ->
    slice0 (Fallback.numQuestions req) (Fallback.shuffle eng src pool) = first :: rest ->
    first <> lit "Tell me about yourself and what makes you a good fit for this role." ->
    first <> lit "Tell me about yourself and your experience in this field." ->
    Fallback.generateLocalQuestions eng src req = Normal (first :: rest).
Proof.
  intros eng src req pool first rest Hpool Hsel Hb Hm.
  unfold Fallback.generateLocalQuestions. rewrite Hpool, Hsel.
  simpl. unfold replace_all. rewrite replace_go_unmatched; [reflexivity |].
  assert (Hin : In first pool).
  { apply (Permutation_in first
             (Permutation_sym (run_sort_permutation (eng (length pool)) src O pool))).
    fold (Fallback.shuffle eng src pool).
    assert (Hi : In first (slice0 (Fallback.numQuestions req)
                             (Fallback.shuffle eng src pool)))
      by (rewrite Hsel; left; reflexivity).
    unfold slice0 in Hi.
    destruct (Fallback.numQuestions req <? 0); apply (firstn_In _ _ _ Hi). }
  assert (Hcases : pool = Fallback.behavioral \/ pool = Fallback.technical
                   \/ pool = Fallback.situational \/ pool = Fallback.mixed).
  { destruct (Spec.names_inherited_property (Fallback.interviewType req)) eqn:E.
    - apply (generateLocalQuestions_throws_iff eng src req) in E.
      unfold Fallback.generateLocalQuestions in E. rewrite Hpool in E. discriminate.
    - rewrite (select_pool_pool_for _ E) in Hpool. injection Hpool as <-.
      unfold Spec.pool_for.
      destruct (jsstring_eqb _ (lit "behavioral")); [auto |].
      destruct (jsstring_eqb _ (lit "technical")); [auto |].
      destruct (jsstring_eqb _ (lit "situational")); auto. }
  destruct no_role_literal_in_technical_and_situational as [Ht Hs].
  destruct only_opening_question_has_role_literal as [Hbe Hmi].
  rewrite forallb_forall in Ht, Hs, Hbe, Hmi.
  apply negb_true_iff.
  destruct Hcases as [-> | [-> | [-> | ->]]].
  - destruct Hin as [Heq | Hin]; [symmetry in Heq; contradiction | apply Hbe, Hin].
  - apply Ht, Hin.
  - apply Hs, Hin.
  - destruct Hin as [Heq | Hin]; [symmetry in Heq; contradiction | apply Hmi, Hin].
Qed.

Lemma generateLocalQuestions_role_only_in_opening_question_witness :
  Fallback.generateLocalQuestions insertion_engine (fun _ => 1 # 4)
    {| Fallback.jobRole := lit "Nurse"; Fallback.interviewType := lit "behavioral";
       Fallback.difficulty := lit "Easy"; Fallback.numQuestions := 2;
       Fallback.topic := None |}
  = Normal
      [ lit "Tell me about a time you failed. What did you learn from the experience?";
        lit "Describe a time when you had to make a difficult decision with limited information." ].
Proof.
  apply (generateLocalQuestions_role_only_in_opening_question insertion_engine
           (fun _ => 1 # 4)
           {| Fallback.jobRole := lit "Nurse"; Fallback.interviewType := lit "behavioral";
              Fallback.difficulty := lit "Easy"; Fallback.numQuestions := 2;
              Fallback.topic := None |}
           Fallback.behavioral).
  - reflexivity.
  - vm_compute. reflexivity.
  - vm_compute. discriminate.
  - vm_compute. discriminate.
Defined.

(** ** The local report *)

Lemma sum_within (scores : list Z) (lo hi : Z) :
  (forall z, In z scores -> lo <= z <= hi) ->
  Z.of_nat (length scores) * lo <= fold_right Z.add 0 scores
  <= Z.of_nat (length scores) * hi.
Proof.
  induction scores as [| z scores IH]; intro H; [simpl; lia |].
  assert (Hz : lo <= z <= hi) by (apply H; left; reflexivity).
  assert (Hrest : forall y, In y scores -> lo <= y <= hi)
    by (intros y Hy; apply H; right; exact Hy).
  specialize (IH Hrest).
  change (fold_right Z.add 0 (z :: scores)) with (z + fold_right Z.add 0 scores).
  rewrite (Nat2Z.inj_succ (length scores) : Z.of_nat (length (z :: scores)) = _).
  lia.
Qed.

Lemma avgScore_rounded_mean (qas : list Fallback.qa) :
  match Fallback.truthy_scores qas with
  | [] => Fallback.avgScore qas = 60
  | scores =>
      Spec.rounded_mean (fold_right Z.add 0 scores) (Z.of_nat (length scores))
        (Fallback.avgScore qas)
  end.
Proof.
  unfold Fallback.avgScore.
  destruct (Fallback.truthy_scores qas) as [| z scores]; [reflexivity |].
  rewrite <- sum_scores_fold_right.
  generalize (Fallback.sum_scores (z :: scores)); intro total.
  change (length (z :: scores)) with (S (length scores)).
  cbv iota beta zeta.
  change (Z.of_nat (S (length scores)))
    with (Z.pos (Pos.of_succ_nat (length scores))).
  apply Math_round_is_rounded_mean.
Qed.

(** X8: The overall score of the local report lies within every range that
    holds the scores it averages and the default 60 of a report without
    scores: with scores from 1 to 100 it is from 1 to 100. *)
Theorem generateReportLocally_overallScore_within_scores :
  forall (src : random_source) (iv : Fallback.interview) (qas : list Fallback.qa)
         (lo hi : Z),
    lo <= 60 <= hi ->
    (forall z, In z (Fallback.truthy_scores qas) -> lo <= z <= hi) ->
    lo <= Fallback.overallScore (Fallback.generateReportLocally src iv qas) <= hi.
Proof.
  intros src iv qas lo hi H60 Hall.
  unfold Fallback.generateReportLocally; cbn [Fallback.overallScore].
  pose proof (avgScore_rounded_mean qas) as Hmean.
  destruct (Fallback.truthy_scores qas) as [| z scores] eqn:E; [lia |].
  pose proof (sum_within (z :: scores) lo hi Hall) as Hsum.
  unfold Spec.rounded_mean in Hmean.
  set (a := Fallback.avgScore qas) in *.
  set (n := Z.of_nat (length (z :: scores))) in *.
  assert (Hn : 0 < n) by (unfold n; simpl; lia).
  set (total := fold_right Z.add 0 (z :: scores)) in *.
  split; nia.
Qed.

Lemma generateReportLocally_overallScore_within_scores_witness :
  1 <= Fallback.overallScore
         (Fallback.generateReportLocally (fun _ => 0%Q)
            {| Fallback.job_role := lit "Nurse";
               Fallback.interview_type := lit "mixed";
               Fallback.interview_difficulty := lit "Easy" |}
            [ {| Fallback.question_text := lit "Q1";
                 Fallback.answer_text := Some (lit "first answer");
                 Fallback.qa_score := Some 55 |};
              {| Fallback.question_text := lit "Q2";
                 Fallback.answer_text := Some (lit "second answer");
                 Fallback.qa_score := Some 0 |};
              {| Fallback.question_text := lit "Q3";
                 Fallback.answer_text := Some (lit "third answer");
                 Fallback.qa_score := Some 90 |} ]) <= 100.
Proof.
  apply generateReportLocally_overallScore_within_scores.
  - lia.
  - simpl. intros z [<- | [<- | []]]; lia.
Defined.

(** X9: When the overall score is from 0 to 100, as it is with scores in that
    range, no sub-skill is farther from it than its range: communication,
    relevance and structure within 10, confidence within 8, depth within
    12; the clamp to the range from 0 to 100 only brings a score closer.
    The upper ends hold for the products and the difference as the doubles
    round them: at the largest double below 1 the offset is still one less
    than the range. *)
Theorem generateReportLocally_skills_near_overallScore :
  forall (src : random_source) (iv : Fallback.interview) (qas : list Fallback.qa),
    valid_source src ->
    0 <= Fallback.overallScore (Fallback.generateReportLocally src iv qas) <= 100 ->
    let report := Fallback.generateReportLocally src iv qas in
    let avg := Fallback.overallScore report in
    avg - 10 <= Fallback.communication report <= avg + 9
    /\ avg - 10 <= Fallback.relevance report <= avg + 9
    /\ avg - 8 <= Fallback.confidence report <= avg + 7
    /\ avg - 10 <= Fallback.structure report <= avg + 9
    /\ avg - 12 <= Fallback.depth report <= avg + 11.
Proof.
  intros src iv qas Hsrc Havg report avg.
  assert (Ha : 0 <= Fallback.avgScore qas <= 100) by exact Havg.
  subst avg report. clear Havg.
  unfold Fallback.generateReportLocally;
    cbn [Fallback.communication Fallback.relevance Fallback.confidence
           Fallback.structure Fallback.depth Fallback.overallScore].
  assert (Hvary : forall i range, 8 <= range <= 15 ->
            Fallback.avgScore qas - range
            <= Fallback.vary (src i) (Fallback.avgScore qas) range
            <= Fallback.avgScore qas + (range - 1)).
  { intros i range Hrange. destruct (Hsrc i) as [Hd [H0 H1]].
    pose proof (jitter_bounds range (src i) Hrange Hd H0 H1) as Hj.
    unfold Fallback.vary. lia. }
  pose proof (Hvary 0%nat 10 ltac:(lia)). pose proof (Hvary 1%nat 10 ltac:(lia)).
  pose proof (Hvary 2%nat 8 ltac:(lia)). pose proof (Hvary 3%nat 10 ltac:(lia)).
  pose proof (Hvary 4%nat 12 ltac:(lia)).
  repeat split; lia.
Qed.

Lemma generateReportLocally_skills_near_overallScore_witness :
  60 - 12 <= Fallback.depth
               (Fallback.generateReportLocally (fun _ => 1 # 4)
                  {| Fallback.job_role := lit "Nurse";
                     Fallback.interview_type := lit "mixed";
                     Fallback.interview_difficulty := lit "Easy" |} [])
  <= 60 + 11.
Proof.
  assert (Hsrc : valid_source (fun _ => 1 # 4)).
  { intro i. split; [vm_compute; reflexivity |].
    split; unfold Qle, Qlt; simpl; lia. }
  refine (proj2 (proj2 (proj2 (proj2
    (generateReportLocally_skills_near_overallScore (fun _ => 1 # 4)
       {| Fallback.job_role := lit "Nurse";
          Fallback.interview_type := lit "mixed";
          Fallback.interview_difficulty := lit "Easy" |} [] Hsrc _))))).
  vm_compute. split; discriminate.
Defined.

(** ** [callGemini] *)

(** X10: The loop condition is tested at most four times: with that much fuel
    [callGemini] returns, and more fuel changes nothing.  It calls [fetch] at
    most three times, waits 10 seconds after a first 429 and 20 after a
    second, and never throws "rate limit exceeded after retries": the
    statement after the loop is never reached, because the third attempt
    does not retry.  Without a configured key it throws before any call. *)
Theorem callGemini_retries_are_bounded :
  forall (extra : nat) (apiKey : option jsstring) (prompt : jsstring)
         (temperature : Q) (network : nat -> option Gemini.response),
    exists result trace,
      Gemini.callGemini (4 + extra) apiKey prompt temperature network
      = Some (result, trace)
      /\ Gemini.callGemini 4 apiKey prompt temperature network = Some (result, trace)
      /\ (Gemini.fetches trace <= 3)%nat
      /\ (Gemini.waits trace = [] \/ Gemini.waits trace = [10]
          \/ Gemini.waits trace = [10; 20])
      /\ length (Gemini.waits trace) = pred (Gemini.fetches trace + Nat.b2n (Gemini.key_missing apiKey))
      /\ result <> Gemini.Throw Gemini.RateLimitExceeded
      /\ (if Gemini.key_missing apiKey
          then result = Gemini.Throw Gemini.KeyNotConfigured /\ trace = []
          else (1 <= Gemini.fetches trace)%nat).
Proof.
  intros extra apiKey prompt temperature network.
  unfold Gemini.callGemini.
  destruct (Gemini.key_missing apiKey).
  { exists (Gemini.Throw Gemini.KeyNotConfigured), [].
    repeat split; try reflexivity; try discriminate; try (simpl; lia); auto. }
  change (4 + extra)%nat with (S (S (S (S extra)))).
  cbn [Gemini.attempts].
  change (1 <=? Gemini.MAX_RETRIES) with true.
  change (1 + 1 <=? Gemini.MAX_RETRIES) with true.
  change (1 + 1 + 1 <=? Gemini.MAX_RETRIES) with true.
  change (1 <? Gemini.MAX_RETRIES) with true.
  change (1 + 1 <? Gemini.MAX_RETRIES) with true.
  change (1 + 1 + 1 <? Gemini.MAX_RETRIES) with false.
  cbv iota.
  assert (Hlast : forall (r : Gemini.response),
             exists result,
               match Gemini.body r with
               | Some data =>
                   if negb (Gemini.ok r)
                   then Some (Gemini.Throw (Gemini.api_error r data),
                              [Gemini.Fetch prompt temperature])
                   else
                     match Gemini.candidate_text data with
                     | Some (c :: text) =>
                         Some (Gemini.Text (c :: text), [Gemini.Fetch prompt temperature])
                     | _ => Some (Gemini.Throw Gemini.EmptyResponse,
                                  [Gemini.Fetch prompt temperature])
                     end
               | None => Some (Gemini.Throw Gemini.ReplyUnreadable,
                               [Gemini.Fetch prompt temperature])
               end = Some (result, [Gemini.Fetch prompt temperature])
               /\ result <> Gemini.Throw Gemini.RateLimitExceeded).
  { intro r. destruct (Gemini.body r) as [data |].
    - destruct (negb (Gemini.ok r)).
      + eexists; split; [reflexivity |].
        unfold Gemini.api_error.
        destruct (Gemini.error_message data) as [[| c m] |]; discriminate.
      + destruct (Gemini.candidate_text data) as [[| c text] |];
          eexists; split; try reflexivity; discriminate.
    - eexists; split; [reflexivity | discriminate]. }
  assert (Hdone : forall result trace,
             result <> Gemini.Throw Gemini.RateLimitExceeded ->
             (1 <= Gemini.fetches trace <= 3)%nat ->
             (Gemini.waits trace = [] /\ Gemini.fetches trace = 1%nat
              \/ Gemini.waits trace = [10] /\ Gemini.fetches trace = 2%nat
              \/ Gemini.waits trace = [10; 20] /\ Gemini.fetches trace = 3%nat) ->
             exists result' trace',
               Some (result, trace) = Some (result', trace')
               /\ Some (result, trace) = Some (result', trace')
               /\ (Gemini.fetches trace' <= 3)%nat
               /\ (Gemini.waits trace' = [] \/ Gemini.waits trace' = [10]
                   \/ Gemini.waits trace' = [10; 20])
               /\ length (Gemini.waits trace')
                  = pred (Gemini.fetches trace' + Nat.b2n false)
               /\ result' <> Gemini.Throw Gemini.RateLimitExceeded
               /\ (1 <= Gemini.fetches trace')%nat).
  { intros result trace Hne Hf Hw. exists result, trace.
    repeat split; try assumption; try lia.
    - destruct Hw as [[-> _] | [[-> _] | [-> _]]]; auto.
    - destruct Hw as [[-> ->] | [[-> ->] | [-> ->]]]; reflexivity. }
  destruct (network 0%nat) as [r0 |];
    [| apply Hdone; [discriminate | unfold Gemini.fetches; simpl; lia | left; split; reflexivity]].
  rewrite andb_true_r.
  destruct (Gemini.status r0 =? 429).
  2: { destruct (Hlast r0) as [result [-> Hne]].
       apply Hdone; [exact Hne | unfold Gemini.fetches; simpl; lia | left; split; reflexivity]. }
  destruct (network 1%nat) as [r1 |];
    [| apply Hdone; [discriminate | unfold Gemini.fetches; simpl; lia | right; left; split; reflexivity]].
  rewrite andb_true_r.
  destruct (Gemini.status r1 =? 429).
  2: { destruct (Hlast r1) as [result [-> Hne]].
       apply Hdone; [exact Hne | unfold Gemini.fetches; simpl; lia | right; left; split; reflexivity]. }
  destruct (network 2%nat) as [r2 |];
    [| apply Hdone; [discriminate | unfold Gemini.fetches; simpl; lia | right; right; split; reflexivity]].
  rewrite andb_false_r.
  destruct (Hlast r2) as [result [-> Hne]].
  apply Hdone; [exact Hne | unfold Gemini.fetches; simpl; lia | right; right; split; reflexivity].
Qed.

(** X11: A text that [callGemini] returns is the non-empty candidate text of an
    [ok] response, the first response that was not a retried 429. *)
Theorem callGemini_text_comes_from_ok_response :
  forall (apiKey : option jsstring) (prompt : jsstring) (temperature : Q)
         (network : nat -> option Gemini.response) (text : jsstring)
         (trace : list Gemini.effect),
    Gemini.callGemini 4 apiKey prompt temperature network
    = Some (Gemini.Text text, trace) ->
    exists (i : nat) (r : Gemini.response) (data : Gemini.reply),
      (i < 3)%nat /\ network i = Some r /\ Gemini.ok r = true
      /\ Gemini.body r = Some data /\ Gemini.candidate_text data = Some text
      /\ text <> [] /\ Gemini.fetches trace = S i
      /\ Gemini.key_missing apiKey = false
      /\ forall j, (j < i)%nat ->
                   exists rj, network j = Some rj /\ Gemini.status rj = 429.
Proof.
  intros apiKey prompt temperature network text trace.
  unfold Gemini.callGemini.
  destruct (Gemini.key_missing apiKey); [discriminate |].
  cbn [Gemini.attempts].
  change (1 <=? Gemini.MAX_RETRIES) with true.
  change (1 + 1 <=? Gemini.MAX_RETRIES) with true.
  change (1 + 1 + 1 <=? Gemini.MAX_RETRIES) with true.
  change (1 <? Gemini.MAX_RETRIES) with true.
  change (1 + 1 <? Gemini.MAX_RETRIES) with true.
  change (1 + 1 + 1 <? Gemini.MAX_RETRIES) with false.
  cbv iota.
  assert (Hlast : forall (r : Gemini.response) (tr : list Gemini.effect),
             match Gemini.body r with
             | Some data =>
                 if negb (Gemini.ok r)
                 then Some (Gemini.Throw (Gemini.api_error r data),
                            [Gemini.Fetch prompt temperature])
                 else
                   match Gemini.candidate_text data with
                   | Some (c :: text) =>
                       Some (Gemini.Text (c :: text), [Gemini.Fetch prompt temperature])
                   | _ => Some (Gemini.Throw Gemini.EmptyResponse,
                                [Gemini.Fetch prompt temperature])
                   end
             | None => Some (Gemini.Throw Gemini.ReplyUnreadable,
                             [Gemini.Fetch prompt temperature])
             end = Some (Gemini.Text text, tr) ->
             exists data, Gemini.ok r = true /\ Gemini.body r = Some data
                          /\ Gemini.candidate_text data = Some text /\ text <> []
                          /\ tr = [Gemini.Fetch prompt temperature]).
  { intros r tr H. destruct (Gemini.body r) as [data |] eqn:Eb; [| discriminate].
    destruct (Gemini.ok r) eqn:Eo; simpl in H; [| discriminate].
    destruct (Gemini.candidate_text data) as [[| c t] |] eqn:Et; try discriminate.
    injection H as <- <-. exists data.
    split; [reflexivity |]. split; [reflexivity |]. split; [exact Et |].
    split; [discriminate | reflexivity]. }
  destruct (network 0%nat) as [r0 |] eqn:N0; [| discriminate].
  rewrite andb_true_r.
  destruct (Gemini.status r0 =? 429) eqn:S0.
  2: { intro H. apply Hlast in H. destruct H as [data [Hok [Hb [Ht [Hne ->]]]]].
       exists 0%nat, r0, data. repeat split; auto; try lia. }
  apply Z.eqb_eq in S0.
  destruct (network 1%nat) as [r1 |] eqn:N1; [| discriminate].
  rewrite andb_true_r.
  destruct (Gemini.status r1 =? 429) eqn:S1.
  2: { destruct (match Gemini.body r1 with Some _ => _ | None => _ end)
         as [[res tr] |] eqn:E; [| discriminate].
       intro H. injection H as -> <-.
       apply Hlast in E. destruct E as [data [Hok [Hb [Ht [Hne ->]]]]].
       exists 1%nat, r1, data. repeat split; auto; try lia.
       intros j Hj. assert (j = 0%nat) by lia. subst j. exists r0. auto. }
  apply Z.eqb_eq in S1.
  destruct (network 2%nat) as [r2 |] eqn:N2; [| discriminate].
  rewrite andb_false_r.
  destruct (match Gemini.body r2 with Some _ => _ | None => _ end)
    as [[res tr] |] eqn:E; [| discriminate].
  intro H. injection H as -> <-.
  apply Hlast in E. destruct E as [data [Hok [Hb [Ht [Hne ->]]]]].
  exists 2%nat, r2, data. repeat split; auto; try lia.
  intros j Hj.
  assert (Hj' : j = 0%nat \/ j = 1%nat) by lia.
  destruct Hj' as [-> | ->]; [exists r0 | exists r1]; auto.
Qed.

Lemma callGemini_text_comes_from_ok_response_witness :
  exists (i : nat) (r : Gemini.response) (data : Gemini.reply),
    (i < 3)%nat
    /\ (fun n => match n with
                 | O => Some {| Gemini.status := 429; Gemini.body := None |}
                 | _ => Some {| Gemini.status := 200;
                                Gemini.body :=
                                  Some {| Gemini.error_message := None;
                                          Gemini.candidate_text := Some (lit "[]") |} |}
                 end) i = Some r
    /\ Gemini.ok r = true.
Proof.
  destruct (callGemini_text_comes_from_ok_response (Some (lit "key")) (lit "prompt")
              (7 # 10)
              (fun n => match n with
                        | O => Some {| Gemini.status := 429; Gemini.body := None |}
                        | _ => Some {| Gemini.status := 200;
                                       Gemini.body :=
                                         Some {| Gemini.error_message := None;
                                                 Gemini.candidate_text := Some (lit "[]") |} |}
                        end)
              (lit "[]")
              [Gemini.Fetch (lit "prompt") (7 # 10); Gemini.Wait 10;
               Gemini.Fetch (lit "prompt") (7 # 10)] eq_refl)
    as [i [r [data [Hi [Hn [Hok _]]]]]].
  exists i, r, data. auto.
Defined.

(** X12: Under a lasting rate limit the caller does not get the rate-limit
    message of the module: after three responses with status 429 and waits
    of 10 and 20 seconds, the error is the one of the API reply, its message
    or "Gemini API error: 429". *)
Theorem callGemini_three_rate_limits :
  forall (apiKey : option jsstring) (prompt : jsstring) (temperature : Q)
         (network : nat -> option Gemini.response)
         (r0 r1 r2 : Gemini.response) (data : Gemini.reply),
    Gemini.key_missing apiKey = false ->
    network 0%nat = Some r0 -> network 1%nat = Some r1 -> network 2%nat = Some r2 ->
    Gemini.status r0 = 429 -> Gemini.status r1 = 429 -> Gemini.status r2 = 429 ->
    Gemini.body r2 = Some data ->
    Gemini.callGemini 4 apiKey prompt temperature network
    = Some (Gemini.Throw (match Gemini.error_message data with
                          | Some (c :: m) => Gemini.ApiError (c :: m)
                          | _ => Gemini.ApiStatus 429
                          end),
            [ Gemini.Fetch prompt temperature; Gemini.Wait 10;
              Gemini.Fetch prompt temperature; Gemini.Wait 20;
              Gemini.Fetch prompt temperature ]).
Proof.
  intros apiKey prompt temperature network r0 r1 r2 data Hkey N0 N1 N2 S0 S1 S2 Hb.
  unfold Gemini.callGemini. rewrite Hkey.
  cbn [Gemini.attempts].
  rewrite N0, N1, N2, S0, S1, S2, Hb.
  unfold Gemini.ok, Gemini.api_error. rewrite S2. reflexivity.
Qed.

Lemma callGemini_three_rate_limits_witness :
  Gemini.callGemini 4 (Some (lit "key")) (lit "prompt") (7 # 10)
    (fun _ => Some {| Gemini.status := 429;
                      Gemini.body := Some {| Gemini.error_message := Some (lit "Quota exceeded");
                                             Gemini.candidate_text := None |} |})
  = Some (Gemini.Throw (Gemini.ApiError (lit "Quota exceeded")),
          [ Gemini.Fetch (lit "prompt") (7 # 10); Gemini.Wait 10;
            Gemini.Fetch (lit "prompt") (7 # 10); Gemini.Wait 20;
            Gemini.Fetch (lit "prompt") (7 # 10) ]).
Proof.
  exact (callGemini_three_rate_limits (Some (lit "key")) (lit "prompt") (7 # 10)
           (fun _ => Some {| Gemini.status := 429;
                             Gemini.body := Some {| Gemini.error_message := Some (lit "Quota exceeded");
                                                    Gemini.candidate_text := None |} |})
           _ _ _ _ eq_refl eq_refl eq_refl eq_refl eq_refl eq_refl eq_refl eq_refl).
Defined.

(** ** [parseGeminiJSON] *)

Lemma ci_char_backtick (c : code_unit) :
  (c =? 96)%N = false -> ci_char 96%N c = false.
Proof.
  intro H. apply N.eqb_neq in H. unfold ci_char.
  change (canonicalize 96%N) with 96%N. unfold canonicalize.
  destruct (N.leb_spec 97 c), (N.leb_spec c 122); cbn [andb];
    apply N.eqb_neq; lia.
Qed.

Lemma match_alt_no_backtick (alts : list jsstring) (c : code_unit) (s : jsstring) :
  forallb Gemini.begins_with_backtick alts = true ->
  (c =? 96)%N = false ->
  match_alt alts (c :: s) = None.
Proof.
  intros Halts Hc. induction alts as [| a alts IH]; [reflexivity |].
  simpl in Halts. apply andb_true_iff in Halts. destruct Halts as [Ha Halts].
  destruct a as [| p a]; [discriminate |].
  simpl in Ha. apply N.eqb_eq in Ha. subst p.
  cbn [match_alt ci_prefix]. rewrite (ci_char_backtick c Hc). simpl.
  apply IH. exact Halts.
Qed.

(** The scan copies a beginning that holds no backtick. *)
Lemma replace_go_backtick_free_prefix (alts : list jsstring) (tmpl s t seen : jsstring) :
  forallb Gemini.begins_with_backtick alts = true ->
  Gemini.backtick_free s = true ->
  replace_go alts tmpl seen O (s ++ t) = s ++ replace_go alts tmpl (rev s ++ seen) O t.
Proof.
  intros Halts. revert seen. induction s as [| c s IH]; intros seen Hs; [reflexivity |].
  unfold Gemini.backtick_free in Hs. simpl in Hs.
  apply andb_true_iff in Hs. destruct Hs as [Hc Hs]. apply negb_true_iff in Hc.
  change ((c :: s) ++ t) with (c :: (s ++ t)).
  cbn [replace_go]. rewrite (match_alt_no_backtick alts c (s ++ t) Halts Hc).
  rewrite (IH (c :: seen) Hs). simpl. rewrite <- app_assoc. reflexivity.
Qed.

(** The scan passes over the characters of a match. *)
Lemma replace_go_skip (alts : list jsstring) (tmpl u t seen : jsstring) :
  replace_go alts tmpl seen (length u) (u ++ t)
  = replace_go alts tmpl (rev u ++ seen) O t.
Proof.
  revert seen. induction u as [| c u IH]; intro seen; [reflexivity |].
  simpl. rewrite (IH (c :: seen)), <- app_assoc. reflexivity.
Qed.

Lemma ci_prefix_app (pat s t : jsstring) :
  ci_prefix pat s = true -> ci_prefix pat (s ++ t) = true.
Proof.
  revert s. induction pat as [| p pat IH]; intros s H; [reflexivity |].
  destruct s as [| c s]; [discriminate |].
  simpl in *. apply andb_true_iff in H. destruct H as [Hc Hs].
  rewrite Hc, (IH s Hs). reflexivity.
Qed.

Lemma replace_all_backtick_free (alts : list jsstring) (tmpl s : jsstring) :
  forallb Gemini.begins_with_backtick alts = true ->
  Gemini.backtick_free s = true ->
  replace_all alts tmpl s = s.
Proof.
  intros Halts Hs. unfold replace_all.
  pose proof (replace_go_backtick_free_prefix alts tmpl s [] [] Halts Hs) as H.
  rewrite app_nil_r in H. rewrite H. simpl. apply app_nil_r.
Qed.

(** X13: A reply without a backtick is only trimmed; and a reply that is one
    fenced block, opened by the fence with "json" in any case and closed by
    a fence, with no backtick between them, is cleaned to the trimmed text
    between the fences. *)
Theorem parseGeminiJSON_clean_unwraps_fence :
  forall (fence body : jsstring),
    Gemini.backtick_free body = true ->
    ci_prefix (lit "```json") fence = true ->
    length fence = 7%nat ->
    Gemini.clean body = trim body
    /\ Gemini.clean (fence ++ body ++ lit "```") = trim body.
Proof.
  intros fence body Hbody Hfence Hlen. unfold Gemini.clean. split.
  - rewrite (replace_all_backtick_free [lit "```json"] [] body eq_refl Hbody).
    rewrite (replace_all_backtick_free [lit "```"] [] body eq_refl Hbody).
    reflexivity.
  - unfold replace_all. destruct fence as [| c u]; [discriminate |].
    assert (Hu : length u = 6%nat) by (simpl in Hlen; lia).
    assert (Hm : match_alt [lit "```json"] ((c :: u) ++ body ++ lit "```")
                 = Some (lit "```json")).
    { cbn [match_alt]. rewrite (ci_prefix_app _ _ _ Hfence). reflexivity. }
    change ((c :: u) ++ body ++ lit "```") with (c :: (u ++ body ++ lit "```")) in *.
    cbn [replace_go]. rewrite Hm.
    change (pred (length (lit "```json"))) with 6%nat. rewrite <- Hu.
    cbn [expand app]. rewrite replace_go_skip.
    rewrite replace_go_backtick_free_prefix by (assumption || reflexivity).
    replace (replace_go [lit "```json"] [] (rev body ++ rev u ++ [c]) 0 (lit "```"))
      with (lit "```") by reflexivity.
    rewrite replace_go_backtick_free_prefix by (assumption || reflexivity).
    replace (replace_go [lit "```"] [] (rev body ++ []) 0 (lit "```"))
      with (@nil code_unit) by reflexivity.
    rewrite app_nil_r. reflexivity.
Qed.

Lemma parseGeminiJSON_clean_unwraps_fence_witness :
  Gemini.clean (lit "```JSON
[]
" ++ lit "```") = lit "[]".
Proof.
  refine (eq_trans _ (eq_trans
    (proj2 (parseGeminiJSON_clean_unwraps_fence (lit "```JSON") (lit "
[]
") eq_refl eq_refl eq_refl)) _)); reflexivity.
Defined.


(** ** More of the proctoring *)

(** While the cooldown is engaged, events other than an activation and the
    end of the cooldown show nothing and leave the counter as it is. *)
Lemma cooling_down_is_silent (events : list Proctor.event) (st : Proctor.state) :
  Proctor.proctorCooldown st = true ->
  forallb App.keeps_cooldown events = true ->
  snd (Proctor.run st events) = []
  /\ Proctor.proctorWarnings (fst (Proctor.run st events)) = Proctor.proctorWarnings st.
Proof.
  revert st. induction events as [| e events IH]; intros st Hc He; [split; reflexivity |].
  simpl in He. apply andb_true_iff in He. destruct He as [He Hrest].
  assert (Hstep : Proctor.proctorCooldown (fst (Proctor.step st e)) = true
                  /\ snd (Proctor.step st e) = []
                  /\ Proctor.proctorWarnings (fst (Proctor.step st e))
                     = Proctor.proctorWarnings st).
  { destruct st as [w a c]. simpl in Hc. subst c.
    destruct e as [| | reason |]; try discriminate; simpl.
    - unfold Proctor.stopProctoring; simpl. destruct a; auto.
    - unfold Proctor.handleProctorViolation; simpl.
      rewrite orb_true_r. simpl. auto. }
  destruct Hstep as [Hc' [Hout Hw]].
  simpl. destruct (Proctor.step st e) as [st1 out1]; simpl in *.
  destruct (IH st1 Hc' Hrest) as [Hout' Hw'].
  destruct (Proctor.run st1 events) as [st2 out2]; simpl in *.
  subst. split; [reflexivity | congruence].
Qed.

(** X14: The cooldown debounces: between two ends of a cooldown, and without a
    new activation, at most one violation is counted and shown, however many
    are reported. *)
Theorem proctoring_cooldown_debounces :
  forall (st : Proctor.state) (events : list Proctor.event),
    forallb App.keeps_cooldown events = true ->
    (length (snd (Proctor.run st events)) <= 1)%nat
    /\ Proctor.proctorWarnings st
       <= Proctor.proctorWarnings (fst (Proctor.run st events))
       <= Proctor.proctorWarnings st + 1.
Proof.
  intros st events. revert st.
  induction events as [| e events IH]; intros st He; [simpl; split; lia |].
  simpl in He. apply andb_true_iff in He. destruct He as [He Hrest].
  destruct (Proctor.proctorCooldown st) eqn:Hc.
  - destruct (cooling_down_is_silent (e :: events) st Hc) as [Hout Hw].
    + simpl. rewrite He, Hrest. reflexivity.
    + rewrite Hout, Hw. simpl. split; lia.
  - assert (Hstep : (snd (Proctor.step st e) = []
                     /\ Proctor.proctorWarnings (fst (Proctor.step st e))
                        = Proctor.proctorWarnings st
                     /\ Proctor.proctorCooldown (fst (Proctor.step st e)) = false)
                    \/ (length (snd (Proctor.step st e)) = 1%nat
                        /\ Proctor.proctorWarnings (fst (Proctor.step st e))
                           = Proctor.proctorWarnings st + 1
                        /\ Proctor.proctorCooldown (fst (Proctor.step st e)) = true)).
    { destruct st as [w a c]. simpl in Hc. subst c.
      destruct e as [| | reason |]; try discriminate; simpl.
      - left. unfold Proctor.stopProctoring; simpl. destruct a; auto.
      - unfold Proctor.handleProctorViolation; simpl.
        destruct a; simpl; [| left; auto].
        right. destruct (Proctor.MAX_PROCTOR_WARNINGS <=? w + 1); simpl; auto. }
    simpl. destruct (Proctor.step st e) as [st1 out1]; simpl in Hstep.
    destruct Hstep as [[-> [Hw Hc1]] | [Hlen [Hw Hc1]]].
    + destruct (IH st1 Hrest) as [Hl Hb].
      destruct (Proctor.run st1 events) as [st2 out2]; simpl in *.
      rewrite <- Hw. split; [exact Hl | exact Hb].
    + destruct (cooling_down_is_silent events st1 Hc1 Hrest) as [Hout Hw'].
      destruct (Proctor.run st1 events) as [st2 out2]; simpl in *.
      subst out2. rewrite app_nil_r, Hlen, Hw', Hw. split; lia.
Qed.

Lemma proctoring_cooldown_debounces_witness :
  (length (snd (Proctor.run
                  {| Proctor.proctorWarnings := 0;
                     Proctor.proctorActive := true;
                     Proctor.proctorCooldown := false |}
                  [ Proctor.Violation App.tab_switch_reason;
                    Proctor.Violation App.window_blur_reason;
                    Proctor.Violation App.movement_reason ])) <= 1)%nat.
Proof.
  exact (proj1 (proctoring_cooldown_debounces
                  {| Proctor.proctorWarnings := 0;
                     Proctor.proctorActive := true;
                     Proctor.proctorCooldown := false |}
                  [ Proctor.Violation App.tab_switch_reason;
                    Proctor.Violation App.window_blur_reason;
                    Proctor.Violation App.movement_reason ] eq_refl)).
Defined.

(** X15: Stopping the proctoring and starting it again forgives the warnings:
    from every state, a stop followed by a start gives the policy of a new
    session, so the next violation is only the first warning, also after
    two warnings and within a running cooldown. *)
Theorem proctoring_restart_forgets_warnings :
  forall (st : Proctor.state) (reason : jsstring),
    fst (Proctor.run st [Proctor.Stop; Proctor.Start])
    = {| Proctor.proctorWarnings := 0;
         Proctor.proctorActive := true;
         Proctor.proctorCooldown := false |}
    /\ Proctor.run st [Proctor.Stop; Proctor.Start; Proctor.Violation reason]
       = ({| Proctor.proctorWarnings := 1;
             Proctor.proctorActive := true;
             Proctor.proctorCooldown := true |},
          [Proctor.ShowProctorWarning reason 1]).
Proof.
  intros [w a c] reason. split.
  - destruct a; reflexivity.
  - destruct a; reflexivity.
Qed.

(** ** The movement detector *)

Lemma pixel_changed_sum (r g b r' g' b' : Z) :
  App.pixel_changed r g b r' g' b'
  = (180 <? Z.abs (r - r') + Z.abs (g - g') + Z.abs (b - b')).
Proof.
  unfold App.pixel_changed.
  set (d := Z.abs (r - r') + Z.abs (g - g') + Z.abs (b - b')).
  destruct (Z.ltb_spec 180 d) as [H | H].
  - apply negb_true_iff. apply not_true_is_false. intro Hle.
    apply Qle_bool_iff in Hle.
    unfold Qle, Qdiv, Qmult, Qinv, inject_Z in Hle; cbn [Qnum Qden] in Hle. lia.
  - apply negb_false_iff. apply Qle_bool_iff.
    unfold Qle, Qdiv, Qmult, Qinv, inject_Z; cbn [Qnum Qden]. lia.
Qed.

Lemma moved_count (cur prev : list Z) :
  App.moved cur prev = (7680 <? App.changedPixels cur prev).
Proof.
  unfold App.moved.
  set (n := App.changedPixels cur prev).
  destruct (Z.ltb_spec 7680 n) as [H | H].
  - apply negb_true_iff. apply not_true_is_false. intro Hle.
    apply Qle_bool_iff in Hle.
    unfold Qle, Qdiv, Qmult, inject_Z in Hle.
    change (/ (App.totalPixels # 1))%Q with (1 # 19200) in Hle.
    cbn [Qnum Qden] in Hle. lia.
  - apply negb_false_iff. apply Qle_bool_iff.
    unfold Qle, Qdiv, Qmult, inject_Z.
    change (/ (App.totalPixels # 1))%Q with (1 # 19200).
    cbn [Qnum Qden]. lia.
Qed.

(** Induction on frames, four bytes at a time. *)
Lemma frame_induction (P : list Z -> Prop) :
  (forall l, (length l < 4)%nat -> P l) ->
  (forall r g b a l, P l -> P (r :: g :: b :: a :: l)) ->
  forall l, P l.
Proof.
  intros Hshort Hstep l.
  assert (H : forall n l, (length l <= n)%nat -> P l).
  { induction n as [| n IH]; intros l' Hl.
    - apply Hshort. lia.
    - destruct l' as [| r [| g [| b [| a l']]]]; try (apply Hshort; simpl; lia).
      apply Hstep. apply IH. simpl in Hl. lia. }
  apply (H (length l)). lia.
Qed.

Lemma changedPixels_step (r g b a : Z) (cur prev : list Z) :
  App.changedPixels (r :: g :: b :: a :: cur) prev
  = (match prev with
     | r' :: g' :: b' :: _ => if App.pixel_changed r g b r' g' b' then 1 else 0
     | _ => 0
     end) + App.changedPixels cur (skipn 4 prev).
Proof. reflexivity. Qed.

Lemma changedPixels_short (cur prev : list Z) :
  (length cur < 4)%nat -> 0 <= App.changedPixels cur prev <= 1.
Proof.
  intro H. destruct cur as [| r [| g [| b [| a cur]]]]; simpl in *; try lia.
  destruct prev as [| r' [| g' [| b' prev]]]; try lia.
  destruct (App.pixel_changed r g b r' g' b'); lia.
Qed.

Lemma changedPixels_bounds (cur : list Z) :
  forall prev, 0 <= App.changedPixels cur prev <= (Z.of_nat (length cur) + 3) / 4.
Proof.
  induction cur as [cur Hshort | r g b a cur IH] using frame_induction; intro prev.
  - pose proof (changedPixels_short cur prev Hshort) as Hb.
    destruct cur as [| x [| y [| z [| t cur]]]];
      cbn [length] in Hshort; try lia;
      cbn [App.changedPixels length] in *;
      match goal with
      | |- context [(Z.of_nat ?n + 3) / 4] =>
          let v := eval vm_compute in ((Z.of_nat n + 3) / 4) in
          change ((Z.of_nat n + 3) / 4) with v
      end; lia.
  - rewrite changedPixels_step. specialize (IH (skipn 4 prev)).
    assert (Hone : 0 <= match prev with
                        | r' :: g' :: b' :: _ =>
                            if App.pixel_changed r g b r' g' b' then 1 else 0
                        | _ => 0
                        end <= 1).
    { destruct prev as [| r' [| g' [| b' prev]]]; try lia.
      destruct (App.pixel_changed r g b r' g' b'); lia. }
    replace (Z.of_nat (length (r :: g :: b :: a :: cur)) + 3)
      with (Z.of_nat (length cur) + 3 + 1 * 4) by (simpl length; lia).
    rewrite Z.div_add by lia. lia.
Qed.

Lemma changedPixels_same_frame (cur : list Z) : App.changedPixels cur cur = 0.
Proof.
  induction cur as [cur Hshort | r g b a cur IH] using frame_induction.
  - destruct cur as [| r [| g [| b [| a cur]]]]; simpl in *; try lia; try reflexivity.
    rewrite pixel_changed_sum. rewrite !Z.sub_diag. reflexivity.
  - rewrite changedPixels_step. cbn [skipn]. rewrite IH.
    rewrite pixel_changed_sum, !Z.sub_diag. reflexivity.
Qed.

Lemma changedPixels_nil_r (cur : list Z) : App.changedPixels cur [] = 0.
Proof.
  induction cur as [cur Hshort | r g b a cur IH] using frame_induction.
  - destruct cur as [| r [| g [| b [| a cur]]]]; simpl in *; try lia; reflexivity.
  - rewrite changedPixels_step. cbn [skipn]. rewrite IH. reflexivity.
Qed.

(** The loop over the bytes counts the positions at which the two frames
    differ; a frame shorter than the other ends the count. *)
Lemma changedPixels_differing_pixels (cur : list Spec.pixel) :
  forall prev : list Spec.pixel,
    App.changedPixels (Spec.frame_bytes cur) (Spec.frame_bytes prev)
    = Spec.differing_pixels cur prev.
Proof.
  induction cur as [| [[[r g] b] a] cur IH]; intro prev; [reflexivity |].
  change (Spec.frame_bytes ((r, g, b, a) :: cur))
    with (r :: g :: b :: a :: Spec.frame_bytes cur).
  rewrite changedPixels_step.
  destruct prev as [| [[[r' g'] b'] a'] prev].
  - cbn [Spec.frame_bytes flat_map skipn]. rewrite changedPixels_nil_r. reflexivity.
  - change (Spec.frame_bytes ((r', g', b', a') :: prev))
      with (r' :: g' :: b' :: a' :: Spec.frame_bytes prev).
    cbn [skipn]. rewrite IH, pixel_changed_sum.
    unfold Spec.differing_pixels. cbn [combine filter fst snd Spec.differ].
    destruct (180 <? Z.abs (r - r') + Z.abs (g - g') + Z.abs (b - b'));
      cbn [length]; lia.
Qed.

(** X16: The detector reports a movement exactly when more than 7680 pixels,
    40% of the 160 by 120 frame, differ from the pixel at the same place of
    the previous frame by more than 180 in the sum of their three colour
    differences; the count of the code is the number of these places.  It
    never reports on the first frame it sees nor on a frame equal to the
    previous one, and it keeps every frame it looks at for the next
    comparison, unless the violation ends the interview.  With 7681 white
    pixels on a black frame it warns, with 7680 it does not. *)
Theorem detectFaceMovement_threshold :
  forall (cur prev : list Spec.pixel) (st : Proctor.state),
    App.changedPixels (Spec.frame_bytes cur) (Spec.frame_bytes prev)
    = Spec.differing_pixels cur prev
    /\ App.detectFaceMovement true (Spec.frame_bytes cur) None st
       = (Some (Spec.frame_bytes cur), st, [])
    /\ App.detectFaceMovement true (Spec.frame_bytes cur)
         (Some (Spec.frame_bytes cur)) st
       = (Some (Spec.frame_bytes cur), st, [])
    /\ App.detectFaceMovement true (Spec.frame_bytes cur)
         (Some (Spec.frame_bytes prev)) st
       = (if 7680 <? Spec.differing_pixels cur prev then
            (if Proctor.proctorActive st
                && negb (Proctor.proctorActive
                           (fst (Proctor.handleProctorViolation App.movement_reason st)))
             then None else Some (Spec.frame_bytes cur),
             fst (Proctor.handleProctorViolation App.movement_reason st),
             snd (Proctor.handleProctorViolation App.movement_reason st))
          else (Some (Spec.frame_bytes cur), st, []))
    /\ (let frame whites :=
          Spec.frame_bytes (repeat (255, 255, 255, 255) (Z.to_nat whites)
                            ++ repeat (0, 0, 0, 255) (Z.to_nat (19200 - whites))) in
        let watching :=
          {| Proctor.proctorWarnings := 0;
             Proctor.proctorActive := true;
             Proctor.proctorCooldown := false |} in
        snd (App.detectFaceMovement true (frame 7681) (Some (frame 0)) watching)
        = [Proctor.ShowProctorWarning App.movement_reason 1]
        /\ snd (App.detectFaceMovement true (frame 7680) (Some (frame 0)) watching)
           = []
        /\ Spec.differ (61, 60, 60, 255) (0, 0, 0, 255) = true
        /\ Spec.differ (60, 60, 60, 255) (0, 0, 0, 255) = false).
Proof.
  intros cur prev st.
  split; [apply changedPixels_differing_pixels |].
  split; [reflexivity |].
  split.
  { unfold App.detectFaceMovement. cbn [negb].
    rewrite moved_count, changedPixels_same_frame. reflexivity. }
  split.
  { unfold App.detectFaceMovement. cbn [negb].
    rewrite moved_count, changedPixels_differing_pixels.
    destruct (7680 <? Spec.differing_pixels cur prev); [| reflexivity].
    destruct (Proctor.handleProctorViolation App.movement_reason st); reflexivity. }
  cbv zeta. repeat split; vm_compute; reflexivity.
Qed.

(** X17: After the handler of the visibility change has run with the page
    hidden, the delayed check of the window blur shows nothing and counts
    nothing, whatever violations and stops come in between, as long as the
    proctoring is not started anew and no cooldown timer fires in between.
    The condition is needed: the timer of 8 seconds is never cleared, so
    the timer of a violation from before a stop and a new start can fire
    between the two handlers, and then one tab switch gives two warnings. *)
Theorem tab_switch_and_blur_count_once :
  (forall (st : Proctor.state) (between : list Proctor.event) (hidden' : bool),
     forallb App.keeps_cooldown between = true ->
     snd (App.windowBlurTimeout hidden'
            (fst (Proctor.run (fst (App.handleVisibilityChange true st)) between)))
     = [])
  /\ (let earlier :=
        fst (Proctor.run Proctor.initial
               [Proctor.Start; Proctor.Violation App.movement_reason;
                Proctor.Stop; Proctor.Start]) in
      let switched := App.handleVisibilityChange true earlier in
      let stale_timer := Proctor.cooldownElapsed (fst switched) in
      snd switched = [Proctor.ShowProctorWarning App.tab_switch_reason 1]
      /\ snd (App.windowBlurTimeout false stale_timer)
         = [Proctor.ShowProctorWarning App.window_blur_reason 2]).
Proof.
  split; [| cbv zeta; split; reflexivity].
  intros st between hidden' Hbetween.
  set (st1 := fst (App.handleVisibilityChange true st)).
  assert (H1 : Proctor.proctorActive st1 = false \/ Proctor.proctorCooldown st1 = true).
  { unfold st1, App.handleVisibilityChange, Proctor.handleProctorViolation,
      Proctor.stopProctoring.
    destruct st as [w a c]. destruct a, c; cbn; auto.
    destruct (Proctor.MAX_PROCTOR_WARNINGS <=? w + 1); cbn; auto. }
  clearbody st1.
  assert (H2 : Proctor.proctorActive (fst (Proctor.run st1 between)) = false
               \/ Proctor.proctorCooldown (fst (Proctor.run st1 between)) = true).
  { revert st1 H1. induction between as [| e between IH]; intros st1 H1; [exact H1 |].
    simpl in Hbetween. apply andb_true_iff in Hbetween. destruct Hbetween as [He Hrest].
    simpl. destruct (Proctor.step st1 e) as [st2 out2] eqn:Estep.
    specialize (IH Hrest st2).
    destruct (Proctor.run st2 between) as [st3 out3]. simpl in *.
    apply IH. clear IH.
    destruct st1 as [w a c]. simpl in H1.
    destruct e as [| | reason |]; try discriminate He; simpl in Estep.
    - unfold Proctor.stopProctoring in Estep; simpl in Estep.
      destruct a; injection Estep as <- _; simpl; destruct H1; auto.
    - unfold Proctor.handleProctorViolation in Estep; simpl in Estep.
      destruct H1 as [-> | ->]; simpl in Estep;
        [| rewrite orb_true_r in Estep]; injection Estep as <- _; simpl; auto. }
  unfold App.windowBlurTimeout, Proctor.handleProctorViolation.
  destruct (fst (Proctor.run st1 between)) as [w a c]. simpl in H2 |- *.
  destruct a, c, hidden'; simpl; try reflexivity; destruct H2; discriminate.
Qed.

Lemma tab_switch_and_blur_count_once_witness :
  snd (App.windowBlurTimeout false
         (fst (Proctor.run
                 (fst (App.handleVisibilityChange true
                         {| Proctor.proctorWarnings := 0;
                            Proctor.proctorActive := true;
                            Proctor.proctorCooldown := false |}))
                 [Proctor.Violation App.movement_reason])))
  = [].
Proof.
  exact (proj1 tab_switch_and_blur_count_once
           {| Proctor.proctorWarnings := 0;
              Proctor.proctorActive := true;
              Proctor.proctorCooldown := false |}
           [Proctor.Violation App.movement_reason] false eq_refl).
Defined.

(** ** The score classes of the frontend *)

(** X18: The class and the colour that the frontend gives a score are determined
    by the grade of the backend: they change at the same scores 85, 70 and
    55, and show the grades Needs Improvement and Poor alike. *)
Theorem score_class_follows_grade :
  forall score : Z,
    (App.getScoreClass score, App.getScoreColor score)
    = (if jsstring_eqb (InterviewRoute.scoreToGrade score) (lit "Excellent")
       then (lit "score-excellent", lit "#10b981")
       else if jsstring_eqb (InterviewRoute.scoreToGrade score) (lit "Good")
       then (lit "score-good", lit "#06b6d4")
       else if jsstring_eqb (InterviewRoute.scoreToGrade score) (lit "Average")
       then (lit "score-average", lit "#f59e0b")
       else (lit "score-poor", lit "#f43f5e")).
Proof.
  intro score.
  unfold App.getScoreClass, App.getScoreColor, InterviewRoute.scoreToGrade.
  destruct (85 <=? score); [reflexivity |].
  destruct (70 <=? score); [reflexivity |].
  destruct (55 <=? score); [reflexivity |].
  destruct (40 <=? score); reflexivity.
Qed.

(** ** Resuming an interview *)

Lemma findIndex_unanswered_spec (questions : list App.question_view) :
  forall from, 0 <= from ->
    (App.findIndex_unanswered questions from = -1
     /\ forallb App.answered questions = true)
    \/ (exists n,
          App.findIndex_unanswered questions from = from + Z.of_nat n
          /\ (n < length questions)%nat
          /\ forallb App.answered (firstn n questions) = true
          /\ (forall d, App.answered (nth n questions d) = false)).
Proof.
  induction questions as [| q questions IH]; intros from Hfrom; [left; split; reflexivity |].
  simpl. destruct (App.answered q) eqn:Eq; simpl.
  - destruct (IH (from + 1) ltac:(lia)) as [[Hr Hall] | [n [Hr [Hn [Hpre Hat]]]]].
    + left. split; assumption.
    + right. exists (S n). rewrite Hr. simpl. rewrite Eq. simpl.
      repeat split; [lia | lia | exact Hpre | exact Hat].
  - right. exists 0%nat. simpl. repeat split; [lia | lia | intros _; exact Eq].
Qed.

(** X19: An interview is resumed at its first unanswered question, and at its
    last question when all are answered: the index is within the list, all
    questions before it are answered, and the question at it is answered
    only if all are.  For an interview without questions the index is -1. *)
Theorem resumeInterview_index_first_unanswered :
  App.resumeInterview_index [] = -1
  /\ forall (q : App.question_view) (questions : list App.question_view),
       0 <= App.resumeInterview_index (q :: questions)
            < Z.of_nat (length (q :: questions))
       /\ forallb App.answered
            (firstn (Z.to_nat (App.resumeInterview_index (q :: questions)))
               (q :: questions)) = true
       /\ App.answered
            (nth (Z.to_nat (App.resumeInterview_index (q :: questions)))
               (q :: questions) q)
          = forallb App.answered (q :: questions)
       /\ (if forallb App.answered (q :: questions)
           then App.resumeInterview_index (q :: questions)
           else Z.of_nat (length (q :: questions)) - 1)
          = Z.of_nat (length (q :: questions)) - 1.
Proof.
  split; [reflexivity |].
  intros q questions. set (all := q :: questions).
  assert (Hlen : (0 < length all)%nat) by (simpl; lia).
  unfold App.resumeInterview_index.
  destruct (findIndex_unanswered_spec all 0 ltac:(lia))
    as [[Hr Hall] | [n [Hr [Hn [Hpre Hat]]]]].
  - rewrite Hr. change (-1 =? -1) with true. cbv iota.
    replace (Z.to_nat (Z.of_nat (length all) - 1)) with (length all - 1)%nat by lia.
    rewrite Hall.
    split; [lia |]. split; [| split; [| reflexivity]].
    + rewrite forallb_forall in Hall |- *. intros x Hx.
      apply Hall. eapply firstn_In. exact Hx.
    + rewrite forallb_forall in Hall. apply Hall. apply nth_In. lia.
  - rewrite Hr. rewrite Z.add_0_l.
    destruct (Z.eqb_spec (Z.of_nat n) (-1)) as [Hneg | _]; [lia |].
    rewrite Nat2Z.id.
    assert (Hnot : forallb App.answered all = false).
    { apply not_true_is_false. intro Hall. rewrite forallb_forall in Hall.
      specialize (Hall (nth n all q) (nth_In all q Hn)).
      rewrite (Hat q) in Hall. discriminate. }
    rewrite Hnot, (Hat q).
    split; [lia |]. split; [exact Hpre |]. split; reflexivity.
Qed.

(** ** The authentication middleware *)

Lemma split_from_space_free (token : jsstring) :
  AuthMiddleware.space_free token = true ->
  forall cur rest,
    AuthMiddleware.split_from 32%N cur (token ++ rest)
    = AuthMiddleware.split_from 32%N (rev token ++ cur) rest.
Proof.
  induction token as [| c token IH]; intros H cur rest; [reflexivity |].
  simpl in H. apply andb_true_iff in H. destruct H as [Hc Htoken].
  apply negb_true_iff in Hc.
  cbn [app AuthMiddleware.split_from]. rewrite Hc.
  rewrite (IH Htoken). cbn [rev]. rewrite <- app_assoc. reflexivity.
Qed.

Lemma bearer_split (s : jsstring) :
  AuthMiddleware.split 32%N (lit "Bearer " ++ s)
  = lit "Bearer" :: AuthMiddleware.split 32%N s.
Proof. reflexivity. Qed.

Lemma bearer_startsWith (s : jsstring) :
  AuthMiddleware.startsWith (lit "Bearer " ++ s) (lit "Bearer ") = true.
Proof. vm_compute. destruct s; reflexivity. Qed.

Lemma authMiddleware_bearer (verify : option jsstring -> AuthMiddleware.verdict)
    (s : jsstring) :
  AuthMiddleware.authMiddleware verify (Some (lit "Bearer " ++ s))
  = match verify (nth_error (AuthMiddleware.split 32%N s) 0) with
    | AuthMiddleware.Decoded payload => AuthMiddleware.Next payload
    | AuthMiddleware.TokenExpiredError =>
        AuthMiddleware.Status401 AuthMiddleware.expired_message
    | AuthMiddleware.OtherError =>
        AuthMiddleware.Status401 AuthMiddleware.invalid_message
    end.
Proof.
  unfold AuthMiddleware.authMiddleware.
  rewrite bearer_startsWith, bearer_split. reflexivity.
Qed.

(** X20: A request without the header, with an empty header, or with a header
    that does not begin with the seven characters of [Bearer ] (in this
    letter case) is answered with 401 and the message that no token was
    provided, whatever the verification of tokens would say. *)
Theorem authMiddleware_rejects_without_bearer :
  forall (verify : option jsstring -> AuthMiddleware.verdict) (header : jsstring),
    AuthMiddleware.startsWith header (lit "Bearer ") = false ->
    AuthMiddleware.authMiddleware verify (Some header)
    = AuthMiddleware.Status401 AuthMiddleware.no_token_message
    /\ AuthMiddleware.authMiddleware verify None
       = AuthMiddleware.Status401 AuthMiddleware.no_token_message.
Proof.
  intros verify header H. split; [| reflexivity].
  unfold AuthMiddleware.authMiddleware. rewrite H.
  rewrite orb_true_r. reflexivity.
Qed.

Lemma authMiddleware_rejects_without_bearer_witness :
  AuthMiddleware.authMiddleware
    (fun _ => AuthMiddleware.Decoded
                {| AuthMiddleware.user_id := 1;
                   AuthMiddleware.user_email := lit "a@b.c";
                   AuthMiddleware.user_name := lit "A" |})
    (Some (lit "bearer abc"))
  = AuthMiddleware.Status401 AuthMiddleware.no_token_message.
Proof.
  exact (proj1 (authMiddleware_rejects_without_bearer _ (lit "bearer abc") eq_refl)).
Defined.

(** X21: The token that is verified is the text between the first space of the
    header and the next one: a header made of [Bearer ] and a token without
    spaces has this token verified, and so has a header that goes on after
    the token with a space and any text.  The request goes through with the
    payload of the token, or is answered with 401. *)
Theorem authMiddleware_verifies_word_after_bearer :
  forall (verify : option jsstring -> AuthMiddleware.verdict)
         (token rest : jsstring),
    AuthMiddleware.space_free token = true ->
    AuthMiddleware.authMiddleware verify (Some (lit "Bearer " ++ token))
    = AuthMiddleware.verified verify token
    /\ AuthMiddleware.authMiddleware verify
         (Some (lit "Bearer " ++ token ++ lit " " ++ rest))
       = AuthMiddleware.verified verify token.
Proof.
  intros verify token rest H. split.
  - rewrite authMiddleware_bearer. unfold AuthMiddleware.split.
    rewrite <- (app_nil_r token) at 1.
    rewrite (split_from_space_free token H). cbn [AuthMiddleware.split_from nth_error].
    rewrite app_nil_r, rev_involutive. reflexivity.
  - rewrite authMiddleware_bearer. unfold AuthMiddleware.split.
    rewrite (split_from_space_free token H).
    change (lit " " ++ rest) with (32%N :: rest).
    cbn [AuthMiddleware.split_from N.eqb Pos.eqb nth_error].
    rewrite app_nil_r, rev_involutive. reflexivity.
Qed.

Lemma authMiddleware_verifies_word_after_bearer_witness :
  AuthMiddleware.authMiddleware
    (fun token =>
       match token with
       | Some t =>
           if jsstring_eqb t (lit "abc.def.ghi")
           then AuthMiddleware.Decoded
                  {| AuthMiddleware.user_id := 7;
                     AuthMiddleware.user_email := lit "a@b.c";
                     AuthMiddleware.user_name := lit "A" |}
           else AuthMiddleware.OtherError
       | None => AuthMiddleware.OtherError
       end)
    (Some (lit "Bearer abc.def.ghi and more"))
  = AuthMiddleware.Next
      {| AuthMiddleware.user_id := 7;
         AuthMiddleware.user_email := lit "a@b.c";
         AuthMiddleware.user_name := lit "A" |}.
Proof.
  exact (proj2 (authMiddleware_verifies_word_after_bearer _
                  (lit "abc.def.ghi") (lit "and more") eq_refl)).
Defined.

(** X22: The header that the frontend sends carries its token to the
    verification: with a token without spaces the middleware verifies
    exactly this token, and with the empty token of a logged-out page no
    header is sent and the request is answered with 401. *)
Theorem api_token_reaches_verification :
  forall (verify : option jsstring -> AuthMiddleware.verdict) (TOKEN : jsstring),
    AuthMiddleware.space_free TOKEN = true ->
    AuthMiddleware.authMiddleware verify (App.api_authorization TOKEN)
    = match TOKEN with
      | [] => AuthMiddleware.Status401 AuthMiddleware.no_token_message
      | _ => AuthMiddleware.verified verify TOKEN
      end.
Proof.
  intros verify TOKEN H. destruct TOKEN as [| c t]; [reflexivity |].
  unfold App.api_authorization.
  rewrite authMiddleware_bearer. unfold AuthMiddleware.split.
  rewrite <- (app_nil_r (c :: t)) at 1.
  rewrite (split_from_space_free (c :: t) H).
  cbn [AuthMiddleware.split_from nth_error].
  rewrite app_nil_r, rev_involutive. reflexivity.
Qed.

Lemma api_token_reaches_verification_witness :
  AuthMiddleware.authMiddleware (fun _ => AuthMiddleware.TokenExpiredError)
    (App.api_authorization (lit "abc.def.ghi"))
  = AuthMiddleware.Status401 AuthMiddleware.expired_message.
Proof.
  exact (api_token_reaches_verification
           (fun _ => AuthMiddleware.TokenExpiredError) (lit "abc.def.ghi") eq_refl).
Defined.

(** ** The answers that the frontend submits *)

Lemma trimEnd_idempotent (s : jsstring) : trimEnd (trimEnd s) = trimEnd s.
Proof.
  induction s as [| c s IH]; [reflexivity |].
  cbn [trimEnd]. destruct (trimEnd s) as [| d t] eqn:E.
  - destruct (is_white_space c) eqn:Ec; [reflexivity |].
    cbn [trimEnd]. rewrite Ec. reflexivity.
  - change (trimEnd (c :: d :: t))
      with (match trimEnd (d :: t) with
            | [] => if is_white_space c then [] else [c]
            | u => c :: u
            end).
    rewrite IH. reflexivity.
Qed.

Lemma trim_idempotent (s : jsstring) : trim (trim s) = trim s.
Proof.
  unfold trim. destruct (trimStart s) as [| c t] eqn:E; [reflexivity |].
  pose proof (trimStart_head _ _ _ E) as Ec.
  destruct (trimEnd_head t c Ec) as [u Hu].
  rewrite Hu. cbn [trimStart]. rewrite Ec. rewrite <- Hu.
  apply trimEnd_idempotent.
Qed.

(** X23: The check of the frontend and the validation of the server accept the
    same answers: a text for which [submitAnswer] sends nothing would have
    been refused by the server with the status 400, and the body that it
    sends passes the validation of the server, which goes on to look up the
    interview. *)
Theorem submitAnswer_agrees_with_server_validation :
  forall (w : InterviewRoute.world) (q_id : Z) (value : jsstring),
    q_id <> 0 ->
    match App.submitAnswer_body q_id value with
    | None =>
        InterviewRoute.post_answer w
          {| InterviewRoute.questionId := InterviewRoute.JNumber q_id;
             InterviewRoute.answerText := InterviewRoute.JString value |}
        = [InterviewRoute.Respond 400 InterviewRoute.validation_message]
    | Some body =>
        hd_error (InterviewRoute.post_answer w body)
        = Some InterviewRoute.SelectInterview
    end.
Proof.
  intros w q_id value Hq.
  assert (Hid : (q_id =? 0) = false) by (apply Z.eqb_neq; exact Hq).
  unfold App.submitAnswer_body.
  destruct (Z.of_nat (length (trim value)) <? 5) eqn:Elen.
  - unfold InterviewRoute.post_answer.
    cbn [InterviewRoute.questionId InterviewRoute.answerText InterviewRoute.falsy].
    rewrite Hid. destruct value as [| c value]; [reflexivity |].
    cbn [orb]. rewrite Elen. reflexivity.
  - unfold InterviewRoute.post_answer.
    cbn [InterviewRoute.questionId InterviewRoute.answerText InterviewRoute.falsy].
    rewrite Hid, trim_idempotent, Elen.
    destruct (trim value) as [| c t] eqn:Et; [discriminate Elen |].
    reflexivity.
Qed.

Lemma submitAnswer_agrees_with_server_validation_witness :
  hd_error
    (InterviewRoute.post_answer
       {| InterviewRoute.interview_row := None;
          InterviewRoute.question_row := None;
          InterviewRoute.gemini_feedback := None;
          InterviewRoute.insert_succeeds := true;
          InterviewRoute.random := fun _ => 0%Q;
          InterviewRoute.interview_query_throws := false;
          InterviewRoute.question_query_throws := false;
          InterviewRoute.gemini_unusable := false |}
       {| InterviewRoute.questionId := InterviewRoute.JNumber 4;
          InterviewRoute.answerText := InterviewRoute.JString (lit "I led it.") |})
  = Some InterviewRoute.SelectInterview.
Proof.
  refine (submitAnswer_agrees_with_server_validation
            {| InterviewRoute.interview_row := None;
               InterviewRoute.question_row := None;
               InterviewRoute.gemini_feedback := None;
               InterviewRoute.insert_succeeds := true;
               InterviewRoute.random := fun _ => 0%Q;
               InterviewRoute.interview_query_throws := false;
               InterviewRoute.question_query_throws := false;
               InterviewRoute.gemini_unusable := false |}
            4 (lit "  I led it. ") _).
  discriminate.
Defined.

(** ** The responses of [POST /api/interview/:id/answer] *)

(** X24: The handler sends one response and does nothing after it, unless
    something throws before its [try] block: then its promise is rejected
    as the last thing that happens, and it has sent no response.  This is so
    for a truthy [answerText] that is not a string (with a truthy
    [questionId]), for a query that throws, and so for a boolean
    [questionId], which the second query cannot bind.  Inside the [try]
    block every error is answered with the status 500, as is a reply of
    Gemini that cannot be stored, without an insertion. *)
Theorem post_answer_responds_once_at_the_end :
  forall (w : InterviewRoute.world) (body : InterviewRoute.answer_body),
    length (filter Handler.responds (InterviewRoute.post_answer w body))
    = (if Handler.throws_before_try w body then 0%nat else 1%nat)
    /\ existsb Handler.rejects (InterviewRoute.post_answer w body)
       = Handler.throws_before_try w body
    /\ existsb Handler.responds (removelast (InterviewRoute.post_answer w body))
       = false
    /\ existsb Handler.rejects (removelast (InterviewRoute.post_answer w body))
       = false
    /\ (let found :=
          {| InterviewRoute.interview_row :=
               Some {| Fallback.job_role := lit "Engineer";
                       Fallback.interview_type := lit "technical";
                       Fallback.interview_difficulty := lit "Medium" |};
             InterviewRoute.question_row := Some (lit "What is a closure?");
             InterviewRoute.gemini_feedback := None;
             InterviewRoute.insert_succeeds := true;
             InterviewRoute.random := fun _ => 0%Q;
             InterviewRoute.interview_query_throws := false;
             InterviewRoute.question_query_throws := false;
             InterviewRoute.gemini_unusable := true |} in
        InterviewRoute.post_answer found
          {| InterviewRoute.questionId := InterviewRoute.JBool true;
             InterviewRoute.answerText := InterviewRoute.JString (lit "hello world") |}
        = [InterviewRoute.SelectInterview; InterviewRoute.SelectQuestion;
           InterviewRoute.Reject]
        /\ InterviewRoute.post_answer found
             {| InterviewRoute.questionId := InterviewRoute.JNumber 4;
                InterviewRoute.answerText := InterviewRoute.JString (lit "hello world") |}
           = [InterviewRoute.SelectInterview; InterviewRoute.SelectQuestion;
              InterviewRoute.CallGemini;
              InterviewRoute.Respond 500 (lit "Failed to evaluate answer.")]).
Proof.
  intros w [qid ans].
  split; [| split; [| split; [| split; [| cbv zeta; split; reflexivity]]]];
    unfold Handler.throws_before_try, Handler.reaches_question_query,
      Handler.reaches_interview_query, InterviewRoute.post_answer,
      InterviewRoute.evaluate_and_store;
    cbn [InterviewRoute.questionId InterviewRoute.answerText];
    (destruct (InterviewRoute.falsy qid) eqn:Eq; [reflexivity |]);
    cbn [orb negb andb];
    (destruct ans as [| | b | z | text |];
     cbn [InterviewRoute.falsy Handler.truthy_not_string negb andb orb];
     try reflexivity;
     [ destruct b; reflexivity
     | destruct (z =? 0); reflexivity
     | ]);
    (destruct text as [| c text]; [reflexivity |]);
    cbn [negb andb orb];
    try rewrite Z.leb_antisym;
    (destruct (Z.of_nat (length (trim (c :: text))) <? 5); [reflexivity |]);
    cbn [negb andb orb];
    (destruct (InterviewRoute.interview_query_throws w); [reflexivity |]);
    cbn [negb andb orb];
    (destruct (InterviewRoute.interview_row w); [| reflexivity]);
    cbn [negb andb orb];
    (destruct (InterviewRoute.unbindable qid); [reflexivity |]);
    cbn [orb];
    (destruct (InterviewRoute.question_query_throws w); [reflexivity |]);
    (destruct (InterviewRoute.question_row w); [| reflexivity]);
    (destruct (InterviewRoute.gemini_unusable w); [reflexivity |]);
    destruct (InterviewRoute.gemini_feedback w), (InterviewRoute.insert_succeeds w);
    reflexivity.
Qed.

(** X25: Feedback is sent to the client only after it was written to the
    database, for an interview and a question that the two queries found.
    It is the feedback that Gemini gave, or when there is none that of the
    local evaluator for the stored question, the answer as it was posted,
    and the difficulty of the interview. *)
Theorem post_answer_feedback_was_stored :
  forall (w : InterviewRoute.world) (body : InterviewRoute.answer_body)
         (feedback : Fallback.AnswerEvaluation),
    In (InterviewRoute.RespondFeedback feedback) (InterviewRoute.post_answer w body) ->
    In (InterviewRoute.InsertAnswer feedback) (InterviewRoute.post_answer w body)
    /\ InterviewRoute.insert_succeeds w = true
    /\ exists iv question text,
         InterviewRoute.interview_row w = Some iv
         /\ InterviewRoute.question_row w = Some question
         /\ InterviewRoute.answerText body = InterviewRoute.JString text
         /\ feedback
            = match InterviewRoute.gemini_feedback w with
              | Some given => given
              | None =>
                  Fallback.evaluateAnswerLocally (InterviewRoute.random w)
                    question text (Fallback.interview_difficulty iv)
              end.
Proof.
  intros w [qid ans] feedback.
  unfold InterviewRoute.post_answer, InterviewRoute.evaluate_and_store.
  cbn [InterviewRoute.questionId InterviewRoute.answerText].
  destruct (InterviewRoute.falsy qid || InterviewRoute.falsy ans).
  { simpl. intros [H | []]. discriminate H. }
  destruct ans as [| | b | z | text |];
    try (simpl; intros [H | []]; discriminate H).
  destruct (Z.of_nat (length (trim text)) <? 5).
  { simpl. intros [H | []]. discriminate H. }
  destruct (InterviewRoute.interview_query_throws w).
  { simpl. intros [H | [H | []]]; discriminate H. }
  destruct (InterviewRoute.interview_row w) as [iv |] eqn:Ei.
  2:{ simpl. intros [H | [H | []]]; discriminate H. }
  destruct (InterviewRoute.unbindable qid || InterviewRoute.question_query_throws w).
  { simpl. intros [H | [H | [H | []]]]; discriminate H. }
  destruct (InterviewRoute.question_row w) as [question |] eqn:Eqn.
  2:{ simpl. intros [H | [H | [H | []]]]; discriminate H. }
  destruct (InterviewRoute.gemini_unusable w).
  { simpl. intros [H | [H | [H | [H | []]]]]; discriminate H. }
  destruct (InterviewRoute.gemini_feedback w) as [given |] eqn:Eg;
    destruct (InterviewRoute.insert_succeeds w) eqn:Es; simpl;
    intro H;
    repeat (destruct H as [H | H]; [try discriminate H |]); try contradiction;
    injection H as <-;
    (split; [tauto |]); (split; [reflexivity |]);
    exists iv, question, text; repeat split; reflexivity.
Qed.

Lemma post_answer_feedback_was_stored_witness :
  In (InterviewRoute.InsertAnswer
        {| Fallback.score := Num 80;
           Fallback.positive := lit "Clear.";
           Fallback.improve := lit "Add numbers.";
           Fallback.brief := lit "Good." |})
     (InterviewRoute.post_answer
        {| InterviewRoute.interview_row :=
             Some {| Fallback.job_role := lit "Engineer";
                     Fallback.interview_type := lit "technical";
                     Fallback.interview_difficulty := lit "Medium" |};
           InterviewRoute.question_row := Some (lit "What is a closure?");
           InterviewRoute.gemini_feedback :=
             Some {| Fallback.score := Num 80;
                     Fallback.positive := lit "Clear.";
                     Fallback.improve := lit "Add numbers.";
                     Fallback.brief := lit "Good." |};
           InterviewRoute.insert_succeeds := true;
           InterviewRoute.random := fun _ => 0%Q;
           InterviewRoute.interview_query_throws := false;
           InterviewRoute.question_query_throws := false;
           InterviewRoute.gemini_unusable := false |}
        {| InterviewRoute.questionId := InterviewRoute.JNumber 4;
           InterviewRoute.answerText := InterviewRoute.JString (lit "A function.") |}).
Proof.
  refine (proj1 (post_answer_feedback_was_stored _ _ _ _)).
  vm_compute. tauto.
Defined.
